(** * Celestia: the deterministic chart engine

    A shallow embedding of the astronomy service ([getZodiacInfo],
    [calculateAscendant], [calculateChart], [calculateAspects]) and of the
    zodiac wheel's [resolveCollisions], with the properties of the
    specification stated against them.

    Numbers.  A JavaScript [number] is modelled as a rational [Q]: every
    finite double is a rational.  The sums and differences of longitudes
    ([longitude + 360], [longitude - elonNext], [planetA.degree -
    planetB.degree], [d1 - d2], [360 - diff]), the quotient
    [normalized / 30] and the arithmetic of [calculateAscendant] are
    rounded to the nearest binary64 number, ties to even ([JS.binary64],
    [JS.add], [JS.sub], [JS.mul], [JS.div]); the exponent range is not
    bounded, so the rounding is that of the code for every result between
    2^-1022 and 2^1024 in magnitude.  [%], [Math.abs], [Math.floor] and
    the comparisons are exact, as in the code.  The remaining operations
    are taken exactly: the differences between a separation and an
    aspect's angle (in binary64 they are exact wherever the test against
    the orb can change), the comparators of the two sorts, of which only
    the sign is used, and the screen coordinates.  Integer-valued
    quantities that the code only counts or indexes with (array indices,
    element counts, house numbers, track numbers) are [Z] or [nat].  The
    two places where the code computes with constants that are not
    binary64 numbers ([count / 10 * 100] and [ORB * 0.7]) are also
    evaluated in binary64, with Rocq's primitive floats, and compared with
    the exact value. *)

From Stdlib Require Import ZArith QArith Qabs Qround Qminmax Qpower Lia Lqa.
From Stdlib Require Import String List Sorted Permutation Floats.
From stdpp Require Import gmap strings list.

Open Scope Q_scope.

(* ================================================================== *)
(** ** The JavaScript operations the code relies on *)
(* ================================================================== *)

Module JS.

(** Truncation toward zero, the rounding used by [%]. *)
Definition trunc (x : Q) : Z :=
  if Qle_bool 0 x then Qfloor x else Qceiling x.

(** [a % b]: the remainder takes the sign of the dividend. *)
Definition rem (a b : Q) : Q := a - b * inject_Z (trunc (a / b)).

(** *** Binary64 rounding

    [binary64 x] is the number with 53 significant bits nearest to [x],
    the even one of two at the same distance: the result of a binary64
    operation whose exact result is [x]. *)

Definition pow2 (e : Z) : Q := 2 ^ e.

(** The exponent [e] of a positive number: [2^e <= a < 2^(e+1)]. *)
Definition ilog2 (a : Q) : Z :=
  let e0 := (Z.log2 (Qnum a) - Z.log2 (Zpos (Qden a)))%Z in
  if Qle_bool (pow2 e0) a then e0 else (e0 - 1)%Z.

(** The nearest integer, the even one at a half. *)
Definition nearest_even (q : Q) : Z :=
  let f := Qfloor q in
  match Qcompare (q - inject_Z f) (1 # 2) with
  | Lt => f
  | Gt => (f + 1)%Z
  | Eq => if Z.even f then f else (f + 1)%Z
  end.

Definition binary64_pos (a : Q) : Q :=
  let ulp := pow2 (ilog2 a - 52) in
  Qred (inject_Z (nearest_even (a / ulp)) * ulp).

Definition binary64 (x : Q) : Q :=
  match Qnum x with
  | Z0 => 0
  | Zpos _ => binary64_pos x
  | Zneg _ => - binary64_pos (- x)
  end.

(** [a + b], [a - b], [a * b] and [a / b] on numbers. *)
Definition add (a b : Q) : Q := binary64 (a + b).
Definition sub (a b : Q) : Q := binary64 (a - b).
Definition mul (a b : Q) : Q := binary64 (a * b).
Definition div (a b : Q) : Q := binary64 (a / b).

Definition Math_floor (x : Q) : Z := Qfloor x.

(** [Math.round]: nearest integer, halves go up. *)
Definition Math_round (x : Q) : Z := Qfloor (x + (1 # 2)).

Definition Math_abs (x : Q) : Q := Qabs x.

Definition Math_max (a b : Z) : Z := Z.max a b.

(** [a < b] and [a <= b] on numbers, as booleans. *)
Definition lt (a b : Q) : bool := negb (Qle_bool b a).
Definition le (a b : Q) : bool := Qle_bool a b.
Definition gt (a b : Q) : bool := lt b a.

(** A call either returns or throws. *)
Inductive exn : Type :=
| TypeError
| Thrown (msg : string).

Inductive Result (A : Type) : Type :=
| Return (a : A)
| Throw (e : exn).
Arguments Return {A} a.
Arguments Throw {A} e.

Definition bind {A B} (r : Result A) (k : A -> Result B) : Result B :=
  match r with
  | Return a => k a
  | Throw e => Throw e
  end.

(** [xs.map(f)] where [f] may throw: left to right, the first throw
    ends the loop. *)
Fixpoint mapM {A B} (f : A -> Result B) (xs : list A) : Result (list B) :=
  match xs with
  | [] => Return []
  | x :: xs' =>
      bind (f x) (fun y => bind (mapM f xs') (fun ys => Return (y :: ys)))
  end.

(** Reading a property of a value that may be [undefined]. *)
Definition deref {A} (o : option A) : Result A :=
  match o with
  | Some a => Return a
  | None => Throw TypeError
  end.

(** [arr[i]] for an integer [i]: [undefined] out of range. *)
Definition index {A} (arr : list A) (i : Z) : option A :=
  if (i <? 0)%Z then None else arr !! Z.to_nat i.

(** [arr.findIndex(p)]: the first index where [p] holds, or -1. *)
Fixpoint findIndex_from {A} (p : A -> bool) (arr : list A) (i : Z) : Z :=
  match arr with
  | [] => (-1)%Z
  | x :: arr' => if p x then i else findIndex_from p arr' (i + 1)%Z
  end.
Definition findIndex {A} (p : A -> bool) (arr : list A) : Z :=
  findIndex_from p arr 0%Z.

(** [Array.prototype.sort(cmp)] is stable (ECMAScript 2019): an element
    moves in front of another only when the comparator is negative.
    Modelled as the insertion sort that has this behaviour. *)
Section Sort.
Context {A : Type} (cmp : A -> A -> Q).

Fixpoint insert (x : A) (l : list A) : list A :=
  match l with
  | [] => [x]
  | y :: l' => if Qle_bool (cmp x y) 0 then x :: y :: l'
               else y :: insert x l'
  end.

Fixpoint sort (l : list A) : list A :=
  match l with
  | [] => []
  | x :: l' => insert x (sort l')
  end.
End Sort.

(** [arr.slice(0, n)]. *)
Definition slice0 {A} (n : nat) (arr : list A) : list A := firstn n arr.

End JS.

Notation "'let!' x ':=' r 'in' k" := (JS.bind r (fun x => k))
  (at level 10, x name, r at level 100, k at level 200).

(* ================================================================== *)
(** ** constants and types *)
(* ================================================================== *)

Module ZodiacSign.
Record t : Type := mk {
  name : string;
  symbol : string;
  startDegree : Q;
  element : string
}.
End ZodiacSign.

Definition ZODIAC_SIGNS : list ZodiacSign.t :=
  [ ZodiacSign.mk "Aries" "♈︎" 0 "fire";
    ZodiacSign.mk "Taurus" "♉︎" 30 "earth";
    ZodiacSign.mk "Gemini" "♊︎" 60 "air";
    ZodiacSign.mk "Cancer" "♋︎" 90 "water";
    ZodiacSign.mk "Leo" "♌︎" 120 "fire";
    ZodiacSign.mk "Virgo" "♍︎" 150 "earth";
    ZodiacSign.mk "Libra" "♎︎" 180 "air";
    ZodiacSign.mk "Scorpio" "♏︎" 210 "water";
    ZodiacSign.mk "Sagittarius" "♐︎" 240 "fire";
    ZodiacSign.mk "Capricorn" "♑︎" 270 "earth";
    ZodiacSign.mk "Aquarius" "♒︎" 300 "air";
    ZodiacSign.mk "Pisces" "♓︎" 330 "water" ].

(** [PlanetPosition] without [interpretation], which the enrichment step
    adds later and none of the functions below reads. *)
Module PlanetPosition.
Record t : Type := mk {
  name : string;
  symbol : string;
  sign : string;
  signSymbol : string;
  degree : Q;
  relativeDegree : Q;
  house : Z;
  retrograde : bool
}.
End PlanetPosition.

Module ElementalBalance.
Record t : Type := mk {
  fire : Z;
  earth : Z;
  air : Z;
  water : Z
}.
End ElementalBalance.

Module SynastryAspect.
Record t : Type := mk {
  planetA : string;
  planetB : string;
  aspectType : string;
  description : string;
  orb : Q
}.
End SynastryAspect.

Module Rising.
Record t : Type := mk {
  sign : string;
  signSymbol : string;
  degree : Q
}.
End Rising.

Module BigThree.
Record t : Type := mk {
  sun : string;
  moon : string;
  rising : string
}.
End BigThree.

Module CalculatedChart.
Record t : Type := mk {
  planets : list PlanetPosition.t;
  rising : Rising.t;
  elements : ElementalBalance.t;
  bigThree : BigThree.t
}.
End CalculatedChart.

(* ================================================================== *)
(** ** astronomyService *)
(* ================================================================== *)

Definition BODIES : list string :=
  [ "Sun"; "Moon"; "Mercury"; "Venus"; "Mars";
    "Jupiter"; "Saturn"; "Uranus"; "Neptune"; "Pluto" ]%string.

Definition PLANET_SYMBOLS : gmap string string :=
  list_to_map
    [ ("Sun", "☉"); ("Moon", "☽"); ("Mercury", "☿"); ("Venus", "♀");
      ("Mars", "♂"); ("Jupiter", "♃"); ("Saturn", "♄"); ("Uranus", "♅");
      ("Neptune", "♆"); ("Pluto", "♇") ]%string.

(** The local [normalized] of [getZodiacInfo]; [calculateAscendant] ends
    with the same expression. *)
Definition normalized (longitude : Q) : Q :=
  JS.rem (JS.add longitude 360) 360.

Module ZodiacInfo.
Record t : Type := mk {
  sign : option ZodiacSign.t;
  relativeDegree : Q
}.
End ZodiacInfo.

Definition getZodiacInfo (longitude : Q) : ZodiacInfo.t :=
  let normalized := normalized longitude in
  let signIndex := JS.Math_floor (JS.div normalized 30) in
  let sign := JS.index ZODIAC_SIGNS signIndex in
  let relativeDegree := JS.rem normalized 30 in
  ZodiacInfo.mk sign relativeDegree.

(** *** The libraries the service calls

    [Math] and the astronomy engine are outside the repository; the
    service is stated over their interfaces.  The [Math] functions are
    total on numbers; the engine's calls may throw. *)

Class MathLib : Type := {
  Math_PI : Q;
  Math_cos : Q -> Q;
  Math_sin : Q -> Q;
  Math_tan : Q -> Q;
  Math_atan2 : Q -> Q -> Q
}.

(** A [Date] is its [getTime()], in milliseconds. *)
Definition Date : Type := Z.

Class AstronomyEngine : Type := {
  AstroTime : Type;
  Vector : Type;
  (** [new Astronomy.Observer(latitude, longitude, height)] *)
  Astronomy_Observer : Q -> Q -> Q -> JS.Result unit;
  (** [Astronomy.SiderealTime(date)], in hours *)
  Astronomy_SiderealTime : Date -> JS.Result Q;
  (** [Astronomy.MakeTime(date)] *)
  Astronomy_MakeTime : Date -> JS.Result AstroTime;
  (** [Astronomy.GeoVector(Astronomy.Body[bodyName], time, aberration)] *)
  Astronomy_GeoVector : string -> AstroTime -> bool -> JS.Result Vector;
  (** [Astronomy.Ecliptic(vec).elon] *)
  Astronomy_Ecliptic_elon : Vector -> JS.Result Q
}.

(** The literal [23.4392911], as the binary64 number it denotes. *)
Definition obliquity : Q := JS.binary64 (234392911 # 10000000).

Section Service.
Context {M : MathLib} {E : AstronomyEngine}.

Definition calculateAscendant (date : Date) (lat lon : Q) : JS.Result Q :=
  let! observer := Astronomy_Observer lat lon 0 in
  let! gmst := Astronomy_SiderealTime date in
  let lstHours := JS.add gmst (JS.div lon 15) in
  let lstDeg := JS.mul lstHours 15 in
  let ramc := JS.div (JS.mul lstDeg Math_PI) 180 in
  let eps := JS.div (JS.mul obliquity Math_PI) 180 in
  let latRad := JS.div (JS.mul lat Math_PI) 180 in
  let num := Math_cos ramc in
  let den := JS.sub (JS.mul (- Math_sin ramc) (Math_cos eps))
                    (JS.mul (Math_tan latRad) (Math_sin eps)) in
  let ascRad := Math_atan2 num den in
  let ascDeg := JS.div (JS.mul ascRad 180) Math_PI in
  JS.Return (JS.rem (JS.add ascDeg 360) 360).

(** The [retrograde] flag of a body from its longitude now and one hour
    later. *)
Definition retrograde (longitude elonNext : Q) : bool :=
  JS.lt elonNext longitude && JS.lt (JS.sub longitude elonNext) 180.

(** Whole-sign house of a sign, counted from the ascendant's sign. *)
Definition house (signIndex ascSignIndex : Z) : Z :=
  (Z.rem (signIndex - ascSignIndex + 12) 12 + 1)%Z.

Definition signIndexOf (signName : string) : Z :=
  JS.findIndex (fun z => String.eqb (ZodiacSign.name z) signName)
    ZODIAC_SIGNS.

(** The body of [BODIES.map(bodyName => ...)]. *)
Definition planetOf (date : Date) (ascSignIndex : Z) (bodyName : string)
  : JS.Result PlanetPosition.t :=
  let! time := Astronomy_MakeTime date in
  let! vec := Astronomy_GeoVector bodyName time true in
  let! longitude := Astronomy_Ecliptic_elon vec in
  let! timeNext := Astronomy_MakeTime (date + 3600000)%Z in
  let! vecNext := Astronomy_GeoVector bodyName timeNext true in
  let! elonNext := Astronomy_Ecliptic_elon vecNext in
  let retrograde := retrograde longitude elonNext in
  let info := getZodiacInfo longitude in
  let relativeDegree := ZodiacInfo.relativeDegree info in
  let! sign := JS.deref (ZodiacInfo.sign info) in
  let signIndex := signIndexOf (ZodiacSign.name sign) in
  let house := house signIndex ascSignIndex in
  JS.Return
    {| PlanetPosition.name := bodyName;
       PlanetPosition.symbol := PLANET_SYMBOLS !!! bodyName;
       PlanetPosition.sign := ZodiacSign.name sign;
       PlanetPosition.signSymbol := ZodiacSign.symbol sign;
       PlanetPosition.degree := longitude;
       PlanetPosition.relativeDegree := relativeDegree;
       PlanetPosition.house := house;
       PlanetPosition.retrograde := retrograde |}.

End Service.

(** *** Elemental balance *)

Module Counts.
Record t : Type := mk {
  fire : Z;
  earth : Z;
  air : Z;
  water : Z
}.
End Counts.

(** [ZODIAC_SIGNS.find(z => z.name === p.sign)?.element] *)
Definition elementOf (signName : string) : option string :=
  ZodiacSign.element <$>
    List.find (fun z => String.eqb (ZodiacSign.name z) signName) ZODIAC_SIGNS.

(** [if (el && el in counts) counts[el]++]: the keys of [counts] are the
    four elements, none of them the empty string. *)
Definition increment (el : option string) (counts : Counts.t) : Counts.t :=
  match el with
  | None => counts
  | Some el =>
      let '(Counts.mk f e a w) := counts in
      if String.eqb el "fire" then Counts.mk (f + 1) e a w
      else if String.eqb el "earth" then Counts.mk f (e + 1) a w
      else if String.eqb el "air" then Counts.mk f e (a + 1) w
      else if String.eqb el "water" then Counts.mk f e a (w + 1)
      else counts
  end%Z.

Definition countElements (planets : list PlanetPosition.t) : Counts.t :=
  fold_left
    (fun counts p => increment (elementOf (PlanetPosition.sign p)) counts)
    planets (Counts.mk 0 0 0 0).

(** [Math.round((count / total) * 100)] *)
Definition percentage (count total : Z) : Z :=
  JS.Math_round ((inject_Z count / inject_Z total) * 100).

(** [waterPct], the remainder before the safety clip. *)
Definition waterPct (firePct earthPct airPct : Z) : Z :=
  (100 - firePct - earthPct - airPct)%Z.

Definition elementsOf (planets : list PlanetPosition.t) : ElementalBalance.t :=
  let counts := countElements planets in
  let total := JS.Math_max (Z.of_nat (length planets)) 1 in
  let firePct := percentage (Counts.fire counts) total in
  let earthPct := percentage (Counts.earth counts) total in
  let airPct := percentage (Counts.air counts) total in
  let waterPct := waterPct firePct earthPct airPct in
  {| ElementalBalance.fire := firePct;
     ElementalBalance.earth := earthPct;
     ElementalBalance.air := airPct;
     ElementalBalance.water := if (waterPct <? 0)%Z then 0%Z else waterPct |}.

(** [`${p?.sign}`] for the result of [planets.find]. *)
Definition signText (p : option PlanetPosition.t) : string :=
  match p with
  | Some p => PlanetPosition.sign p
  | None => "undefined"
  end.

Definition findPlanet (n : string) (planets : list PlanetPosition.t)
  : option PlanetPosition.t :=
  List.find (fun p => String.eqb (PlanetPosition.name p) n) planets.

Section Chart.
Context {M : MathLib} {E : AstronomyEngine}.

Definition calculateChart (date : Date) (lat lon : Q)
  : JS.Result CalculatedChart.t :=
  let! ascDegree := calculateAscendant date lat lon in
  let ascInfo := getZodiacInfo ascDegree in
  let! ascSign := JS.deref (ZodiacInfo.sign ascInfo) in
  let ascSignIndex := signIndexOf (ZodiacSign.name ascSign) in
  let! planets := JS.mapM (planetOf date ascSignIndex) BODIES in
  let elements := elementsOf planets in
  let sun := findPlanet "Sun" planets in
  let moon := findPlanet "Moon" planets in
  JS.Return
    {| CalculatedChart.planets := planets;
       CalculatedChart.rising :=
         {| Rising.sign := ZodiacSign.name ascSign;
            Rising.signSymbol := ZodiacSign.symbol ascSign;
            Rising.degree := ascDegree |};
       CalculatedChart.elements := elements;
       CalculatedChart.bigThree :=
         {| BigThree.sun := signText sun;
            BigThree.moon := signText moon;
            BigThree.rising := ZodiacSign.name ascSign |} |}.

End Chart.

(** *** Synastry aspects *)

Definition ORB : Q := 6.

(** Shortest distance on the circle between two longitudes. *)
Definition separation (a b : Q) : Q :=
  let diff := JS.Math_abs (JS.sub a b) in
  if JS.gt diff 180 then JS.sub 360 diff else diff.

(** The chain of conditionals that names the aspect; the empty string
    when none matches. *)
Definition aspectTypeOf (angle : Q) : string :=
  if JS.le (JS.Math_abs (angle - 0)) ORB then "Conjunction"
  else if JS.le (JS.Math_abs (angle - 60)) (ORB * (7 # 10)) then "Sextile"
  else if JS.le (JS.Math_abs (angle - 90)) ORB then "Square"
  else if JS.le (JS.Math_abs (angle - 120)) ORB then "Trine"
  else if JS.le (JS.Math_abs (angle - 180)) ORB then "Opposition"
  else "".

(** The exact angle read back from the name when the orb is recorded. *)
Definition exactAngleOf (type : string) : Q :=
  if String.eqb type "Conjunction" then 0
  else if String.eqb type "Sextile" then 60
  else if String.eqb type "Square" then 90
  else if String.eqb type "Trine" then 120
  else 180.

(** The body of the inner [forEach]: what is pushed for one pair. *)
Definition aspectsOfPair (planetA planetB : PlanetPosition.t)
  : list SynastryAspect.t :=
  let angle := separation (PlanetPosition.degree planetA)
                          (PlanetPosition.degree planetB) in
  let type := aspectTypeOf angle in
  if String.eqb type "" then []
  else [ {| SynastryAspect.planetA := PlanetPosition.name planetA;
            SynastryAspect.planetB := PlanetPosition.name planetB;
            SynastryAspect.aspectType := type;
            SynastryAspect.description := "";
            SynastryAspect.orb := JS.Math_abs (angle - exactAngleOf type) |} ].

(** The [aspects] array after the two nested loops, before the sort. *)
Definition pushedAspects (p1 p2 : CalculatedChart.t) : list SynastryAspect.t :=
  flat_map (fun planetA =>
    flat_map (fun planetB => aspectsOfPair planetA planetB)
      (CalculatedChart.planets p2))
    (CalculatedChart.planets p1).

Definition byOrb (a b : SynastryAspect.t) : Q :=
  SynastryAspect.orb a - SynastryAspect.orb b.

Definition calculateAspects (p1 p2 : CalculatedChart.t)
  : list SynastryAspect.t :=
  JS.slice0 8 (JS.sort byOrb (pushedAspects p1 p2)).

(* ================================================================== *)
(** ** ZodiacWheel: resolveCollisions *)
(* ================================================================== *)

(** A planet with its radial [track] and [isIsolated] flag. *)
Module Tracked.
Record t : Type := mk {
  planet : PlanetPosition.t;
  track : nat;
  isIsolated : bool
}.
Definition degree (p : t) : Q := PlanetPosition.degree (planet p).
Definition setTrack (n : nat) (p : t) : t :=
  mk (planet p) n (isIsolated p).
End Tracked.

Definition byDegree (a b : PlanetPosition.t) : Q :=
  PlanetPosition.degree a - PlanetPosition.degree b.

Definition getDist (d1 d2 : Q) : Q :=
  let diff := JS.Math_abs (JS.sub d1 d2) in
  if JS.gt diff 180 then JS.sub 360 diff else diff.

(** Step 1 of the loop body.  Inside [forEach] the two indices are in
    range, so [prev] and [next] are never [undefined]. *)
Definition isolationOf (sorted : list PlanetPosition.t)
    (planet : PlanetPosition.t) (i : nat) : bool :=
  let n := Z.of_nat (length sorted) in
  let prev := JS.index sorted (Z.rem (Z.of_nat i - 1 + n) n) in
  let next := JS.index sorted (Z.rem (Z.of_nat i + 1) n) in
  if (1 <? n)%Z then
    match prev, next with
    | Some prev, Some next =>
        let dPrev := getDist (PlanetPosition.degree planet)
                             (PlanetPosition.degree prev) in
        let dNext := getDist (PlanetPosition.degree planet)
                             (PlanetPosition.degree next) in
        if JS.lt dPrev 15 || JS.lt dNext 15 then false else true
    | _, _ => true
    end
  else true.

(** One turn of [for (let j = 1; j <= 4; j++)]. *)
Definition lookBack (withTracks : list Tracked.t) (planet : PlanetPosition.t)
    (i : nat) (minDeg : Q) (usedTracks : gset nat) (j : nat) : gset nat :=
  if (0 <=? Z.of_nat i - Z.of_nat j)%Z then
    match withTracks !! (i - j)%nat with
    | Some prevProcessed =>
        if JS.lt (getDist (PlanetPosition.degree planet)
                          (Tracked.degree prevProcessed)) minDeg
        then {[ Tracked.track prevProcessed ]} ∪ usedTracks
        else usedTracks
    | None => usedTracks
    end
  else usedTracks.

Definition usedTracksOf (withTracks : list Tracked.t)
    (planet : PlanetPosition.t) (i : nat) (minDeg : Q) : gset nat :=
  fold_left (lookBack withTracks planet i minDeg) [1; 2; 3; 4]%nat ∅.

(** [while (usedTracks.has(track)) track++], with the number of turns
    left as fuel. *)
Fixpoint firstFree_from (fuel : nat) (usedTracks : gset nat) (track : nat)
  : nat :=
  match fuel with
  | O => track
  | S fuel' =>
      if bool_decide (track ∈ usedTracks)
      then firstFree_from fuel' usedTracks (S track)
      else track
  end.

(** The loop leaves after at most [size usedTracks] turns. *)
Definition firstFree (usedTracks : gset nat) : nat :=
  firstFree_from (size usedTracks) usedTracks 0.

(** The body of [sorted.forEach((planet, i) => ...)] on the array
    [withTracks] built so far. *)
Definition placePlanet (sorted : list PlanetPosition.t) (minDeg : Q)
    (withTracks : list Tracked.t) (ip : nat * PlanetPosition.t)
  : list Tracked.t :=
  let '(i, planet) := ip in
  let isIsolated := isolationOf sorted planet i in
  let usedTracks := usedTracksOf withTracks planet i minDeg in
  let track := firstFree usedTracks in
  withTracks ++ [Tracked.mk planet track isIsolated].

Definition placeAll (sorted : list PlanetPosition.t) (minDeg : Q)
  : list Tracked.t :=
  fold_left (placePlanet sorted minDeg)
    (combine (seq 0 (length sorted)) sorted) [].

(** The wrap-around patch: [first.track = first.track + 1] writes into
    the first element of the array that is returned. *)
Definition wrapAround (withTracks : list Tracked.t) (minDeg : Q)
  : list Tracked.t :=
  if (1 <? length withTracks)%nat then
    match withTracks !! 0%nat, withTracks !! (length withTracks - 1)%nat with
    | Some first, Some last =>
        if JS.lt (getDist (Tracked.degree first) (Tracked.degree last)) minDeg
           && (Tracked.track first =? Tracked.track last)%nat
        then <[ 0%nat := Tracked.setTrack (Tracked.track first + 1) first ]>
               withTracks
        else withTracks
    | _, _ => withTracks
    end
  else withTracks.

Definition resolveCollisions (planets : list PlanetPosition.t) (minDeg : Q)
  : list Tracked.t :=
  let sorted := JS.sort byDegree planets in
  wrapAround (placeAll sorted minDeg) minDeg.

(** [minDeg] defaults to 6. *)
Definition resolveCollisions_default (planets : list PlanetPosition.t)
  : list Tracked.t :=
  resolveCollisions planets 6.

Definition trackAtMost (n : nat) (t : Tracked.t) : Prop :=
  (Tracked.track t <= n)%nat.

(** A planet at a given longitude; the other fields play no part in the
    layout. *)
Definition planetAt (n : string) (deg : Q) : PlanetPosition.t :=
  PlanetPosition.mk n "" "" "" deg 0 1 false.

Definition tracksAndFlags (l : list Tracked.t) : list (Q * nat * bool) :=
  map (fun t => (Tracked.degree t, Tracked.track t, Tracked.isIsolated t)) l.

(** The five-entity layout example. *)
Definition fiveEntities : list PlanetPosition.t :=
  [ planetAt "Sun" 0; planetAt "Moon" 2; planetAt "Mercury" 4;
    planetAt "Venus" 6; planetAt "Mars" 100 ].

(* ================================================================== *)
(** ** The specification's aspect table *)
(* ================================================================== *)

(** Written from the specification, to be compared with the chain of
    conditionals of [calculateAspects]: the bands (name, exact angle, orb)
    in priority order. *)
Definition spec_bands : list (string * Q * Q) :=
  [ ("Conjunction", 0, 6); ("Sextile", 60, 42 # 10); ("Square", 90, 6);
    ("Trine", 120, 6); ("Opposition", 180, 6) ]%string.

Definition spec_separation (a b : Q) : Q :=
  Qmin (Qabs (JS.sub a b)) (JS.sub 360 (Qabs (JS.sub a b))).

(** The first band the separation falls in, with the orb to record. *)
Fixpoint spec_firstMatch (bands : list (string * Q * Q)) (sep : Q)
  : option (string * Q) :=
  match bands with
  | [] => None
  | (type, exact, orb) :: bands' =>
      if Qle_bool (Qabs (sep - exact)) orb
      then Some (type, Qabs (sep - exact))
      else spec_firstMatch bands' sep
  end.

Definition spec_pair (planetA planetB : PlanetPosition.t)
  : list SynastryAspect.t :=
  match spec_firstMatch spec_bands
          (spec_separation (PlanetPosition.degree planetA)
                           (PlanetPosition.degree planetB)) with
  | Some (type, orb) =>
      [ SynastryAspect.mk (PlanetPosition.name planetA)
          (PlanetPosition.name planetB) type "" orb ]
  | None => []
  end.

(* ================================================================== *)
(** ** Binary64 values of the code's constant expressions *)
(* ================================================================== *)

(** The exact value of a finite binary64 number. *)
Definition Q_of_float (x : float) : option Q :=
  match Prim2SF x with
  | SpecFloat.S754_zero _ => Some 0
  | SpecFloat.S754_finite s m e =>
      let v := if (0 <=? e)%Z then inject_Z (Zpos m * 2 ^ e)
               else Zpos m # Pos.pow 2 (Z.to_pos (- e)) in
      Some (if s then - v else v)
  | _ => None
  end.

(** The value of a binary64 literal. *)
Definition double (x : float) : Q := default 0 (Q_of_float x).

(** Does the rounded operation on rationals give the result of the
    primitive binary64 operation on a pair of numbers? *)
Definition agrees (op : float -> float -> float) (qop : Q -> Q -> Q)
    (xy : float * float) : bool :=
  match Q_of_float (op xy.1 xy.2) with
  | Some c => Qeq_bool (qop (double xy.1) (double xy.2)) c
  | None => false
  end.

(** Pairs of numbers to compare the two roundings on: longitudes a
    rounding step away from a sign, an orb or a threshold, and numbers of
    very different magnitudes. *)
Definition binary64_samples : list (float * float) :=
  [ (-0x1.999999999999ap-3, 360); (354, 0x1.79ca10c924223p-67);
    (180, 0x1.79ca10c924223p-67); (0x1.dffffffffffffp+4, 360);
    (0x1.bea5d50ecfeeap+7, 360);
    (0x1.8000000000001p+6, 0x1.6849b86a12b9bp-47);
    (355, 0x1.fffffffffffffp-1); (15, 0x1.79ca10c924223p-67);
    (6, 0x1.79ca10c924223p-67);
    (0x1.999999999999ap-4, 0x1.999999999999ap-3);
    (0x1.a666666666666p+1, -0x1.ecccccccccccdp+2);
    (-0x1.67ccccccccccdp+8, 0x1.3333333333333p-2);
    (0x1.d6f3454f7ced9p+26, 0x1.4b66dc033f6a1p-20);
    (1, 3); (2, 3); (-1, 3); (0x1.921fb54442d18p+1, 180);
    (0x1.7705f6e5b9d2ap+4, 0x1.921fb54442d18p+1);
    (0x1p-500, 0x1.8p-499); (0x1.fffffffffffffp+500, 0x1p+448);
    (-0x1.4856f32138c00p+3, -0x1.8a2a70d765ccep+7);
    (0x1.57025cf484c76p+8, -0x1.19c4d0c220c2cp+8);
    (0x1.b58150276a44cp+7, 0x1.178d5fbd693a8p+5);
    (-0x1.295c751030a0bp+8, 0x1.780fa9bbf7f04p+7);
    (-0x1.3f81334a65a9fp+8, 0x1.b1596f39d01e4p+6);
    (-0x1.1c8e5f5b82afep+8, -0x1.0607aa839bceap+8);
    (0x1.89ec42fbeb6f4p+6, 0x1.0a8009a7ab0a3p+9);
    (-0x1.c49677b23046ep+7, -0x1.db9b907376466p+6);
    (0x1.3da0bcc1b45f6p+8, 0x1.4bc348c1acf9ep+9);
    (0x1.07456c590c4fap+8, 0x1.11a8dedac739cp+6);
    (0x1.5b2d817bec4b4p+9, -0x1.35b0d209d9a96p+8);
    (0x1.1b92ae05fd42cp+9, -0x1.79c6989b54700p+5);
    (-0x1.9868b58803cadp+7, -0x1.d1919aa1da722p+7);
    (-0x1.ad6f1fd5d8240p+4, 0x1.04b54ed18901bp+9);
    (-0x1.49a18a7c2cca4p+7, 0x1.0c20d0311cd2cp+8);
    (0x1.4a06cbbf5cd2ap+8, 0x1.5183c7e9399b0p+5);
    (0x1.cf20c79e45188p+7, -0x1.24301aaccf6e9p+8);
    (-0x1.27a177f16f076p+8, -0x1.132111f5f7d4cp+7);
    (0x1.76d4fc0dc8406p+8, 0x1.9732e1f7b41b0p+6);
    (-0x1.4b8972024ccb0p+4, 0x1.106824deaa226p+8);
    (0x1.02e0d52fa0928p+7, -0x1.22035d9bb3058p+5);
    (0x1.f1ee09ff44bd2p+8, 0x1.8ae9fb2546e96p+8);
    (-0x1.8180c96fcc5d8p+6, 0x1.0460aadb889c0p+8);
    (0x1.9e6ca8a3ae714p+7, 0x1.249301e42f428p+9);
    (0x1.abcd089b97b5ap+8, -0x1.8837bbee53038p+5);
    (0x1.5d4b5ef470e94p+9, -0x1.d0fa58e5c7342p+7);
    (0x1.6e4a641d145c4p+6, 0x1.c9b652ff2d72cp+8);
    (-0x1.87b6a1b8045d2p+7, 0x1.50290939dbca4p+7);
    (-0x1.3da7fa42209efp+8, 0x1.69ac51ec7a904p+8);
    (0x1.d1bc8d9757190p+8, 0x1.02de364387182p+8);
    (0x1.807d4168bfcd6p-21, -0x1.476ded4e011f8p-18);
    (0x1.8289fcfe4c288p+11, 0x1.3004733a64efap-53);
    (0x1.5c20838bfaf40p+59, -0x1.d72a1386a17e0p+27);
    (0x1.502f0810a3d68p-55, 0x1.d96a10b394fb0p-23);
    (0x1.2d51e493f4488p+25, 0x1.49a6a6b90ac1ap-25);
    (0x1.bba75a62c33a4p+51, 0x1.59669858d5560p-60);
    (0x1.c33960bb18d4cp-16, -0x1.53eb2031cd638p-47);
    (-0x1.9d55fe1d0ba00p-40, 0x1.12abab24ca91cp-45);
    (0x1.e82b0f3f63af8p-12, -0x1.beab862a97108p+48);
    (-0x1.c9dfbad7c1900p-47, -0x1.a041be64b75f0p+6) ]%float.

(** [Math.round((count / 10) * 100)] with the division and the product
    rounded to binary64. *)
Definition binary64_percentage (count : Z) : option Z :=
  JS.Math_round <$>
    Q_of_float (PrimFloat.of_uint63 (Uint63.of_Z count) / 10 * 100)%float.

(** [ORB * 0.7] in binary64; the literal [0.7] is [0x1.6666666666666p-1]. *)
Definition binary64_sextile_orb : option Q :=
  Q_of_float (6 * 0x1.6666666666666p-1)%float.

(* ================================================================== *)
(** ** Stand-ins for the libraries, to run the service *)
(* ================================================================== *)

(** Coarse rational stand-ins for [Math]: low-order series, enough to
    evaluate the service on concrete inputs. *)
Definition sampleMath : MathLib :=
  {| Math_PI := 355 # 113;
     Math_cos := fun x => 1 - x * x / 2;
     Math_sin := fun x => x - x * x * x / 6;
     Math_tan := fun x => (x - x * x * x / 6) / (1 - x * x / 2);
     Math_atan2 := fun y x => y / (1 + Qabs x + Qabs y) |}.

(** A toy engine: the observer is accepted for latitudes in [-90, 90],
    as the astronomy-engine package does; sidereal time and longitudes
    are uniform motions. *)
Definition sampleRate (bodyName : string) : Q :=
  if String.eqb bodyName "Sun" then 1 # 24
  else if String.eqb bodyName "Moon" then 13 # 24
  else if String.eqb bodyName "Saturn" then - (1 # 240)
  else 1 # 100.

Definition sampleEngine : AstronomyEngine :=
  {| AstroTime := Z;
     Vector := string * Z;
     Astronomy_Observer := fun lat lon height =>
       if JS.lt lat (-90) || JS.gt lat 90
       then JS.Throw (JS.Thrown "Latitude is out of range. Must be -90..+90.")
       else JS.Return tt;
     Astronomy_SiderealTime := fun date =>
       JS.Return (JS.rem (inject_Z date / 3600000) 24);
     Astronomy_MakeTime := fun date => JS.Return date;
     Astronomy_GeoVector := fun bodyName time aberration =>
       JS.Return (bodyName, time);
     Astronomy_Ecliptic_elon := fun vec =>
       JS.Return
         (100 + sampleRate (fst vec) * (inject_Z (snd vec) / 3600000)) |}.

Definition countsSum (c : Counts.t) : Z :=
  (Counts.fire c + Counts.earth c + Counts.air c + Counts.water c)%Z.

Definition countsLe (c c' : Counts.t) : Prop :=
  (Counts.fire c <= Counts.fire c' /\ Counts.earth c <= Counts.earth c' /\
   Counts.air c <= Counts.air c' /\ Counts.water c <= Counts.water c')%Z.

(** A comparator that subtracts a numeric key, as both sorts of the code
    use, and the order it sorts into. *)
Definition cmpBy {A : Type} (key : A -> Q) (a b : A) : Q := key a - key b.

Definition keyOrder {A : Type} (key : A -> Q) (a b : A) : Prop :=
  key a <= key b.

(** The aspects of a list with a given orb, in the order of the list. *)
Definition sameOrb (q : Q) (a : SynastryAspect.t) : bool :=
  Qeq_bool (SynastryAspect.orb a) q.

Definition orbLe (a b : SynastryAspect.t) : Prop :=
  SynastryAspect.orb a <= SynastryAspect.orb b.

(** A planet whose [sign] is the name of one of the twelve signs, as
    every planet built by [calculateChart] is. *)
Definition hasZodiacSign (p : PlanetPosition.t) : bool :=
  existsb (fun z => String.eqb (ZodiacSign.name z) (PlanetPosition.sign p))
    ZODIAC_SIGNS.

Definition planetIn (n signName : string) : PlanetPosition.t :=
  PlanetPosition.mk n "" signName "" 0 0 1 false.

(** Ten bodies: four in fire signs, three in earth, two in air, one in
    water. *)
Definition tenBodies : list PlanetPosition.t :=
  [ planetIn "Sun" "Aries"; planetIn "Moon" "Leo";
    planetIn "Mercury" "Aries"; planetIn "Venus" "Taurus";
    planetIn "Mars" "Sagittarius"; planetIn "Jupiter" "Virgo";
    planetIn "Saturn" "Capricorn"; planetIn "Uranus" "Gemini";
    planetIn "Neptune" "Aquarius"; planetIn "Pluto" "Scorpio" ].

(* ================================================================== *)
(** ** geminiService: merging the interpretations *)
(* ================================================================== *)

(** A planet with the [interpretation] the enrichment adds. *)
Module ChartPlanet.
Record t : Type := mk {
  position : PlanetPosition.t;
  interpretation : string
}.
End ChartPlanet.

Module ChartData.
Record t : Type := mk {
  name : string;
  planets : list ChartPlanet.t;
  rising : Rising.t;
  elements : ElementalBalance.t;
  summary : string;
  bigThree : BigThree.t
}.
End ChartData.

(** What [InterpretationSchema] lets through. *)
Module PlanetInterpretation.
Record t : Type := mk {
  name : string;
  interpretation : string
}.
End PlanetInterpretation.

Module Interpretation.
Record t : Type := mk {
  planets : list PlanetInterpretation.t;
  summary : string
}.
End Interpretation.

(** [validated.planets.find(ip => ip.name === p.name)?.interpretation
    || "A mysterious placement."]: the default also replaces an empty
    text. *)
Definition interpretationFor (validatedPlanets : list PlanetInterpretation.t)
    (p : PlanetPosition.t) : string :=
  match List.find
          (fun ip => String.eqb (PlanetInterpretation.name ip)
                       (PlanetPosition.name p))
          validatedPlanets with
  | Some ip =>
      if String.eqb (PlanetInterpretation.interpretation ip) ""
      then "A mysterious placement."
      else PlanetInterpretation.interpretation ip
  | None => "A mysterious placement."
  end.

(** [enrichChart] from the point where the model's answer has been parsed
    and validated (or one of these steps has thrown). *)
Definition enrichChart (chart : CalculatedChart.t) (name : string)
    (response : JS.Result Interpretation.t) : JS.Result ChartData.t :=
  let! validated := response in
  let mergedPlanets :=
    map (fun p =>
           ChartPlanet.mk p
             (interpretationFor (Interpretation.planets validated) p))
      (CalculatedChart.planets chart) in
  JS.Return
    {| ChartData.name := name;
       ChartData.planets := mergedPlanets;
       ChartData.rising := CalculatedChart.rising chart;
       ChartData.elements := CalculatedChart.elements chart;
       ChartData.summary := Interpretation.summary validated;
       ChartData.bigThree := CalculatedChart.bigThree chart |}.

(** What [SynastryAnalysisSchema] lets through for one key aspect. *)
Module KeyAspect.
Record t : Type := mk {
  planetA : string;
  planetB : string;
  aspectType : string;
  description : string
}.
End KeyAspect.

(** The [keyAspects] of [analyzeSynastry]: the orb of the calculated
    aspect with the same planets and type, or 0. *)
Definition keyAspectOf (aspects : list SynastryAspect.t) (ka : KeyAspect.t)
  : SynastryAspect.t :=
  let original :=
    List.find
      (fun a =>
         String.eqb (SynastryAspect.planetA a) (KeyAspect.planetA ka)
         && String.eqb (SynastryAspect.planetB a) (KeyAspect.planetB ka)
         && String.eqb (SynastryAspect.aspectType a) (KeyAspect.aspectType ka))
      aspects in
  {| SynastryAspect.planetA := KeyAspect.planetA ka;
     SynastryAspect.planetB := KeyAspect.planetB ka;
     SynastryAspect.aspectType := KeyAspect.aspectType ka;
     SynastryAspect.description := KeyAspect.description ka;
     SynastryAspect.orb :=
       match original with
       | Some original => SynastryAspect.orb original
       | None => 0
       end |}.

Definition keyAspects (aspects : list SynastryAspect.t)
    (analysisKeyAspects : list KeyAspect.t) : list SynastryAspect.t :=
  map (keyAspectOf aspects) analysisKeyAspects.

(* ================================================================== *)
(** ** AnalysisPanel: getNormalizedElements *)
(* ================================================================== *)

Definition getNormalizedElements (elements : ElementalBalance.t)
  : ElementalBalance.t :=
  let f := ElementalBalance.fire elements in
  let e := ElementalBalance.earth elements in
  let a := ElementalBalance.air elements in
  let w := ElementalBalance.water elements in
  let total := (f + e + a + w)%Z in
  if (total =? 0)%Z then ElementalBalance.mk 0 0 0 0
  else if (20 <? total)%Z then ElementalBalance.mk f e a w
  else ElementalBalance.mk (percentage f total) (percentage e total)
         (percentage a total) (percentage w total).

(** The planet the natal view shows: the selected one, or the Sun; the
    panel renders nothing when there is neither. *)
Definition displayPlanet (selectedPlanet : option ChartPlanet.t)
    (natal : ChartData.t) : option ChartPlanet.t :=
  match selectedPlanet with
  | Some planet => Some planet
  | None =>
      List.find
        (fun p => String.eqb (PlanetPosition.name (ChartPlanet.position p))
                    "Sun")
        (ChartData.planets natal)
  end.

(* ================================================================== *)
(** ** ZodiacWheel: placing the planets and drawing the aspects *)
(* ================================================================== *)

Inductive Owner : Type := OwnerA | OwnerB.

Definition Owner_eqb (a b : Owner) : bool :=
  match a, b with
  | OwnerA, OwnerA | OwnerB, OwnerB => true
  | _, _ => false
  end.

Definition Owner_text (o : Owner) : string :=
  match o with OwnerA => "A" | OwnerB => "B" end.

Definition radius : Q := 300.
Definition center : Q := radius + 50.
Definition trackSpacing : Q := 18.

(** A resolved planet with its place on the wheel. *)
Module Plotted.
Record t : Type := mk {
  tracked : Tracked.t;
  x : Q;
  y : Q;
  r : Q;
  owner : Owner
}.
Definition name (p : t) : string :=
  PlanetPosition.name (Tracked.planet (tracked p)).
Definition degree (p : t) : Q := Tracked.degree (tracked p).
Definition track (p : t) : nat := Tracked.track (tracked p).
End Plotted.

(** The hovered or selected planet. *)
Module Active.
Record t : Type := mk {
  planet : PlanetPosition.t;
  owner : Owner
}.
End Active.

Section Wheel.
Context {M : MathLib}.

(** The wheel is turned so that the rising degree is at 9 o'clock, plus
    the manual offset. *)
Definition rotationOffset (risingDegree manualOffset : Q) : Q :=
  (180 - risingDegree) + manualOffset.

Definition getCoordinates (rotationOffset degree r : Q) : Q * Q :=
  let adjustedDegree := degree + rotationOffset in
  let rad := (adjustedDegree * Math_PI) / 180 in
  (center + r * Math_cos rad, center - r * Math_sin rad).

(** Person A starts inside the ring and stacks inward. *)
Definition plottedPlanetsA (planets : list PlanetPosition.t)
    (rotationOffset : Q) : list Plotted.t :=
  let resolved := resolveCollisions_default planets in
  let baseR := radius * (82 # 100) in
  map (fun p =>
         let r := baseR
                  - inject_Z (Z.of_nat (Tracked.track p)) * trackSpacing in
         let coords := getCoordinates rotationOffset (Tracked.degree p) r in
         Plotted.mk p (fst coords) (snd coords) r OwnerA)
    resolved.

(** Person B starts from the centre and stacks outward; without a second
    chart there is nothing to plot. *)
Definition plottedPlanetsB (secondaryPlanets : option (list PlanetPosition.t))
    (rotationOffset : Q) : list Plotted.t :=
  match secondaryPlanets with
  | None => []
  | Some planets =>
      let resolved := resolveCollisions_default planets in
      let baseR := radius * (45 # 100) in
      map (fun p =>
             let r := baseR
                      + inject_Z (Z.of_nat (Tracked.track p)) * trackSpacing in
             let coords := getCoordinates rotationOffset (Tracked.degree p) r in
             Plotted.mk p (fst coords) (snd coords) r OwnerB)
        resolved
  end.

End Wheel.

(** [Math.max(...tracks, 0)] *)
Definition maxTrack (plotted : list Plotted.t) : nat :=
  fold_right Nat.max 0%nat (map Plotted.track plotted).

(** The radii of the concentric circles of [tracks]: one for each track
    from 0 to the highest in use, for A and then for B. *)
Definition trackCircles (plottedPlanetsA plottedPlanetsB : list Plotted.t)
  : list Q :=
  let baseRA := radius * (82 # 100) in
  let baseRB := radius * (45 # 100) in
  map (fun i => baseRA - inject_Z (Z.of_nat i) * trackSpacing)
    (seq 0 (maxTrack plottedPlanetsA + 1))
  ++ map (fun i => baseRB + inject_Z (Z.of_nat i) * trackSpacing)
       (seq 0 (maxTrack plottedPlanetsB + 1)).

(** The chain of conditionals of [aspectLines]. *)
Definition lineTypeOf (normDiff : Q) (secondaryData : bool) : string :=
  if JS.lt (JS.Math_abs (normDiff - 180)) 6 then "opposition"
  else if JS.lt (JS.Math_abs (normDiff - 120)) 6 then "trine"
  else if JS.lt (JS.Math_abs (normDiff - 90)) 6 then "square"
  else if JS.lt (JS.Math_abs (normDiff - 60)) 4 then "sextile"
  else if JS.lt (JS.Math_abs (normDiff - 0)) 6 && secondaryData
       then "conjunction"
  else "".

Definition isActivePlanet (active : option Active.t) (p : Plotted.t) : bool :=
  match active with
  | Some active =>
      String.eqb (Plotted.name p) (PlanetPosition.name (Active.planet active))
      && Owner_eqb (Plotted.owner p) (Active.owner active)
  | None => false
  end.

(** The attributes of a drawn [<line>]. *)
Module Line.
Record t : Type := mk {
  key : string;
  x1 : Q;
  y1 : Q;
  x2 : Q;
  y2 : Q;
  stroke : string;
  strokeWidth : Q;
  strokeDasharray : string;
  opacity : Q
}.
End Line.

(** A pair for which a line is pushed, with its positions in the two
    sets and the type found. *)
Module LinePair.
Record t : Type := mk {
  i : nat;
  j : nat;
  p1 : Plotted.t;
  p2 : Plotted.t;
  type : string
}.
End LinePair.

(** The body of the inner [forEach] up to [if (!type) return]. *)
Definition linePairOf (secondaryData : bool) (active : option Active.t)
    (ip1 jp2 : nat * Plotted.t) : list LinePair.t :=
  let '(i, p1) := ip1 in
  let '(j, p2) := jp2 in
  if negb secondaryData && (j <=? i)%nat then []
  else if match active with
          | Some _ =>
              negb (isActivePlanet active p1)
              && negb (isActivePlanet active p2)
          | None => false
          end then []
  else
    let diff := JS.Math_abs (JS.sub (Plotted.degree p1) (Plotted.degree p2)) in
    let normDiff := if JS.gt diff 180 then JS.sub 360 diff else diff in
    let type := lineTypeOf normDiff secondaryData in
    if String.eqb type "" then []
    else [LinePair.mk i j p1 p2 type].

Definition indexed {A : Type} (l : list A) : list (nat * A) :=
  combine (seq 0 (length l)) l.

Definition linePairs (plottedPlanetsA plottedPlanetsB : list Plotted.t)
    (secondaryData : bool) (active : option Active.t) : list LinePair.t :=
  let set1 := plottedPlanetsA in
  let set2 := if secondaryData then plottedPlanetsB else plottedPlanetsA in
  flat_map (fun ip1 =>
    flat_map (fun jp2 => linePairOf secondaryData active ip1 jp2)
      (indexed set2))
    (indexed set1).

(** The [<line>] pushed for a pair. *)
Definition lineOf (active : option Active.t) (lp : LinePair.t) : Line.t :=
  let p1 := LinePair.p1 lp in
  let p2 := LinePair.p2 lp in
  let type := LinePair.type lp in
  let isActive :=
    match active with
    | Some _ => isActivePlanet active p1 || isActivePlanet active p2
    | None => false
    end in
  {| Line.key :=
       Plotted.name p1 +:+ "-" +:+ Owner_text (Plotted.owner p1) +:+ "-"
       +:+ Plotted.name p2 +:+ "-" +:+ Owner_text (Plotted.owner p2);
     Line.x1 := Plotted.x p1;
     Line.y1 := Plotted.y p1;
     Line.x2 := Plotted.x p2;
     Line.y2 := Plotted.y p2;
     Line.stroke := if isActive then "#D4C5A5" else "#333";
     Line.strokeWidth := if isActive then 1 else 1 # 2;
     Line.strokeDasharray :=
       if String.eqb type "opposition" || String.eqb type "square"
       then "0" else "2 2";
     Line.opacity :=
       if isActive then 1
       else match active with Some _ => 0 | None => 3 # 10 end |}.

Definition aspectLines (plottedPlanetsA plottedPlanetsB : list Plotted.t)
    (secondaryData : bool) (active : option Active.t) : list Line.t :=
  map (lineOf active)
    (linePairs plottedPlanetsA plottedPlanetsB secondaryData active).

(** A planet whose longitude is in [0, 360). *)
Definition inCircle (p : PlanetPosition.t) : Prop :=
  0 <= PlanetPosition.degree p /\ PlanetPosition.degree p < 360.

(** The engine answers for a body at an instant and one hour later, with
    longitudes [L0] and [L1]. *)
Definition bodyObserved {E : AstronomyEngine} (date : Date)
    (bodyName : string) (L0 L1 : Q) : Prop :=
  exists (time timeNext : AstroTime) (vec vecNext : Vector),
    Astronomy_MakeTime date = JS.Return time /\
    Astronomy_GeoVector bodyName time true = JS.Return vec /\
    Astronomy_Ecliptic_elon vec = JS.Return L0 /\
    Astronomy_MakeTime (date + 3600000)%Z = JS.Return timeNext /\
    Astronomy_GeoVector bodyName timeNext true = JS.Return vecNext /\
    Astronomy_Ecliptic_elon vecNext = JS.Return L1.

(* ================================================================== *)
(** ** Facts about the JavaScript operations *)
(* ================================================================== *)

Lemma Qfloor_unique (x : Q) (k : Z) :
  inject_Z k <= x -> x < inject_Z (k + 1) -> Qfloor x = k.
Proof.
  intros Hlo Hhi.
  pose proof (Qfloor_le x) as Hf. pose proof (Qlt_floor x) as Hg.
  assert (inject_Z k < inject_Z (Qfloor x + 1)) as H1
    by (eapply Qle_lt_trans; eauto).
  assert (inject_Z (Qfloor x) < inject_Z (k + 1)) as H2
    by (eapply Qle_lt_trans; eauto).
  rewrite <- Zlt_Qlt in H1, H2. lia.
Qed.

Lemma trunc_nonneg (x : Q) : 0 <= x -> JS.trunc x = Qfloor x.
Proof.
  intros H. unfold JS.trunc.
  destruct (Qle_bool 0 x) eqn:Hb; [reflexivity|].
  apply Qle_bool_iff in H. congruence.
Qed.

Lemma lt_iff (a b : Q) : JS.lt a b = true <-> a < b.
Proof.
  unfold JS.lt. rewrite negb_true_iff.
  destruct (Qle_bool b a) eqn:Hb.
  - apply Qle_bool_iff in Hb. split; [discriminate | lra].
  - split; [intros _ | reflexivity].
    apply Qnot_le_lt. intros Hle. apply Qle_bool_iff in Hle. congruence.
Qed.

Lemma le_iff (a b : Q) : JS.le a b = true <-> a <= b.
Proof. apply Qle_bool_iff. Qed.

Lemma gt_iff (a b : Q) : JS.gt a b = true <-> b < a.
Proof. apply lt_iff. Qed.

(** *** Binary64 rounding *)

Lemma pow2_pos e : 0 < JS.pow2 e.
Proof. apply Qpower_0_lt. reflexivity. Qed.

Lemma pow2_add a b : JS.pow2 (a + b) == JS.pow2 a * JS.pow2 b.
Proof. apply Qpower_plus. discriminate. Qed.

Lemma pow2_le a b : (a <= b)%Z -> JS.pow2 a <= JS.pow2 b.
Proof. intros H. apply Qpower_le_compat_l; [exact H | discriminate]. Qed.

Lemma pow2_lt a b : (a < b)%Z -> JS.pow2 a < JS.pow2 b.
Proof. intros H. apply Qpower_lt_compat_l; [exact H | reflexivity]. Qed.

Lemma pow2_lt_inv a b : JS.pow2 a < JS.pow2 b -> (a < b)%Z.
Proof. intros H. apply (Qpower_lt_compat_l_inv 2); [exact H | reflexivity]. Qed.

Lemma pow2_Z (n : Z) : (0 <= n)%Z -> inject_Z (2 ^ n) == JS.pow2 n.
Proof. intros H. apply (Zpower_Qpower 2 n H). Qed.

Lemma pow2_succ a : JS.pow2 (a + 1) == 2 * JS.pow2 a.
Proof. rewrite pow2_add. change (JS.pow2 1) with 2. ring. Qed.

Lemma pow2_pred a : JS.pow2 (a - 1) == JS.pow2 a / 2.
Proof.
  replace a with ((a - 1) + 1)%Z at 2 by ring. rewrite pow2_succ.
  field.
Qed.

Lemma Qnum_pos (a : Q) : 0 < a <-> (0 < Qnum a)%Z.
Proof.
  destruct a as [n d]. unfold Qlt. simpl. rewrite Z.mul_1_r. reflexivity.
Qed.

Lemma ilog2_rough (a : Q) :
  0 < a ->
  let p := JS.pow2 (Z.log2 (Qnum a) - Z.log2 (Zpos (Qden a))) in
  p < 2 * a /\ a < 2 * p.
Proof.
  intros Ha p.
  assert (Hn : (0 < Qnum a)%Z) by (apply Qnum_pos; exact Ha).
  destruct (Z.log2_spec _ Hn) as [Hn1 Hn2].
  destruct (Z.log2_spec (Zpos (Qden a)) (Pos2Z.is_pos _)) as [Hd1 Hd2].
  pose proof (Z.log2_nonneg (Qnum a)) as Hln.
  pose proof (Z.log2_nonneg (Zpos (Qden a))) as Hld.
  set (ln := Z.log2 (Qnum a)) in *. set (ld := Z.log2 (Zpos (Qden a))) in *.
  assert (HA : JS.pow2 ln <= inject_Z (Qnum a)).
  { rewrite <- pow2_Z by exact Hln. rewrite <- Zle_Qle. exact Hn1. }
  assert (HA' : inject_Z (Qnum a) < 2 * JS.pow2 ln).
  { rewrite <- pow2_succ. rewrite <- pow2_Z by lia. rewrite <- Zlt_Qlt.
    exact Hn2. }
  assert (HB : JS.pow2 ld <= inject_Z (Zpos (Qden a))).
  { rewrite <- pow2_Z by exact Hld. rewrite <- Zle_Qle. exact Hd1. }
  assert (HB' : inject_Z (Zpos (Qden a)) < 2 * JS.pow2 ld).
  { rewrite <- pow2_succ. rewrite <- pow2_Z by lia. rewrite <- Zlt_Qlt.
    exact Hd2. }
  assert (Hp : p * JS.pow2 ld == JS.pow2 ln).
  { unfold p. rewrite <- pow2_add. replace (ln - ld + ld)%Z with ln by ring.
    reflexivity. }
  assert (Hx : a * inject_Z (Zpos (Qden a)) == inject_Z (Qnum a)).
  { destruct a as [n d]. simpl. rewrite Qmult_inject_Z_r.
    apply Qreduce_den_inject_Z_r. }
  pose proof (pow2_pos ln) as HlnP. pose proof (pow2_pos ld) as HldP.
  assert (HpP : 0 < p) by apply pow2_pos.
  generalize dependent (inject_Z (Zpos (Qden a))).
  generalize dependent (inject_Z (Qnum a)).
  generalize dependent (JS.pow2 ln). generalize dependent (JS.pow2 ld).
  generalize dependent p. clear. intros p HpP B BP A Hp AP N HA HA' D HB HB' Hx.
  split; nra.
Qed.

Lemma ilog2_spec (a : Q) :
  0 < a -> JS.pow2 (JS.ilog2 a) <= a /\ a < JS.pow2 (JS.ilog2 a + 1).
Proof.
  intros Ha. destruct (ilog2_rough a Ha) as [H1 H2].
  unfold JS.ilog2.
  set (e0 := (Z.log2 (Qnum a) - Z.log2 (Zpos (Qden a)))%Z) in *.
  destruct (Qle_bool (JS.pow2 e0) a) eqn:Hb.
  - apply Qle_bool_iff in Hb. split; [exact Hb |].
    rewrite pow2_succ. exact H2.
  - assert (Hlt : a < JS.pow2 e0).
    { apply Qnot_le_lt. intros Hc. apply Qle_bool_iff in Hc. congruence. }
    replace (e0 - 1 + 1)%Z with e0 by ring. split; [| exact Hlt].
    rewrite pow2_pred. apply Qlt_le_weak.
    apply Qlt_shift_div_r; [reflexivity |]. lra.
Qed.

Lemma ilog2_unique (a : Q) (e : Z) :
  JS.pow2 e <= a -> a < JS.pow2 (e + 1) -> JS.ilog2 a = e.
Proof.
  intros H1 H2.
  assert (Ha : 0 < a) by (eapply Qlt_le_trans; [apply pow2_pos | exact H1]).
  destruct (ilog2_spec a Ha) as [H3 H4].
  assert (JS.ilog2 a < e + 1)%Z.
  { apply pow2_lt_inv. eapply Qle_lt_trans; eassumption. }
  assert (e < JS.ilog2 a + 1)%Z.
  { apply pow2_lt_inv. eapply Qle_lt_trans; eassumption. }
  lia.
Qed.

Lemma ilog2_comp (a b : Q) : 0 < a -> a == b -> JS.ilog2 a = JS.ilog2 b.
Proof.
  intros Ha Hab. symmetry. destruct (ilog2_spec a Ha) as [H1 H2].
  apply ilog2_unique; rewrite <- Hab; assumption.
Qed.

Lemma ilog2_le (a b : Q) : 0 < a -> a <= b -> (JS.ilog2 a <= JS.ilog2 b)%Z.
Proof.
  intros Ha Hab.
  assert (Hb : 0 < b) by (eapply Qlt_le_trans; eassumption).
  destruct (ilog2_spec a Ha) as [H1 _]. destruct (ilog2_spec b Hb) as [_ H2].
  assert (JS.ilog2 a < JS.ilog2 b + 1)%Z; [| lia].
  apply pow2_lt_inv. eapply Qle_lt_trans; [exact H1 |].
  eapply Qle_lt_trans; eassumption.
Qed.

(** [nearest_even] fixes the integers and is monotone. *)

Lemma nearest_even_Z (z : Z) : JS.nearest_even (inject_Z z) = z.
Proof.
  unfold JS.nearest_even. rewrite Qfloor_Z.
  assert (H : inject_Z z - inject_Z z < 1 # 2) by (ring_simplify; reflexivity).
  destruct (Qcompare_spec (inject_Z z - inject_Z z) (1 # 2)) as [E | E | E];
    [| reflexivity |]; exfalso; lra.
Qed.

Lemma nearest_even_comp (p q : Q) :
  p == q -> JS.nearest_even p = JS.nearest_even q.
Proof.
  intros H. unfold JS.nearest_even. rewrite (Qfloor_comp _ _ H).
  assert (E : p - inject_Z (Qfloor q) == q - inject_Z (Qfloor q))
    by (rewrite H; reflexivity).
  rewrite (Qcompare_comp _ _ E _ _ (Qeq_refl _)). reflexivity.
Qed.

Lemma nearest_even_bounds (q : Q) :
  (Qfloor q <= JS.nearest_even q <= Qfloor q + 1)%Z.
Proof.
  unfold JS.nearest_even.
  destruct (Qcompare _ _); [destruct (Z.even _) | |]; lia.
Qed.

Lemma nearest_even_mono (p q : Q) :
  p <= q -> (JS.nearest_even p <= JS.nearest_even q)%Z.
Proof.
  intros H. pose proof (Qfloor_resp_le _ _ H) as Hf.
  destruct (Z.eq_dec (Qfloor p) (Qfloor q)) as [E | NE].
  - unfold JS.nearest_even. rewrite E.
    assert (Hd : p - inject_Z (Qfloor q) <= q - inject_Z (Qfloor q)) by lra.
    destruct (Qcompare_spec (p - inject_Z (Qfloor q)) (1 # 2));
      destruct (Qcompare_spec (q - inject_Z (Qfloor q)) (1 # 2));
      try destruct (Z.even (Qfloor q)); try lia; exfalso; lra.
  - pose proof (nearest_even_bounds p). pose proof (nearest_even_bounds q).
    lia.
Qed.

(** The rounding of a positive number stays in its binade. *)

Lemma scaled_bounds (a : Q) :
  0 < a ->
  inject_Z (2 ^ 52) <= a / JS.pow2 (JS.ilog2 a - 52) /\
  a / JS.pow2 (JS.ilog2 a - 52) < inject_Z (2 ^ 53).
Proof.
  intros Ha. destruct (ilog2_spec a Ha) as [H1 H2].
  set (e := JS.ilog2 a) in *.
  pose proof (pow2_pos (e - 52)) as Hu.
  assert (E1 : JS.pow2 e == inject_Z (2 ^ 52) * JS.pow2 (e - 52)).
  { rewrite pow2_Z by lia. rewrite <- pow2_add.
    replace (52 + (e - 52))%Z with e by ring. reflexivity. }
  assert (E2 : JS.pow2 (e + 1) == inject_Z (2 ^ 53) * JS.pow2 (e - 52)).
  { rewrite pow2_Z by lia. rewrite <- pow2_add.
    replace (53 + (e - 52))%Z with (e + 1)%Z by ring. reflexivity. }
  split.
  - apply Qle_shift_div_l; [exact Hu |]. rewrite <- E1. exact H1.
  - apply Qlt_shift_div_r; [exact Hu |]. rewrite <- E2. exact H2.
Qed.

Lemma binary64_pos_bounds (a : Q) :
  0 < a ->
  JS.pow2 (JS.ilog2 a) <= JS.binary64_pos a /\
  JS.binary64_pos a <= JS.pow2 (JS.ilog2 a + 1).
Proof.
  intros Ha. destruct (scaled_bounds a Ha) as [H1 H2].
  unfold JS.binary64_pos. rewrite !Qred_correct. set (e := JS.ilog2 a) in *.
  set (u := JS.pow2 (e - 52)) in *.
  assert (Hu : 0 < u) by apply pow2_pos.
  assert (E1 : JS.pow2 e == inject_Z (2 ^ 52) * u).
  { unfold u. rewrite pow2_Z by lia. rewrite <- pow2_add.
    replace (52 + (e - 52))%Z with e by ring. reflexivity. }
  assert (E2 : JS.pow2 (e + 1) == inject_Z (2 ^ 53) * u).
  { unfold u. rewrite pow2_Z by lia. rewrite <- pow2_add.
    replace (53 + (e - 52))%Z with (e + 1)%Z by ring. reflexivity. }
  pose proof (nearest_even_mono _ _ H1) as M1.
  pose proof (nearest_even_mono _ _ (Qlt_le_weak _ _ H2)) as M2.
  rewrite nearest_even_Z in M1, M2.
  rewrite Zle_Qle in M1, M2.
  rewrite E1, E2. split; apply Qmult_le_compat_r; auto using Qlt_le_weak.
Qed.

Lemma binary64_pos_comp (a b : Q) :
  0 < a -> a == b -> JS.binary64_pos a == JS.binary64_pos b.
Proof.
  intros Ha Hab. unfold JS.binary64_pos. rewrite !Qred_correct.
  rewrite <- (ilog2_comp a b Ha Hab).
  generalize (JS.pow2 (JS.ilog2 a - 52)). intros u.
  rewrite (nearest_even_comp (a / u) (b / u)) by (rewrite Hab; reflexivity).
  reflexivity.
Qed.

Lemma binary64_pos_mono (a b : Q) :
  0 < a -> a <= b -> JS.binary64_pos a <= JS.binary64_pos b.
Proof.
  intros Ha Hab.
  assert (Hb : 0 < b) by (eapply Qlt_le_trans; eassumption).
  pose proof (ilog2_le a b Ha Hab) as Hle.
  destruct (Z.eq_dec (JS.ilog2 a) (JS.ilog2 b)) as [E | NE].
  - unfold JS.binary64_pos. rewrite !Qred_correct. rewrite E.
    pose proof (pow2_pos (JS.ilog2 b - 52)) as Hu.
    apply Qmult_le_compat_r; [| apply Qlt_le_weak; exact Hu].
    rewrite <- Zle_Qle. apply nearest_even_mono.
    apply Qmult_le_compat_r; [exact Hab |].
    apply Qlt_le_weak. apply Qinv_lt_0_compat. exact Hu.
  - destruct (binary64_pos_bounds a Ha) as [_ H1].
    destruct (binary64_pos_bounds b Hb) as [H2 _].
    eapply Qle_trans; [exact H1 |]. eapply Qle_trans; [| exact H2].
    apply pow2_le. lia.
Qed.

Lemma binary64_pos_positive (a : Q) : 0 < a -> 0 < JS.binary64_pos a.
Proof.
  intros Ha. destruct (binary64_pos_bounds a Ha) as [H _].
  eapply Qlt_le_trans; [apply pow2_pos | exact H].
Qed.

(** [binary64] is odd, keeps the sign, is monotone and respects [==]. *)

Lemma binary64_cases (x : Q) :
  (x == 0 /\ JS.binary64 x = 0) \/
  (0 < x /\ JS.binary64 x = JS.binary64_pos x) \/
  (x < 0 /\ JS.binary64 x = - JS.binary64_pos (- x)).
Proof.
  destruct x as [[| p | p] d]; unfold JS.binary64; simpl.
  - left. split; reflexivity.
  - right. left. split; reflexivity.
  - right. right. split; reflexivity.
Qed.

Lemma Qopp_opp_eq (y : Q) : - - y = y.
Proof.
  destruct y as [n d]. unfold Qopp. cbn [Qnum Qden].
  rewrite Z.opp_involutive. reflexivity.
Qed.

Lemma binary64_opp (x : Q) : JS.binary64 (- x) = - JS.binary64 x.
Proof.
  destruct x as [[| p | p] d]; unfold JS.binary64; cbn [Qnum Qopp Z.opp];
    try reflexivity.
  symmetry. apply Qopp_opp_eq.
Qed.

Lemma binary64_nonneg (x : Q) : 0 <= x -> 0 <= JS.binary64 x.
Proof.
  intros H. destruct (binary64_cases x) as [[_ E] | [[Hx E] | [Hx _]]].
  - rewrite E. apply Qle_refl.
  - rewrite E. apply Qlt_le_weak, binary64_pos_positive, Hx.
  - exfalso. lra.
Qed.

Lemma binary64_nonpos (x : Q) : x <= 0 -> JS.binary64 x <= 0.
Proof.
  intros H. destruct (binary64_cases x) as [[_ E] | [[Hx _] | [Hx E]]].
  - rewrite E. apply Qle_refl.
  - exfalso. lra.
  - rewrite E.
    assert (0 < JS.binary64_pos (- x)) by (apply binary64_pos_positive; lra).
    lra.
Qed.

Lemma binary64_negative (x : Q) : x < 0 -> JS.binary64 x < 0.
Proof.
  intros H. destruct (binary64_cases x) as [[Hx _] | [[Hx _] | [Hx E]]];
    try (exfalso; lra).
  rewrite E.
  assert (0 < JS.binary64_pos (- x)) by (apply binary64_pos_positive; lra).
  lra.
Qed.

Lemma binary64_mono (x y : Q) : x <= y -> JS.binary64 x <= JS.binary64 y.
Proof.
  intros H.
  destruct (binary64_cases x) as [[Hx Ex] | [[Hx Ex] | [Hx Ex]]].
  - rewrite Ex. apply binary64_nonneg. lra.
  - destruct (binary64_cases y) as [[Hy _] | [[Hy Ey] | [Hy _]]];
      try (exfalso; lra).
    rewrite Ex, Ey. apply binary64_pos_mono; assumption.
  - destruct (binary64_cases y) as [[Hy Ey] | [[Hy Ey] | [Hy Ey]]].
    + rewrite Ey. apply binary64_nonpos. lra.
    + eapply Qle_trans; [apply binary64_nonpos; lra |].
      apply binary64_nonneg. lra.
    + rewrite Ex, Ey.
      assert (JS.binary64_pos (- y) <= JS.binary64_pos (- x))
        by (apply binary64_pos_mono; lra).
      lra.
Qed.

Lemma binary64_comp (x y : Q) : x == y -> JS.binary64 x == JS.binary64 y.
Proof.
  intros H.
  destruct (binary64_cases x) as [[Hx Ex] | [[Hx Ex] | [Hx Ex]]];
    destruct (binary64_cases y) as [[Hy Ey] | [[Hy Ey] | [Hy Ey]]];
    try (exfalso; lra); rewrite Ex, Ey.
  - reflexivity.
  - apply binary64_pos_comp; assumption.
  - apply Qopp_comp. apply binary64_pos_comp; [lra |]. rewrite H. reflexivity.
Qed.

(** A number with at most 53 significant bits is its own rounding. *)
Lemma binary64_exact (z : Q) (j g : Z) :
  0 < z -> z == inject_Z j * JS.pow2 g -> z < JS.pow2 (g + 53) ->
  JS.binary64 z == z.
Proof.
  intros Hz Hj Hlt.
  destruct (binary64_cases z) as [[H0 _] | [[_ E] | [H0 _]]];
    try (exfalso; lra).
  rewrite E. unfold JS.binary64_pos. rewrite !Qred_correct.
  destruct (ilog2_spec z Hz) as [H1 _].
  assert (He : (JS.ilog2 z - 52 <= g)%Z).
  { assert (JS.ilog2 z < g + 53)%Z; [| lia].
    apply pow2_lt_inv. eapply Qle_lt_trans; eassumption. }
  set (c := (JS.ilog2 z - 52)%Z) in *.
  pose proof (pow2_pos c) as Hu.
  assert (Hq : z / JS.pow2 c == inject_Z (j * 2 ^ (g - c))).
  { rewrite inject_Z_mult. rewrite pow2_Z by lia.
    rewrite Hj. replace g with ((g - c) + c)%Z at 1 by ring.
    rewrite pow2_add. field. lra. }
  rewrite (nearest_even_comp _ _ Hq). rewrite nearest_even_Z.
  rewrite <- Hq. field. lra.
Qed.

(** The rounding of a number of magnitude at least [2^a] is a multiple
    of [2^(a-52)]. *)
Lemma binary64_multiple (w : Q) (a : Z) :
  JS.pow2 a <= w ->
  exists j : Z, JS.binary64 w == inject_Z j * JS.pow2 (a - 52).
Proof.
  intros Hw.
  assert (Hpos : 0 < w) by (eapply Qlt_le_trans; [apply pow2_pos | exact Hw]).
  destruct (binary64_cases w) as [[H0 _] | [[_ E] | [H0 _]]];
    try (exfalso; lra).
  rewrite E. unfold JS.binary64_pos.
  destruct (ilog2_spec w Hpos) as [_ H2].
  assert (He : (a <= JS.ilog2 w)%Z).
  { assert (a < JS.ilog2 w + 1)%Z; [| lia].
    apply pow2_lt_inv. eapply Qle_lt_trans; eassumption. }
  set (e := JS.ilog2 w) in *.
  exists (JS.nearest_even (w / JS.pow2 (e - 52)) * 2 ^ (e - a))%Z.
  rewrite Qred_correct. rewrite inject_Z_mult. rewrite pow2_Z by lia.
  replace (e - 52)%Z with ((e - a) + (a - 52))%Z at 2 by ring.
  rewrite pow2_add. ring.
Qed.

Lemma binary64_integer (z : Z) :
  (0 < z < 2 ^ 53)%Z -> JS.binary64 (inject_Z z) == inject_Z z.
Proof.
  intros Hz. apply (binary64_exact _ z 0).
  - change 0 with (inject_Z 0). rewrite <- Zlt_Qlt. lia.
  - change (JS.pow2 0) with 1. ring.
  - change (JS.pow2 (0 + 53)) with (inject_Z (2 ^ 53)).
    rewrite <- Zlt_Qlt. lia.
Qed.

Lemma binary64_15 : JS.binary64 15 == 15.
Proof. apply (binary64_integer 15). lia. Qed.

Lemma binary64_180 : JS.binary64 180 == 180.
Proof. apply (binary64_integer 180). lia. Qed.

Lemma binary64_360 : JS.binary64 360 == 360.
Proof. apply (binary64_integer 360). lia. Qed.

(** The difference of two numbers and the opposite difference round to
    opposite numbers. *)
Lemma Qminus_opp_eq (a b : Q) : b - a = - (a - b).
Proof.
  destruct a as [an ad], b as [bn bd]. unfold Qminus, Qplus, Qopp.
  cbn [Qnum Qden]. f_equal; [ring | apply Pos.mul_comm].
Qed.

Lemma Qabs_opp_eq (x : Q) : Qabs (- x) = Qabs x.
Proof.
  destruct x as [n d]. unfold Qabs, Qopp. cbn [Qnum Qden].
  rewrite Z.abs_opp. reflexivity.
Qed.

Lemma abs_sub_sym (a b : Q) :
  JS.Math_abs (JS.sub a b) = JS.Math_abs (JS.sub b a).
Proof.
  unfold JS.Math_abs, JS.sub. rewrite (Qminus_opp_eq b a).
  rewrite binary64_opp. apply Qabs_opp_eq.
Qed.

Lemma sub_nonneg (a b : Q) : b <= a -> 0 <= JS.sub a b.
Proof. intros H. apply binary64_nonneg. lra. Qed.

Lemma sub_mono_l (a a' b : Q) : a <= a' -> JS.sub a b <= JS.sub a' b.
Proof. intros H. apply binary64_mono. lra. Qed.

Lemma sub_mono_r (a b b' : Q) : b' <= b -> JS.sub a b <= JS.sub a b'.
Proof. intros H. apply binary64_mono. lra. Qed.

(** *** The remainder *)

(** For a non-negative dividend, [a % 360] is [a] less a whole number of
    turns. *)
Lemma rem360_nonneg (a : Q) :
  0 <= a ->
  exists k : Z, (0 <= k)%Z /\ JS.rem a 360 == a - 360 * inject_Z k /\
                0 <= JS.rem a 360 /\ JS.rem a 360 < 360.
Proof.
  intros Ha. unfold JS.rem.
  assert (0 <= a / 360) as Hq.
  { apply Qle_shift_div_l; lra. }
  rewrite (trunc_nonneg _ Hq).
  pose proof (Qfloor_le (a / 360)) as Hf.
  pose proof (Qlt_floor (a / 360)) as Hg.
  rewrite inject_Z_plus in Hg. change (inject_Z 1) with 1 in Hg.
  assert (a == 360 * (a / 360)) as Hdiv by (field).
  set (q := a / 360) in *. set (k := Qfloor q) in *.
  exists k. repeat split.
  - apply (Qfloor_resp_le 0 q) in Hq. exact Hq.
  - lra.
  - lra.
Qed.

Lemma rem360_small (a : Q) : 0 <= a -> a < 360 -> JS.rem a 360 == a.
Proof.
  intros H0 H1. unfold JS.rem.
  assert (0 <= a / 360) as Hq by (apply Qle_shift_div_l; lra).
  rewrite (trunc_nonneg _ Hq).
  assert (a / 360 < 1) as Hq1 by (apply Qlt_shift_div_r; lra).
  rewrite (Qfloor_unique (a / 360) 0); [ring | exact Hq | exact Hq1].
Qed.

Lemma rem360_second_turn (a : Q) :
  360 <= a -> a < 720 -> JS.rem a 360 == a - 360.
Proof.
  intros H0 H1. unfold JS.rem.
  assert (1 <= a / 360) as Hq by (apply Qle_shift_div_l; lra).
  assert (0 <= a / 360) as Hq0 by lra.
  rewrite (trunc_nonneg _ Hq0).
  assert (a / 360 < 2) as Hq1 by (apply Qlt_shift_div_r; lra).
  rewrite (Qfloor_unique (a / 360) 1); [ring | exact Hq | exact Hq1].
Qed.

(* ================================================================== *)
(** ** Longitude normalisation *)
(* ================================================================== *)

(** [%] respects the equality of numbers. *)
Lemma rem_comp (a a' b : Q) : a == a' -> JS.rem a b == JS.rem a' b.
Proof.
  intros H. unfold JS.rem, JS.trunc.
  assert (Hq : a / b == a' / b) by (rewrite H; reflexivity).
  rewrite (Qleb_comp 0 0 (Qeq_refl 0) _ _ Hq).
  rewrite (Qfloor_comp _ _ Hq), (Qceiling_comp _ _ Hq), H. reflexivity.
Qed.

Lemma add_360_nonneg (x : Q) : -360 <= x -> 0 <= JS.add x 360.
Proof. intros H. apply binary64_nonneg. lra. Qed.

Lemma add_360_nonpos (x : Q) : x <= -360 -> JS.add x 360 <= 0.
Proof. intros H. apply binary64_nonpos. lra. Qed.

(** In the second turn, a multiple of 2^-44 below 512 and a multiple of
    2^-43 are binary64 numbers; the rounded sum [x + 360] of a
    non-negative [x], less whole turns, is one of them. *)
Lemma second_turn_exact (w : Q) (k : Z) :
  360 <= w ->
  let z := JS.binary64 w - 360 * inject_Z k in
  360 <= z -> z < 720 -> JS.binary64 z == z.
Proof.
  intros Hw z Hlo Hhi.
  assert (Hz : 0 < z) by lra.
  assert (E9 : JS.pow2 9 == 512) by reflexivity.
  destruct (Qlt_le_dec w 512) as [Hsmall | Hbig].
  - destruct (binary64_multiple w 8) as [j Hj].
    { change (JS.pow2 8) with (inject_Z 256). change (inject_Z 256) with 256.
      lra. }
    assert (Hy : JS.binary64 w <= 512).
    { rewrite <- (binary64_integer 512) by lia.
      apply binary64_mono. change (inject_Z 512) with 512. lra. }
    assert (Hy' : 360 <= JS.binary64 w).
    { rewrite <- (binary64_integer 360) by lia.
      apply binary64_mono. exact Hw. }
    assert (Hk : k = 0%Z).
    { assert (inject_Z k < inject_Z 1 /\ inject_Z (-1) < inject_Z k) as [A B].
      { change (inject_Z 1) with 1. change (inject_Z (-1)) with (-1).
        unfold z in Hlo, Hhi. split; lra. }
      rewrite <- Zlt_Qlt in A, B. lia. }
    assert (Ez : z == JS.binary64 w).
    { unfold z. rewrite Hk. change (inject_Z 0) with 0. ring. }
    destruct (Qlt_le_dec z 512) as [Hlt | Hge].
    + apply (binary64_exact z j (8 - 52)); [exact Hz | |].
      * rewrite Ez. exact Hj.
      * change (JS.pow2 (8 - 52 + 53)) with (JS.pow2 9). lra.
    + apply (binary64_exact z 1 9); [exact Hz | |].
      * change (inject_Z 1) with 1. lra.
      * assert (JS.pow2 (9 + 53) == inject_Z (2 ^ 62)) by reflexivity.
        assert (720 < inject_Z (2 ^ 62)) by reflexivity. lra.
  - destruct (binary64_multiple w 9) as [j Hj]; [lra |].
    assert (E : inject_Z (2 ^ 43) * JS.pow2 (9 - 52) == 1) by reflexivity.
    apply (binary64_exact z (j - 360 * k * 2 ^ 43) (9 - 52));
      [exact Hz | |].
    + assert (Ei : inject_Z (j - 360 * k * 2 ^ 43)
                   == inject_Z j - 360 * inject_Z k * inject_Z (2 ^ 43)).
      { unfold Zminus.
        rewrite inject_Z_plus, inject_Z_opp, !inject_Z_mult.
        change (inject_Z 360) with 360. ring. }
      unfold z. rewrite Hj, Ei.
      generalize dependent (JS.pow2 (9 - 52)). intros u _ E.
      generalize dependent (inject_Z (2 ^ 43)). intros v _ E.
      transitivity (inject_Z j * u - 360 * inject_Z k * (v * u));
        [rewrite E; ring | ring].
    + assert (JS.pow2 (9 - 52 + 53) == 1024) by reflexivity. lra.
Qed.

(** C2, as stated, fails below -360: [(-400 + 360) % 360] is -40, which is
    negative, and normalising -40 gives 320. *)
Lemma normalized_below_minus_360 :
  normalized (-400) == -40 /\
  ~ (0 <= normalized (-400) /\ normalized (-400) < 360) /\
  ~ normalized (normalized (-400)) == normalized (-400).
Proof.
  assert (normalized (-400) = -40) as H1 by (vm_compute; reflexivity).
  assert (normalized (-40) = 320) as H2 by (vm_compute; reflexivity).
  rewrite H1, H2. repeat split.
  - intros [H _]. revert H. apply Qlt_not_le. reflexivity.
  - intros H. discriminate H.
Qed.

(** Between -360 and 0 the sum [longitude + 360] can be rounded, and a
    second normalisation rounds again: at the binary64 number written
    [-0.2] the first result is 359.80000000000001 and the second
    359.79999999999995. *)
Lemma normalized_twice_differs :
  let x := -3602879701896397 # 18014398509481984 in
  -360 <= x /\ x < 0 /\
  normalized x == 6329668538780877 # 17592186044416 /\
  normalized (normalized x) == 1582417134695219 # 4398046511104 /\
  ~ normalized (normalized x) == normalized x.
Proof.
  cbv zeta.
  assert (normalized (-3602879701896397 # 18014398509481984)
          = 6329668538780877 # 17592186044416) as H1
    by (vm_compute; reflexivity).
  assert (normalized (6329668538780877 # 17592186044416)
          = 1582417134695219 # 4398046511104) as H2
    by (vm_compute; reflexivity).
  rewrite H1, H2. repeat split; try reflexivity; try discriminate.
Qed.

(** C2, amended: for every longitude not below -360 the normalisation of
    [getZodiacInfo] lies in [0, 360), and for every longitude not below 0
    normalising twice is the same as normalising once. *)
Theorem normalized_range_idempotent (x : Q) :
  -360 <= x ->
  (0 <= normalized x /\ normalized x < 360) /\
  (0 <= x -> normalized (normalized x) == normalized x).
Proof.
  intros Hx.
  assert (0 <= normalized x /\ normalized x < 360) as [Hlo Hhi].
  { unfold normalized.
    destruct (rem360_nonneg (JS.add x 360)) as (k & _ & _ & Hlo & Hhi);
      [apply add_360_nonneg; exact Hx |].
    split; assumption. }
  split; [split; assumption |].
  intros Hx0. unfold normalized at 1 3.
  assert (Hy : 360 <= JS.add x 360).
  { unfold JS.add. rewrite <- (binary64_integer 360) at 1 by lia.
    apply binary64_mono. change (inject_Z 360) with 360. lra. }
  destruct (rem360_nonneg (JS.add x 360)) as (k & Hk & Hr & _ & _); [lra |].
  fold (normalized x) in Hr.
  assert (Hz : JS.binary64 (normalized x + 360) == normalized x + 360).
  { assert (E : normalized x + 360
                == JS.binary64 (x + 360) - 360 * inject_Z (k - 1)).
    { rewrite Hr. unfold JS.add, Zminus.
      rewrite inject_Z_plus. change (inject_Z (Z.opp 1)) with (-1). ring. }
    rewrite (binary64_comp _ _ E), E.
    apply second_turn_exact; [lra | |]; cbv zeta; rewrite <- E; lra. }
  unfold JS.add at 1. rewrite (rem_comp _ _ 360 Hz).
  rewrite rem360_second_turn by lra.
  unfold normalized. ring.
Qed.

Lemma normalized_range_idempotent_witness :
  -360 <= 30 /\
  ((0 <= normalized 30 /\ normalized 30 < 360) /\
   normalized (normalized 30) == normalized 30).
Proof.
  split; [discriminate |].
  destruct (normalized_range_idempotent 30) as [Hr Hi]; [discriminate |].
  split; [exact Hr | apply Hi; discriminate].
Defined.

(* ================================================================== *)
(** ** The ascendant *)
(* ================================================================== *)

(** C1, as stated, fails: at latitude +90 and at latitude -90 the
    calculation returns a number.  Nothing in [calculateAscendant] looks
    at the latitude before it is used. *)
Lemma calculateAscendant_polar_returns :
  (exists v, calculateAscendant (M := sampleMath) (E := sampleEngine)
               0%Z 90 0 = JS.Return v) /\
  (exists v, calculateAscendant (M := sampleMath) (E := sampleEngine)
               0%Z (-90) 0 = JS.Return v).
Proof. split; eexists; vm_compute; reflexivity. Qed.

(** C1, amended: whenever the engine builds the observer and gives the
    sidereal time, [calculateAscendant] returns the normalised longitude
    of the formula, every operation rounded to binary64, at every
    latitude, +90 and -90 included; it has no latitude check and raises
    no error of its own. *)
Theorem calculateAscendant_no_latitude_guard
    {M : MathLib} {E : AstronomyEngine} (date : Date) (lat lon gmst : Q) :
  Astronomy_Observer lat lon 0 = JS.Return tt ->
  Astronomy_SiderealTime date = JS.Return gmst ->
  let ramc :=
    JS.div (JS.mul (JS.mul (JS.add gmst (JS.div lon 15)) 15) Math_PI) 180 in
  let eps := JS.div (JS.mul obliquity Math_PI) 180 in
  let latRad := JS.div (JS.mul lat Math_PI) 180 in
  let ascRad :=
    Math_atan2 (Math_cos ramc)
      (JS.sub (JS.mul (- Math_sin ramc) (Math_cos eps))
              (JS.mul (Math_tan latRad) (Math_sin eps))) in
  calculateAscendant date lat lon =
    JS.Return (normalized (JS.div (JS.mul ascRad 180) Math_PI)).
Proof.
  intros Hobs Hgmst. unfold calculateAscendant.
  rewrite Hobs, Hgmst. reflexivity.
Qed.

Lemma calculateAscendant_no_latitude_guard_witness :
  exists v, calculateAscendant (M := sampleMath) (E := sampleEngine)
              0%Z 90 0 = JS.Return (normalized v).
Proof.
  eexists.
  eapply (calculateAscendant_no_latitude_guard
            (M := sampleMath) (E := sampleEngine) 0%Z 90 0);
    reflexivity.
Defined.

(** The only errors of [calculateAscendant] are the engine's. *)
Lemma calculateAscendant_throws_only_engine
    {M : MathLib} {E : AstronomyEngine} (date : Date) (lat lon : Q)
    (e : JS.exn) :
  calculateAscendant date lat lon = JS.Throw e ->
  Astronomy_Observer lat lon 0 = JS.Throw e \/
  Astronomy_SiderealTime date = JS.Throw e.
Proof.
  unfold calculateAscendant.
  destruct (Astronomy_Observer lat lon 0) as [u|e1]; simpl.
  - destruct (Astronomy_SiderealTime date) as [g|e2]; simpl.
    + discriminate.
    + intros H. right. exact H.
  - intros H. left. injection H as ->. reflexivity.
Qed.

(* ================================================================== *)
(** ** Retrograde flag and houses *)
(* ================================================================== *)

Lemma retrograde_true_iff (L0 L1 : Q) :
  retrograde L0 L1 = true <-> L1 < L0 /\ JS.sub L0 L1 < 180.
Proof.
  unfold retrograde. rewrite andb_true_iff, !lt_iff. reflexivity.
Qed.

(** A rounded difference below 180 comes from a difference below 180, and
    a difference up to the binary64 number just below 180 rounds below
    180. *)
Lemma sub_below_180 (L0 L1 : Q) : JS.sub L0 L1 < 180 -> L0 - L1 < 180.
Proof.
  intros H. apply Qnot_le_lt. intros Hge.
  apply binary64_mono in Hge. fold (JS.sub L0 L1) in Hge.
  pose proof binary64_180. lra.
Qed.

Lemma sub_well_below_180 (L0 L1 : Q) :
  L0 - L1 <= (6333186975989759 # 35184372088832) -> JS.sub L0 L1 < 180.
Proof.
  intros H. apply binary64_mono in H. fold (JS.sub L0 L1) in H.
  assert (E : JS.binary64 (6333186975989759 # 35184372088832)
              = 6333186975989759 # 35184372088832)
    by (vm_compute; reflexivity).
  rewrite E in H.
  assert ((6333186975989759 # 35184372088832) < 180) by reflexivity.
  lra.
Qed.

(** C7: the [retrograde] flag [calculateChart] gives a body is true
    exactly when the longitude [L1] one hour later is smaller than the
    longitude [L0] at the instant and [L0 - L1], the difference the code
    computes, rounded to binary64, is below 180.  Of the real difference:
    a flagged body has [L0 - L1] below 180, and a body with [L1] smaller
    than [L0] is flagged whenever [L0 - L1] is at most 180 - 2^-45, the
    binary64 number just below 180. *)
Theorem planet_retrograde_iff {E : AstronomyEngine}
    (date : Date) (ascSignIndex : Z) (bodyName : string)
    (time timeNext : AstroTime) (vec vecNext : Vector) (L0 L1 : Q)
    (p : PlanetPosition.t) :
  Astronomy_MakeTime date = JS.Return time ->
  Astronomy_GeoVector bodyName time true = JS.Return vec ->
  Astronomy_Ecliptic_elon vec = JS.Return L0 ->
  Astronomy_MakeTime (date + 3600000)%Z = JS.Return timeNext ->
  Astronomy_GeoVector bodyName timeNext true = JS.Return vecNext ->
  Astronomy_Ecliptic_elon vecNext = JS.Return L1 ->
  planetOf date ascSignIndex bodyName = JS.Return p ->
  PlanetPosition.degree p = L0 /\
  (PlanetPosition.retrograde p = true <-> L1 < L0 /\ JS.sub L0 L1 < 180) /\
  (PlanetPosition.retrograde p = true -> L1 < L0 /\ L0 - L1 < 180) /\
  (L1 < L0 -> L0 - L1 <= 180 - (1 # 35184372088832) ->
   PlanetPosition.retrograde p = true).
Proof.
  intros H1 H2 H3 H4 H5 H6. unfold planetOf.
  rewrite H1. cbn [JS.bind]. rewrite H2. cbn [JS.bind].
  rewrite H3. cbn [JS.bind]. rewrite H4. cbn [JS.bind].
  rewrite H5. cbn [JS.bind]. rewrite H6. cbn [JS.bind].
  destruct (JS.deref (ZodiacInfo.sign (getZodiacInfo L0))) as [sign|e];
    cbn [JS.bind]; [|discriminate].
  intros Hp. injection Hp as <-. cbn [PlanetPosition.degree
                                       PlanetPosition.retrograde].
  split; [reflexivity |]. split; [apply retrograde_true_iff |]. split.
  - intros H. apply retrograde_true_iff in H as [Hlt Hsub].
    split; [exact Hlt | apply sub_below_180; exact Hsub].
  - intros Hlt Hle. apply retrograde_true_iff. split; [exact Hlt |].
    apply sub_well_below_180.
    assert ((6333186975989759 # 35184372088832)
            == 180 - (1 # 35184372088832)) as -> by reflexivity.
    exact Hle.
Qed.

Lemma planet_retrograde_iff_witness :
  exists p L0 L1,
    planetOf (E := sampleEngine) 0%Z 0%Z "Saturn" = JS.Return p /\
    PlanetPosition.degree p = L0 /\
    (PlanetPosition.retrograde p = true <-> L1 < L0 /\ JS.sub L0 L1 < 180) /\
    (PlanetPosition.retrograde p = true -> L1 < L0 /\ L0 - L1 < 180) /\
    (L1 < L0 -> L0 - L1 <= 180 - (1 # 35184372088832) ->
     PlanetPosition.retrograde p = true).
Proof.
  eexists. eexists. eexists. split; [vm_compute; reflexivity|].
  eapply (planet_retrograde_iff (E := sampleEngine) 0%Z 0%Z "Saturn");
    reflexivity.
Defined.

Lemma house_cases (signIndex ascSignIndex : Z) :
  (0 <= signIndex < 12)%Z -> (0 <= ascSignIndex < 12)%Z ->
  house signIndex ascSignIndex =
    (if (ascSignIndex <=? signIndex)%Z
     then signIndex - ascSignIndex + 1
     else signIndex - ascSignIndex + 13)%Z.
Proof.
  intros Hs Ha. unfold house.
  rewrite Z.rem_mod_nonneg by lia.
  destruct (ascSignIndex <=? signIndex)%Z eqn:Hle.
  - apply Z.leb_le in Hle.
    replace (signIndex - ascSignIndex + 12)%Z
      with (signIndex - ascSignIndex + 1 * 12)%Z by lia.
    rewrite Z_mod_plus_full, Z.mod_small; lia.
  - apply Z.leb_gt in Hle. rewrite Z.mod_small; lia.
Qed.

(** C6: for an ascendant sign index in 0..11, the house mapping sends the
    twelve sign indices into 1..12, no two to the same house, and reaches
    every house. *)
Theorem house_bijection (ascSignIndex : Z) :
  (0 <= ascSignIndex < 12)%Z ->
  (forall s, (0 <= s < 12)%Z -> (1 <= house s ascSignIndex <= 12)%Z) /\
  (forall s1 s2, (0 <= s1 < 12)%Z -> (0 <= s2 < 12)%Z ->
     house s1 ascSignIndex = house s2 ascSignIndex -> s1 = s2) /\
  (forall h, (1 <= h <= 12)%Z ->
     exists s, (0 <= s < 12)%Z /\ house s ascSignIndex = h).
Proof.
  intros Ha. repeat split.
  - rewrite house_cases by assumption.
    destruct (ascSignIndex <=? s)%Z eqn:Hle;
      [apply Z.leb_le in Hle | apply Z.leb_gt in Hle]; lia.
  - rewrite house_cases by assumption.
    destruct (ascSignIndex <=? s)%Z eqn:Hle;
      [apply Z.leb_le in Hle | apply Z.leb_gt in Hle]; lia.
  - intros s1 s2 H1 H2. rewrite !house_cases by assumption.
    destruct (ascSignIndex <=? s1)%Z eqn:Hle1;
      destruct (ascSignIndex <=? s2)%Z eqn:Hle2;
      try apply Z.leb_le in Hle1; try apply Z.leb_gt in Hle1;
      try apply Z.leb_le in Hle2; try apply Z.leb_gt in Hle2; lia.
  - intros h Hh.
    destruct (Z_le_gt_dec (h + ascSignIndex) 12) as [Hc|Hc].
    + exists (h + ascSignIndex - 1)%Z. split; [lia|].
      rewrite house_cases by lia.
      destruct (ascSignIndex <=? h + ascSignIndex - 1)%Z eqn:Hle;
        [apply Z.leb_le in Hle | apply Z.leb_gt in Hle]; lia.
    + exists (h + ascSignIndex - 13)%Z. split; [lia|].
      rewrite house_cases by lia.
      destruct (ascSignIndex <=? h + ascSignIndex - 13)%Z eqn:Hle;
        [apply Z.leb_le in Hle | apply Z.leb_gt in Hle]; lia.
Qed.

Lemma house_bijection_witness :
  (forall s, (0 <= s < 12)%Z -> (1 <= house s 3 <= 12)%Z) /\
  (forall s1 s2, (0 <= s1 < 12)%Z -> (0 <= s2 < 12)%Z ->
     house s1 3 = house s2 3 -> s1 = s2) /\
  (forall h, (1 <= h <= 12)%Z -> exists s, (0 <= s < 12)%Z /\ house s 3 = h).
Proof. apply (house_bijection 3). lia. Defined.

(** The index [calculateChart] finds for a sign of the table is its
    position, so the houses are computed from indices in 0..11. *)
Lemma signIndexOf_position (i : nat) (z : ZodiacSign.t) :
  ZODIAC_SIGNS !! i = Some z -> signIndexOf (ZodiacSign.name z) = Z.of_nat i.
Proof.
  intros H.
  do 12 (destruct i as [|i]; [injection H as <-; reflexivity|]).
  discriminate H.
Qed.

(* ================================================================== *)
(** ** Elemental balance *)
(* ================================================================== *)

Lemma percentage_of_ten (c : Z) : percentage c 10 = (10 * c)%Z.
Proof.
  unfold percentage, JS.Math_round.
  assert (inject_Z c / inject_Z 10 * 100 == inject_Z (10 * c)) as Heq.
  { rewrite inject_Z_mult. change (inject_Z 10) with 10. field. }
  rewrite Heq. apply Qfloor_unique.
  - rewrite <- (Qplus_0_r (inject_Z (10 * c))) at 1.
    apply Qplus_le_r. discriminate.
  - rewrite inject_Z_plus. apply Qplus_lt_r. reflexivity.
Qed.

Lemma increment_grows (el : option string) (c : Counts.t) :
  countsLe c (increment el c) /\
  (countsSum (increment el c) <= countsSum c + 1)%Z.
Proof.
  destruct c as [f e a w]. destruct el as [el|]; unfold countsLe, countsSum.
  - cbn [increment].
    destruct (String.eqb el "fire"); [cbn; lia|].
    destruct (String.eqb el "earth"); [cbn; lia|].
    destruct (String.eqb el "air"); [cbn; lia|].
    destruct (String.eqb el "water"); cbn; lia.
  - cbn; lia.
Qed.

Lemma elementOf_known (p : PlanetPosition.t) :
  hasZodiacSign p = true ->
  exists el, elementOf (PlanetPosition.sign p) = Some el /\
    (el = "fire" \/ el = "earth" \/ el = "air" \/ el = "water")%string.
Proof.
  unfold hasZodiacSign, elementOf. generalize (PlanetPosition.sign p) as n.
  intros n H. cbn [existsb ZODIAC_SIGNS ZodiacSign.name] in H.
  cbn [List.find ZODIAC_SIGNS ZodiacSign.name].
  repeat match goal with
  | |- context [String.eqb ?a n] =>
      destruct (String.eqb a n) eqn:?;
        [eexists; split; [reflexivity | cbn; tauto] |]
  end.
  cbn in H. discriminate H.
Qed.

Lemma increment_known (el : string) (c : Counts.t) :
  (el = "fire" \/ el = "earth" \/ el = "air" \/ el = "water")%string ->
  countsSum (increment (Some el) c) = (countsSum c + 1)%Z.
Proof.
  destruct c as [f e a w]. unfold countsSum.
  intros [-> | [-> | [-> | ->]]]; cbn; lia.
Qed.

Lemma countElements_from (planets : list PlanetPosition.t) (c0 : Counts.t) :
  let c := fold_left
             (fun counts p =>
                increment (elementOf (PlanetPosition.sign p)) counts)
             planets c0 in
  countsLe c0 c /\
  (countsSum c <= countsSum c0 + Z.of_nat (length planets))%Z /\
  (forallb hasZodiacSign planets = true ->
   countsSum c = countsSum c0 + Z.of_nat (length planets))%Z.
Proof.
  revert c0. induction planets as [|p planets IH]; intros c0; cbn zeta.
  - cbn. unfold countsLe. split; [lia|]. split; [lia|]. intros _. lia.
  - cbn [fold_left length forallb].
    destruct (increment_grows (elementOf (PlanetPosition.sign p)) c0)
      as [Hle Hsum].
    specialize (IH (increment (elementOf (PlanetPosition.sign p)) c0)).
    cbn zeta in IH. destruct IH as (IHle & IHsum & IHall).
    split; [unfold countsLe in *; lia|]. split; [lia|].
    { intros Hall. apply andb_true_iff in Hall as [Hp Hall].
      destruct (elementOf_known p Hp) as (el & Hel & Hkey).
      rewrite IHall by assumption. rewrite Hel.
      rewrite (increment_known el c0 Hkey). lia. }
Qed.

Lemma countElements_bounds (planets : list PlanetPosition.t) :
  let c := countElements planets in
  (0 <= Counts.fire c /\ 0 <= Counts.earth c /\
   0 <= Counts.air c /\ 0 <= Counts.water c)%Z /\
  (countsSum c <= Z.of_nat (length planets))%Z /\
  (forallb hasZodiacSign planets = true ->
   countsSum c = Z.of_nat (length planets)).
Proof.
  pose proof (countElements_from planets (Counts.mk 0 0 0 0)) as H.
  cbn zeta in *. fold (countElements planets) in H.
  destruct H as (Hle & Hsum & Hall). unfold countsLe in Hle.
  cbn in Hle. change (countsSum (Counts.mk 0 0 0 0)) with 0%Z in *.
  split; [lia|]. split; [lia|].
  intros H. rewrite (Hall H). reflexivity.
Qed.

(** With ten planets no rounding is left and the clip is not taken. *)
Lemma elementsOf_ten (planets : list PlanetPosition.t) :
  length planets = 10%nat ->
  let counts := countElements planets in
  elementsOf planets =
    {| ElementalBalance.fire := 10 * Counts.fire counts;
       ElementalBalance.earth := 10 * Counts.earth counts;
       ElementalBalance.air := 10 * Counts.air counts;
       ElementalBalance.water :=
         100 - 10 * Counts.fire counts - 10 * Counts.earth counts
         - 10 * Counts.air counts |}%Z.
Proof.
  intros Hlen. cbn zeta. unfold elementsOf. rewrite Hlen.
  change (JS.Math_max (Z.of_nat 10) 1) with 10%Z.
  rewrite !percentage_of_ten. unfold waterPct.
  destruct (countElements_bounds planets) as ((Hf & He & Ha & Hw) & Hsum & _).
  rewrite Hlen in Hsum. unfold countsSum in Hsum.
  destruct (_ <? 0)%Z eqn:Hclip; [|reflexivity].
  apply Z.ltb_lt in Hclip. lia.
Qed.

(** C3: for any ten planets, whatever their signs, the four percentages
    of the chart add up to 100. *)
Theorem elements_sum_to_100 (planets : list PlanetPosition.t) :
  length planets = 10%nat ->
  let e := elementsOf planets in
  (ElementalBalance.fire e + ElementalBalance.earth e
   + ElementalBalance.air e + ElementalBalance.water e = 100)%Z.
Proof.
  intros Hlen. cbn zeta. rewrite (elementsOf_ten planets Hlen).
  cbn [ElementalBalance.fire ElementalBalance.earth ElementalBalance.air
       ElementalBalance.water].
  lia.
Qed.

Lemma elements_sum_to_100_witness :
  let e := elementsOf tenBodies in
  (ElementalBalance.fire e + ElementalBalance.earth e
   + ElementalBalance.air e + ElementalBalance.water e = 100)%Z.
Proof. apply (elements_sum_to_100 tenBodies). reflexivity. Defined.



(* ================================================================== *)
(** ** Aspect classification *)
(* ================================================================== *)

(** The branch on [diff > 180] picks the smaller of [diff] and the
    rounded [360 - diff]. *)
Lemma turn_back_small (diff : Q) : diff <= 180 -> 180 <= JS.sub 360 diff.
Proof.
  intros H. unfold JS.sub.
  assert (JS.binary64 180 <= JS.binary64 (360 - diff))
    by (apply binary64_mono; lra).
  pose proof binary64_180. lra.
Qed.

Lemma turn_back_big (diff : Q) : 180 < diff -> JS.sub 360 diff <= 180.
Proof.
  intros H. unfold JS.sub.
  assert (JS.binary64 (360 - diff) <= JS.binary64 180)
    by (apply binary64_mono; lra).
  pose proof binary64_180. lra.
Qed.

Lemma separation_is_min (a b : Q) : separation a b = spec_separation a b.
Proof.
  unfold separation, spec_separation, JS.Math_abs, JS.gt, JS.lt, Qmin,
    GenericMinMax.gmin.
  set (diff := Qabs (JS.sub a b)).
  pose proof (turn_back_small diff) as Hsmall.
  pose proof (turn_back_big diff) as Hbig.
  destruct (Qcompare_spec diff (JS.sub 360 diff)) as [Heq|Hlt|Hgt];
    destruct (Qle_bool diff 180) eqn:Hb; cbn [negb]; try reflexivity.
  - exfalso. assert (180 < diff) as Hlt.
    { apply Qnot_le_lt. intros Hle. apply Qle_bool_iff in Hle. congruence. }
    specialize (Hbig Hlt). lra.
  - exfalso. assert (180 < diff) as Hlt'.
    { apply Qnot_le_lt. intros Hle. apply Qle_bool_iff in Hle. congruence. }
    specialize (Hbig Hlt'). lra.
  - exfalso. apply Qle_bool_iff in Hb. specialize (Hsmall Hb). lra.
Qed.

Lemma aspectsOfPair_follows_table (planetA planetB : PlanetPosition.t) :
  aspectsOfPair planetA planetB = spec_pair planetA planetB.
Proof.
  unfold aspectsOfPair, spec_pair. rewrite separation_is_min.
  set (sep := spec_separation _ _).
  unfold aspectTypeOf, spec_bands, spec_firstMatch, JS.le, JS.Math_abs, ORB.
  change (6 * (7 # 10)) with (42 # 10).
  destruct (Qle_bool (Qabs (sep - 0)) 6); [reflexivity|].
  destruct (Qle_bool (Qabs (sep - 60)) (42 # 10)); [reflexivity|].
  destruct (Qle_bool (Qabs (sep - 90)) 6); [reflexivity|].
  destruct (Qle_bool (Qabs (sep - 120)) 6); [reflexivity|].
  destruct (Qle_bool (Qabs (sep - 180)) 6); reflexivity.
Qed.

(** C4: the records pushed by the two loops of [calculateAspects] are, pair
    by pair in enumeration order, those of the band table read in priority
    order on the separation min(|a-b|, 360-|a-b|), where [a - b] and
    [360 - |a-b|] are the differences the code computes, rounded to
    binary64: one record with the distance to the exact angle as orb for a
    pair inside a band, none for a pair outside all bands; and longitudes
    10 and 70 are 60 apart and give one Sextile of orb 0. *)
Theorem aspects_follow_band_table :
  (forall p1 p2 : CalculatedChart.t,
     pushedAspects p1 p2 =
       flat_map (fun planetA =>
         flat_map (fun planetB => spec_pair planetA planetB)
           (CalculatedChart.planets p2))
         (CalculatedChart.planets p1)) /\
  (forall a b : Q,
     separation a b
     = Qmin (Qabs (JS.sub a b)) (JS.sub 360 (Qabs (JS.sub a b)))) /\
  separation 10 70 = 60 /\
  (forall nameA nameB : string,
     aspectsOfPair (planetAt nameA 10) (planetAt nameB 70) =
       [ SynastryAspect.mk nameA nameB "Sextile" "" 0 ]).
Proof.
  repeat split.
  - intros p1 p2. unfold pushedAspects.
    apply flat_map_ext. intros planetA.
    apply flat_map_ext. intros planetB.
    apply aspectsOfPair_follows_table.
  - intros a b. apply separation_is_min.
Qed.

(** Longitudes 95 and 300 are 155 apart, outside every band: nothing is
    pushed. *)
Example aspects_95_300 :
  separation 95 300 = 155 /\
  aspectsOfPair (planetAt "A" 95) (planetAt "B" 300) = [].
Proof. split; reflexivity. Qed.

(* ================================================================== *)
(** ** Sorting by a numeric key *)
(* ================================================================== *)

Section SortByKey.
Context {A : Type} (key : A -> Q).

Lemma insert_Permutation (x : A) (l : list A) :
  Permutation (JS.insert (cmpBy key) x l) (x :: l).
Proof.
  induction l as [|y l IH]; cbn [JS.insert].
  - reflexivity.
  - destruct (Qle_bool (cmpBy key x y) 0).
    + reflexivity.
    + rewrite IH. apply perm_swap.
Qed.

Lemma sort_Permutation (l : list A) : Permutation (JS.sort (cmpBy key) l) l.
Proof.
  induction l as [|x l IH]; cbn [JS.sort].
  - reflexivity.
  - rewrite insert_Permutation. apply perm_skip. exact IH.
Qed.

Lemma insert_StronglySorted (x : A) (l : list A) :
  StronglySorted (keyOrder key) l ->
  StronglySorted (keyOrder key) (JS.insert (cmpBy key) x l).
Proof.
  induction 1 as [|y l Hs IH Hy]; cbn [JS.insert].
  - constructor; constructor.
  - destruct (Qle_bool (cmpBy key x y) 0) eqn:Hc.
    + apply Qle_bool_iff in Hc. unfold cmpBy in Hc.
      assert (keyOrder key x y) as Hxy by (unfold keyOrder; lra).
      constructor; [constructor; assumption|].
      constructor; [exact Hxy|].
      eapply List.Forall_impl; [|exact Hy].
      intros z Hz. unfold keyOrder in *. lra.
    + assert (keyOrder key y x) as Hyx.
      { unfold keyOrder. apply Qlt_le_weak, Qnot_le_lt. intros Hle.
        assert (cmpBy key x y <= 0) as H0 by (unfold cmpBy; lra).
        apply Qle_bool_iff in H0. congruence. }
      constructor; [exact IH|].
      rewrite (insert_Permutation x l). constructor; assumption.
Qed.

Lemma sort_StronglySorted (l : list A) :
  StronglySorted (keyOrder key) (JS.sort (cmpBy key) l).
Proof.
  induction l as [|x l IH]; cbn [JS.sort].
  - constructor.
  - apply insert_StronglySorted. exact IH.
Qed.

(** Inserting does not reorder the elements of one key. *)
Lemma insert_filter_key (q : Q) (x : A) (l : list A) :
  List.filter (fun a => Qeq_bool (key a) q) (JS.insert (cmpBy key) x l) =
  List.filter (fun a => Qeq_bool (key a) q) (x :: l).
Proof.
  induction l as [|y l IH]; cbn [JS.insert].
  - reflexivity.
  - destruct (Qle_bool (cmpBy key x y) 0) eqn:Hc; [reflexivity|].
    cbn [List.filter] in *. rewrite IH.
    destruct (Qeq_bool (key x) q) eqn:Hx; [|reflexivity].
    destruct (Qeq_bool (key y) q) eqn:Hy; [|reflexivity].
    exfalso. apply Qeq_bool_iff in Hx, Hy.
    assert (cmpBy key x y <= 0) as H0 by (unfold cmpBy; lra).
    apply Qle_bool_iff in H0. congruence.
Qed.

Lemma sort_stable (q : Q) (l : list A) :
  List.filter (fun a => Qeq_bool (key a) q) (JS.sort (cmpBy key) l) =
  List.filter (fun a => Qeq_bool (key a) q) l.
Proof.
  induction l as [|x l IH]; cbn [JS.sort].
  - reflexivity.
  - rewrite insert_filter_key. cbn [List.filter]. rewrite IH. reflexivity.
Qed.

End SortByKey.

Lemma StronglySorted_firstn {A : Type} (R : A -> A -> Prop) (n : nat)
    (l : list A) :
  StronglySorted R l -> StronglySorted R (firstn n l).
Proof.
  intros Hs. revert n. induction Hs as [|x l Hs IH Hx]; intros [|n]; cbn.
  - constructor.
  - constructor.
  - constructor.
  - constructor; [apply IH|].
    apply List.Forall_forall. intros y Hy.
    rewrite List.Forall_forall in Hx. apply Hx.
    rewrite <- (firstn_skipn n l). apply in_or_app. left. exact Hy.
Qed.

(** C5: the list [calculateAspects] returns is in ascending order of orb,
    has at most 8 records and is the first 8 of a stable sort of the
    records in pair-enumeration order: the records of one orb keep the
    order in which the loops pushed them. *)
Theorem calculateAspects_sorted_capped_stable (p1 p2 : CalculatedChart.t) :
  let r := calculateAspects p1 p2 in
  StronglySorted orbLe r /\
  (length r <= 8)%nat /\
  (exists s : list SynastryAspect.t,
     r = firstn 8 s /\
     Permutation s (pushedAspects p1 p2) /\
     StronglySorted orbLe s /\
     forall q : Q,
       List.filter (sameOrb q) s =
       List.filter (sameOrb q) (pushedAspects p1 p2)) /\
  (forall q : Q, exists rest : list SynastryAspect.t,
     List.filter (sameOrb q) (pushedAspects p1 p2) =
       List.filter (sameOrb q) r ++ rest).
Proof.
  cbn zeta. unfold calculateAspects, JS.slice0.
  set (pushed := pushedAspects p1 p2).
  assert (StronglySorted orbLe (JS.sort byOrb pushed)) as Hsorted
    by apply (sort_StronglySorted SynastryAspect.orb).
  assert (forall q, List.filter (sameOrb q) (JS.sort byOrb pushed) =
                    List.filter (sameOrb q) pushed) as Hstable
    by (intros q; apply (sort_stable SynastryAspect.orb)).
  split; [apply StronglySorted_firstn; exact Hsorted|].
  split; [apply firstn_le_length|].
  split.
  - exists (JS.sort byOrb pushed).
    split; [reflexivity|].
    split; [apply (sort_Permutation SynastryAspect.orb)|].
    split; assumption.
  - intros q. exists (List.filter (sameOrb q) (skipn 8 (JS.sort byOrb pushed))).
    rewrite <- Hstable.
    rewrite <- (firstn_skipn 8 (JS.sort byOrb pushed)) at 1.
    apply List.filter_app.
Qed.

(* ================================================================== *)
(** ** The chart as a whole *)
(* ================================================================== *)

(** Peel the calls of a computation that returned. *)
Ltac bind_inv H :=
  repeat match type of H with
  | JS.bind ?r _ = JS.Return _ =>
      let E := fresh "Hcall" in
      destruct r eqn:E; cbn [JS.bind] in H; [|discriminate H]
  end.

Lemma mapM_Forall2 {A B : Type} (f : A -> JS.Result B) (xs : list A)
    (ys : list B) :
  JS.mapM f xs = JS.Return ys -> Forall2 (fun x y => f x = JS.Return y) xs ys.
Proof.
  revert ys. induction xs as [|x xs IH]; intros ys H; cbn [JS.mapM] in H.
  - injection H as <-. constructor.
  - bind_inv H. injection H as <-. constructor; [assumption|].
    apply IH. reflexivity.
Qed.

Lemma getZodiacInfo_sign (longitude : Q) (z : ZodiacSign.t) :
  ZodiacInfo.sign (getZodiacInfo longitude) = Some z ->
  exists i : nat, ZODIAC_SIGNS !! i = Some z.
Proof.
  unfold getZodiacInfo. cbn [ZodiacInfo.sign]. unfold JS.index.
  destruct (_ <? 0)%Z; [discriminate|].
  intros H. eexists. exact H.
Qed.

(** What [planetOf] built when it returned. *)
Lemma planetOf_inv {E : AstronomyEngine} (date : Date) (ascSignIndex : Z)
    (bodyName : string) (p : PlanetPosition.t) :
  planetOf date ascSignIndex bodyName = JS.Return p ->
  exists (longitude elonNext : Q) (sign : ZodiacSign.t),
    ZodiacInfo.sign (getZodiacInfo longitude) = Some sign /\
    p = {| PlanetPosition.name := bodyName;
           PlanetPosition.symbol := PLANET_SYMBOLS !!! bodyName;
           PlanetPosition.sign := ZodiacSign.name sign;
           PlanetPosition.signSymbol := ZodiacSign.symbol sign;
           PlanetPosition.degree := longitude;
           PlanetPosition.relativeDegree :=
             ZodiacInfo.relativeDegree (getZodiacInfo longitude);
           PlanetPosition.house :=
             house (signIndexOf (ZodiacSign.name sign)) ascSignIndex;
           PlanetPosition.retrograde := retrograde longitude elonNext |}.
Proof.
  unfold planetOf. intros H.
  destruct (Astronomy_MakeTime date) as [time|]; [|discriminate H].
  cbn [JS.bind] in H.
  destruct (Astronomy_GeoVector bodyName time true) as [vec|];
    [|discriminate H].
  cbn [JS.bind] in H.
  destruct (Astronomy_Ecliptic_elon vec) as [longitude|]; [|discriminate H].
  cbn [JS.bind] in H.
  destruct (Astronomy_MakeTime (date + 3600000)%Z) as [timeNext|];
    [|discriminate H].
  cbn [JS.bind] in H.
  destruct (Astronomy_GeoVector bodyName timeNext true) as [vecNext|];
    [|discriminate H].
  cbn [JS.bind] in H.
  destruct (Astronomy_Ecliptic_elon vecNext) as [elonNext|]; [|discriminate H].
  cbn [JS.bind] in H.
  destruct (ZodiacInfo.sign (getZodiacInfo longitude)) as [sign|] eqn:Hsign;
    [|discriminate H].
  cbn [JS.deref JS.bind] in H. injection H as <-.
  exists longitude, elonNext, sign. split; [exact Hsign | reflexivity].
Qed.

Lemma planetOf_sign {E : AstronomyEngine} (date : Date) (ascSignIndex : Z)
    (bodyName : string) (p : PlanetPosition.t) :
  planetOf date ascSignIndex bodyName = JS.Return p ->
  PlanetPosition.name p = bodyName /\ hasZodiacSign p = true.
Proof.
  intros H.
  apply planetOf_inv in H as (longitude & elonNext & sign & Hsign & ->).
  split; [reflexivity|].
  unfold hasZodiacSign. cbn [PlanetPosition.sign].
  apply existsb_exists. exists sign. split; [|apply String.eqb_refl].
  apply getZodiacInfo_sign in Hsign as [i Hi].
  apply list_elem_of_In. eapply list_elem_of_lookup_2. exact Hi.
Qed.

(** With the ascendant in one of the twelve signs, the house of a planet
    is between 1 and 12. *)
Lemma planetOf_house {E : AstronomyEngine} (date : Date) (ascSignIndex : Z)
    (bodyName : string) (p : PlanetPosition.t) :
  (0 <= ascSignIndex < 12)%Z ->
  planetOf date ascSignIndex bodyName = JS.Return p ->
  (1 <= PlanetPosition.house p <= 12)%Z.
Proof.
  intros Hasc H.
  apply planetOf_inv in H as (longitude & elonNext & sign & Hsign & ->).
  cbn [PlanetPosition.house].
  apply getZodiacInfo_sign in Hsign as [i Hi].
  rewrite (signIndexOf_position i sign Hi).
  apply lookup_lt_Some in Hi. change (length ZODIAC_SIGNS) with 12%nat in Hi.
  rewrite house_cases by lia.
  destruct (ascSignIndex <=? Z.of_nat i)%Z eqn:Hle;
    [apply Z.leb_le in Hle | apply Z.leb_gt in Hle]; lia.
Qed.

(** The planets of a chart are the ten bodies, each in one of the twelve
    signs and in a house between 1 and 12, and its elemental balance is
    computed from them. *)
Lemma calculateChart_planets {M : MathLib} {E : AstronomyEngine}
    (date : Date) (lat lon : Q) (c : CalculatedChart.t) :
  calculateChart date lat lon = JS.Return c ->
  map PlanetPosition.name (CalculatedChart.planets c) = BODIES /\
  forallb hasZodiacSign (CalculatedChart.planets c) = true /\
  Forall (fun p => (1 <= PlanetPosition.house p <= 12)%Z)
    (CalculatedChart.planets c) /\
  CalculatedChart.elements c = elementsOf (CalculatedChart.planets c).
Proof.
  unfold calculateChart. intros H.
  destruct (calculateAscendant date lat lon) as [ascDegree|]; [|discriminate H].
  cbn [JS.bind] in H.
  destruct (ZodiacInfo.sign (getZodiacInfo ascDegree)) as [ascSign|] eqn:Hasc;
    [|discriminate H].
  cbn [JS.deref JS.bind] in H.
  destruct (JS.mapM _ BODIES) as [planets|] eqn:Hmap; [|discriminate H].
  cbn [JS.bind] in H. injection H as <-.
  cbn [CalculatedChart.planets CalculatedChart.elements].
  apply mapM_Forall2 in Hmap.
  apply getZodiacInfo_sign in Hasc as [i Hi].
  rewrite (signIndexOf_position i ascSign Hi) in Hmap.
  apply lookup_lt_Some in Hi. change (length ZODIAC_SIGNS) with 12%nat in Hi.
  split; [|split; [|split; [|reflexivity]]].
  - induction Hmap as [|b p bs ps Hp _ IH]; [reflexivity|].
    cbn [map]. apply planetOf_sign in Hp as [-> _]. f_equal. exact IH.
  - induction Hmap as [|b p bs ps Hp _ IH]; [reflexivity|].
    cbn [forallb]. apply planetOf_sign in Hp as [_ ->]. exact IH.
  - induction Hmap as [|b p bs ps Hp _ IH]; constructor; [|exact IH].
    apply planetOf_house in Hp; [exact Hp | lia].
Qed.

(** On every chart [calculateChart] returns, the percentages sum to 100
    and are ten times the element counts. *)
Corollary calculateChart_elements {M : MathLib} {E : AstronomyEngine}
    (date : Date) (lat lon : Q) (c : CalculatedChart.t) :
  calculateChart date lat lon = JS.Return c ->
  let e := CalculatedChart.elements c in
  let counts := countElements (CalculatedChart.planets c) in
  (ElementalBalance.fire e + ElementalBalance.earth e
   + ElementalBalance.air e + ElementalBalance.water e = 100 /\
   ElementalBalance.fire e = 10 * Counts.fire counts /\
   ElementalBalance.earth e = 10 * Counts.earth counts /\
   ElementalBalance.air e = 10 * Counts.air counts /\
   ElementalBalance.water e = 10 * Counts.water counts)%Z.
Proof.
  intros H.
  apply calculateChart_planets in H as (Hnames & Hsigns & _ & Helems).
  assert (length (CalculatedChart.planets c) = 10%nat) as Hlen.
  { rewrite <- (length_map PlanetPosition.name), Hnames. reflexivity. }
  cbn zeta. rewrite Helems, (elementsOf_ten _ Hlen).
  cbn [ElementalBalance.fire ElementalBalance.earth ElementalBalance.air
       ElementalBalance.water].
  destruct (countElements_bounds (CalculatedChart.planets c))
    as (_ & _ & Hsum).
  specialize (Hsum Hsigns). rewrite Hlen in Hsum. unfold countsSum in Hsum.
  repeat split; lia.
Qed.

(* ================================================================== *)
(** ** The layout resolver *)
(* ================================================================== *)

(** *** The search for a free track *)

Lemma firstFree_from_le (fuel : nat) (usedTracks : gset nat) (track : nat) :
  (firstFree_from fuel usedTracks track <= track + fuel)%nat.
Proof.
  revert track. induction fuel as [|fuel IH]; intros track;
    cbn [firstFree_from]; [lia|].
  case_bool_decide; [|lia].
  specialize (IH (S track)). lia.
Qed.

Lemma firstFree_le_size (usedTracks : gset nat) :
  (firstFree usedTracks <= size usedTracks)%nat.
Proof. unfold firstFree. apply (firstFree_from_le _ _ 0). Qed.

Lemma all_below_size (usedTracks : gset nat) (n : nat) :
  (forall u, (u < n)%nat -> u ∈ usedTracks) -> (n <= size usedTracks)%nat.
Proof.
  intros H. rewrite <- (size_set_seq (C := gset nat) 0 n).
  apply subseteq_size. intros u Hu.
  apply elem_of_set_seq in Hu. apply H. lia.
Qed.

Lemma firstFree_from_least (fuel : nat) (usedTracks : gset nat) (track : nat) :
  (forall u, (u < track)%nat -> u ∈ usedTracks) ->
  (size usedTracks <= track + fuel)%nat ->
  (firstFree_from fuel usedTracks track ∉ usedTracks) /\
  (forall u,
     (u < firstFree_from fuel usedTracks track)%nat -> u ∈ usedTracks).
Proof.
  revert track. induction fuel as [|fuel IH]; intros track Hbelow Hsize;
    cbn [firstFree_from].
  - split; [|exact Hbelow]. intros Hin.
    assert (S track <= size usedTracks)%nat; [|lia].
    apply all_below_size. intros u Hu.
    destruct (decide (u = track)) as [->|]; [exact Hin | apply Hbelow; lia].
  - case_bool_decide as Hin; [|split; assumption].
    apply IH; [|lia]. intros u Hu.
    destruct (decide (u = track)) as [->|]; [exact Hin | apply Hbelow; lia].
Qed.

(** The loop stops, on the smallest track that is not in use. *)
Lemma firstFree_least (usedTracks : gset nat) :
  (firstFree usedTracks ∉ usedTracks) /\
  (forall u, (u < firstFree usedTracks)%nat -> u ∈ usedTracks).
Proof. unfold firstFree. apply firstFree_from_least; [lia | lia]. Qed.

(** *** The look-back marks at most four tracks *)

Lemma size_add_track (t : nat) (usedTracks : gset nat) :
  (size ({[ t ]} ∪ usedTracks) <= S (size usedTracks))%nat.
Proof.
  rewrite size_union_alt, size_singleton.
  assert (size (usedTracks ∖ {[ t ]}) <= size usedTracks)%nat as Hsub; [|lia].
  apply subseteq_size. apply subseteq_difference_l. reflexivity.
Qed.

Lemma lookBack_size (withTracks : list Tracked.t) (planet : PlanetPosition.t)
    (i : nat) (minDeg : Q) (usedTracks : gset nat) (j : nat) :
  (size (lookBack withTracks planet i minDeg usedTracks j)
   <= S (size usedTracks))%nat.
Proof.
  unfold lookBack.
  destruct (0 <=? _)%Z; [|lia].
  destruct (withTracks !! _) as [prevProcessed|]; [|lia].
  destruct (JS.lt _ _); [apply size_add_track | lia].
Qed.

Lemma usedTracksOf_size (withTracks : list Tracked.t)
    (planet : PlanetPosition.t) (i : nat) (minDeg : Q) :
  (size (usedTracksOf withTracks planet i minDeg) <= 4)%nat.
Proof.
  unfold usedTracksOf. cbn [fold_left].
  repeat match goal with
  | |- context [lookBack ?w ?p ?i ?m ?u ?j] =>
      lazymatch goal with
      | _ : (size (lookBack w p i m u j) <= _)%nat |- _ => fail
      | _ => pose proof (lookBack_size w p i m u j)
      end
  end.
  rewrite size_empty in *. lia.
Qed.

Lemma usedTracksOf_first (planet : PlanetPosition.t) (minDeg : Q) :
  usedTracksOf [] planet 0 minDeg = ∅.
Proof. reflexivity. Qed.

(** *** The pass over the sorted planets *)

Lemma placePlanet_app (sorted : list PlanetPosition.t) (minDeg : Q)
    (withTracks : list Tracked.t) (i : nat) (planet : PlanetPosition.t) :
  exists t,
    placePlanet sorted minDeg withTracks (i, planet) = withTracks ++ [t] /\
    Tracked.planet t = planet /\ trackAtMost 4 t /\
    (withTracks = [] -> i = 0%nat -> Tracked.track t = 0%nat).
Proof.
  unfold placePlanet. eexists. split; [reflexivity|].
  cbn [Tracked.planet Tracked.track]. split; [reflexivity|]. split.
  - unfold trackAtMost. cbn [Tracked.track].
    pose proof (firstFree_le_size (usedTracksOf withTracks planet i minDeg)).
    pose proof (usedTracksOf_size withTracks planet i minDeg). lia.
  - intros -> ->. reflexivity.
Qed.

Lemma placeAll_from (sorted : list PlanetPosition.t) (minDeg : Q)
    (todo : list PlanetPosition.t) (i : nat) (withTracks : list Tracked.t) :
  let r := fold_left (placePlanet sorted minDeg)
             (combine (seq i (length todo)) todo) withTracks in
  exists added,
    r = withTracks ++ added /\
    map Tracked.planet added = todo /\
    Forall (trackAtMost 4) added /\
    (withTracks = [] -> i = 0%nat ->
     Forall (trackAtMost 0) (firstn 1 added)).
Proof.
  revert i withTracks. induction todo as [|planet todo IH];
    intros i withTracks; cbn zeta.
  - exists []. cbn. rewrite app_nil_r.
    split; [reflexivity|]. split; [reflexivity|]. split; constructor.
  - cbn [length seq combine fold_left].
    destruct (placePlanet_app sorted minDeg withTracks i planet)
      as (t & -> & Hplanet & Htrack & Hfirst).
    destruct (IH (S i) (withTracks ++ [t])) as (added & -> & Hmap & Hall & _).
    exists (t :: added). rewrite <- app_assoc. cbn [app].
    split; [reflexivity|]. split; [cbn [map]; congruence|].
    split; [constructor; assumption|].
    intros Hw Hi. cbn [firstn]. constructor; [|constructor].
    unfold trackAtMost. rewrite (Hfirst Hw Hi). lia.
Qed.

Lemma placeAll_tracks (sorted : list PlanetPosition.t) (minDeg : Q) :
  map Tracked.planet (placeAll sorted minDeg) = sorted /\
  Forall (trackAtMost 4) (placeAll sorted minDeg) /\
  Forall (trackAtMost 0) (firstn 1 (placeAll sorted minDeg)).
Proof.
  unfold placeAll.
  destruct (placeAll_from sorted minDeg sorted 0 [])
    as (added & -> & Hmap & Hall & Hfirst).
  cbn [app]. split; [exact Hmap|]. split; [exact Hall|].
  apply Hfirst; reflexivity.
Qed.

(** *** The wrap-around patch touches the first entry only *)

Lemma wrapAround_cases (withTracks : list Tracked.t) (minDeg : Q) :
  wrapAround withTracks minDeg = withTracks \/
  exists first rest,
    withTracks = first :: rest /\
    wrapAround withTracks minDeg =
      Tracked.setTrack (Tracked.track first + 1) first :: rest.
Proof.
  unfold wrapAround.
  destruct (1 <? length withTracks)%nat; [|left; reflexivity].
  destruct withTracks as [|first rest]; [left; reflexivity|].
  cbn [lookup list_lookup].
  destruct ((first :: rest) !! _) as [last|]; [|left; reflexivity].
  destruct (_ && _); [|left; reflexivity].
  right. exists first, rest. split; reflexivity.
Qed.

Lemma resolveCollisions_bounds (planets : list PlanetPosition.t) (minDeg : Q) :
  let r := resolveCollisions planets minDeg in
  map Tracked.planet r = JS.sort byDegree planets /\
  Forall (trackAtMost 1) (firstn 1 r) /\
  Forall (trackAtMost 4) (tail r).
Proof.
  cbn zeta. unfold resolveCollisions.
  destruct (placeAll_tracks (JS.sort byDegree planets) minDeg)
    as (Hmap & Hall & Hfirst).
  destruct (wrapAround_cases
              (placeAll (JS.sort byDegree planets) minDeg) minDeg)
    as [-> | (first & rest & Heq & ->)].
  - split; [exact Hmap|]. split.
    + eapply List.Forall_impl; [|exact Hfirst].
      intros t Ht. unfold trackAtMost in *. lia.
    + destruct (placeAll _ _) as [|t l]; [constructor|].
      cbn [tail]. inversion Hall; assumption.
  - rewrite Heq in Hmap, Hall, Hfirst.
    split; [exact Hmap|]. cbn [firstn tail] in *. split.
    + constructor; [|constructor].
      inversion Hfirst as [|? ? H0 _]; subst.
      unfold trackAtMost in *. cbn [Tracked.setTrack Tracked.track]. lia.
    + inversion Hall; assumption.
Qed.

(** C10: every track [resolveCollisions] assigns is at most 5, and every
    entry after the first of the sorted order has a track of at most 4;
    the look-back never marks more than four tracks, and the first entry,
    placed on track 0, is the only one the wrap-around patch moves. *)
Theorem tracks_bounded (planets : list PlanetPosition.t) (minDeg : Q) :
  let r := resolveCollisions planets minDeg in
  map Tracked.planet r = JS.sort byDegree planets /\
  Forall (trackAtMost 5) r /\
  Forall (trackAtMost 4) (tail r) /\
  (forall (withTracks : list Tracked.t) (planet : PlanetPosition.t) (i : nat),
     (size (usedTracksOf withTracks planet i minDeg) <= 4)%nat) /\
  Forall (trackAtMost 0)
    (firstn 1 (placeAll (JS.sort byDegree planets) minDeg)) /\
  tail r = tail (placeAll (JS.sort byDegree planets) minDeg).
Proof.
  cbn zeta.
  destruct (resolveCollisions_bounds planets minDeg) as (Hmap & Hfirst & Htail).
  cbn zeta in *.
  split; [exact Hmap|]. split; [|split; [exact Htail|]].
  - destruct (resolveCollisions planets minDeg) as [|t r]; [constructor|].
    cbn [firstn tail] in *. constructor.
    + inversion Hfirst; subst. unfold trackAtMost in *. lia.
    + eapply List.Forall_impl; [|exact Htail].
      intros u Hu. unfold trackAtMost in *. lia.
  - split; [intros; apply usedTracksOf_size|].
    split; [apply placeAll_tracks|].
    unfold resolveCollisions.
    destruct (wrapAround_cases
                (placeAll (JS.sort byDegree planets) minDeg) minDeg)
      as [-> | (first & rest & -> & ->)]; reflexivity.
Qed.

(** C8, as stated, fails: the entity at 6 is exactly 6 away from the one
    at 0, which is not below the threshold, so track 0 is free for it. *)
Lemma five_entities_not_increasing :
  map Tracked.track (resolveCollisions_default fiveEntities)
    = [0; 1; 2; 0; 0]%nat /\
  map Tracked.track (firstn 4 (resolveCollisions_default fiveEntities))
    <> [0; 1; 2; 3]%nat.
Proof.
  split; [vm_compute; reflexivity|].
  vm_compute. discriminate.
Qed.

(** C8, amended: on longitudes 0, 2, 4, 6, 100 with the default minimum
    separation the resolver gives the first four entities tracks 0, 1, 2,
    0, none of them isolated, and the entity at 100 track 0 with the
    isolated flag set. *)
Theorem five_entities_layout :
  tracksAndFlags (resolveCollisions_default fiveEntities) =
    [ (0, 0%nat, false); (2, 1%nat, false); (4, 2%nat, false);
      (6, 0%nat, false); (100, 0%nat, true) ].
Proof. vm_compute. reflexivity. Qed.

(* ================================================================== *)
(** ** The rounding, binary64, and the code's constants *)
(* ================================================================== *)

(** On the samples, [JS.add], [JS.sub], [JS.mul] and [JS.div] give the
    numbers that binary64 addition, subtraction, multiplication and
    division give. *)
Lemma binary64_agrees_with_floats :
  forallb (agrees PrimFloat.add JS.add) binary64_samples = true /\
  forallb (agrees PrimFloat.sub JS.sub) binary64_samples = true /\
  forallb (agrees PrimFloat.mul JS.mul) binary64_samples = true /\
  forallb (agrees PrimFloat.div JS.div) binary64_samples = true.
Proof. repeat split; vm_compute; reflexivity. Qed.

(** Where the rounding shows.  [29.999999999999996 + 360] rounds to 390:
    the longitude just below 30 is given Taurus at degree 0. *)
Lemma getZodiacInfo_just_below_30 :
  let longitude := double 0x1.dffffffffffffp+4 in
  longitude < 30 /\
  normalized longitude == 30 /\
  ZodiacSign.name <$> ZodiacInfo.sign (getZodiacInfo longitude)
    = Some "Taurus"%string /\
  ZodiacInfo.relativeDegree (getZodiacInfo longitude) == 0.
Proof. cbv zeta. repeat split; vm_compute; reflexivity. Qed.

(** [180 - 1e-20] rounds to 180: a longitude falling from 180 to 1e-20
    within the hour is not flagged, though the fall is less than 180. *)
Lemma retrograde_at_180 :
  let L0 := 180 in
  let L1 := double 0x1.79ca10c924223p-67 in
  L1 < L0 /\ L0 - L1 < 180 /\ JS.sub L0 L1 == 180 /\
  retrograde L0 L1 = false.
Proof. cbv zeta. repeat split; vm_compute; reflexivity. Qed.

(** [354 - 1e-20] rounds to 354: the separation is 6, and the pair is a
    Conjunction of orb 6. *)
Lemma aspects_at_354 :
  let b := double 0x1.79ca10c924223p-67 in
  6 < Qmin (Qabs (354 - b)) (360 - Qabs (354 - b)) /\
  separation 354 b == 6 /\
  aspectsOfPair (planetAt "A" 354) (planetAt "B" b) =
    [ SynastryAspect.mk "A" "B" "Conjunction" "" 6 ].
Proof. cbv zeta. repeat split; vm_compute; reflexivity. Qed.

(** [6 - 1e-20] rounds to 6, which is not below the minimum separation:
    the two entries share track 0.  [15 - 1e-20] rounds to 15: the two
    entries are both isolated.  And on 0, 0.9999999999999999 and 355 the
    last two are 6 apart by [getDist] and share track 1. *)
Lemma resolveCollisions_at_the_threshold :
  let tiny := double 0x1.79ca10c924223p-67 in
  let one := double 0x1.fffffffffffffp-1 in
  map Tracked.track
    (resolveCollisions_default [planetAt "A" tiny; planetAt "B" 6])
    = [0; 0]%nat /\
  map Tracked.isIsolated
    (resolveCollisions_default [planetAt "A" tiny; planetAt "B" 15])
    = [true; true] /\
  getDist 355 one == 6 /\
  map Tracked.track
    (resolveCollisions_default
       [planetAt "A" 0; planetAt "B" one; planetAt "C" 355])
    = [0; 1; 1]%nat.
Proof. cbv zeta. repeat split; vm_compute; reflexivity. Qed.


(** For each possible count of ten bodies, rounding the binary64 value of
    [count / 10 * 100] gives the percentage [percentage] takes from the
    exact quotient. *)
Lemma binary64_percentage_agrees :
  map binary64_percentage [0; 1; 2; 3; 4; 5; 6; 7; 8; 9; 10]%Z =
  map (fun count => Some (percentage count 10))
    [0; 1; 2; 3; 4; 5; 6; 7; 8; 9; 10]%Z.
Proof. vm_compute. reflexivity. Qed.

(** In binary64 [ORB * 0.7] is a little under 4.2.  A separation between
    32 and 128 is a multiple of 2^-47 and its distance to 60 is exact, and
    no multiple of 2^-47 lies above the binary64 bound and within 4.2: the
    Sextile test gives the same answer with either bound. *)
Lemma binary64_sextile_orb_agrees :
  binary64_sextile_orb = Some (4728779608739020 # 1125899906842624) /\
  (4728779608739020 # 1125899906842624) < ORB * (7 # 10) /\
  (forall k : Z,
     (k # 140737488355328) <= (4728779608739020 # 1125899906842624) <->
     (k # 140737488355328) <= ORB * (7 # 10)).
Proof.
  split; [vm_compute; reflexivity|]. split; [reflexivity|].
  intros k. change (ORB * (7 # 10)) with (42 # 10).
  unfold Qle; cbn [Qnum Qden]. lia.
Qed.

(* ================================================================== *)
(** ** More on the signs and degrees of a longitude *)
(* ================================================================== *)

(** For a non-negative dividend and a positive divisor, [%] is the
    remainder of the floor division. *)
Lemma rem_nonneg (a b : Q) :
  0 <= a -> 0 < b ->
  JS.rem a b == a - b * inject_Z (Qfloor (a / b)) /\
  0 <= JS.rem a b /\ JS.rem a b < b.
Proof.
  intros Ha Hb. unfold JS.rem.
  assert (0 <= a / b) as Hq by (apply Qle_shift_div_l; lra).
  rewrite (trunc_nonneg _ Hq).
  pose proof (Qfloor_le (a / b)) as Hf.
  pose proof (Qlt_floor (a / b)) as Hg.
  rewrite inject_Z_plus in Hg. change (inject_Z 1) with 1 in Hg.
  assert (a == b * (a / b)) as Hdiv by (field; lra).
  set (q := a / b) in *. generalize dependent (inject_Z (Qfloor q)).
  intros k Hf Hg. split; [reflexivity|]. split; nra.
Qed.

(** A negative dividend gives a remainder in (-360, 0]. *)
Lemma rem360_negative (a : Q) :
  a < 0 -> -360 < JS.rem a 360 /\ JS.rem a 360 <= 0.
Proof.
  intros Ha. unfold JS.rem, JS.trunc.
  destruct (Qle_bool 0 (a / 360)) eqn:Hb.
  - apply Qle_bool_iff in Hb.
    assert (a / 360 < 0) as Hneg by (apply Qlt_shift_div_r; lra).
    exfalso. lra.
  - pose proof (Qle_ceiling (a / 360)) as Hc.
    pose proof (Qceiling_lt (a / 360)) as Hd.
    unfold Zminus in Hd. rewrite inject_Z_plus in Hd.
    change (inject_Z (Z.opp 1)) with (-1) in Hd.
    assert (a == 360 * (a / 360)) as Hdiv by field.
    set (q := a / 360) in *. generalize dependent (inject_Z (Qceiling q)).
    intros k Hc Hd. split; lra.
Qed.

Lemma ZODIAC_SIGNS_startDegree (i : nat) (z : ZodiacSign.t) :
  ZODIAC_SIGNS !! i = Some z ->
  ZodiacSign.startDegree z = inject_Z (30 * Z.of_nat i).
Proof.
  intros H.
  do 12 (destruct i as [|i]; [injection H as <-; reflexivity|]).
  discriminate H.
Qed.

Lemma Qfloor_nonneg_inv (x : Q) : (0 <= Qfloor x)%Z -> 0 <= x.
Proof.
  intros H. pose proof (Qfloor_le x) as Hf.
  apply (Qle_trans _ (inject_Z (Qfloor x))); [|exact Hf].
  change 0 with (inject_Z 0). rewrite <- Zle_Qle. exact H.
Qed.

Lemma rem360_range (a : Q) : -360 < JS.rem a 360 /\ JS.rem a 360 < 360.
Proof.
  destruct (Qlt_le_dec a 0) as [Hneg|Hpos].
  - destruct (rem360_negative a Hneg). split; lra.
  - destruct (rem360_nonneg a Hpos) as (_ & _ & _ & H0 & H1). split; lra.
Qed.

(** The rounding of a power of two is itself. *)
Lemma binary64_pow2 (e : Z) : JS.binary64 (JS.pow2 e) == JS.pow2 e.
Proof.
  apply (binary64_exact _ 1 e).
  - apply pow2_pos.
  - change (inject_Z 1) with 1. ring.
  - apply pow2_lt. lia.
Qed.

(** A rounded number is a multiple of the unit in the last place of every
    binade at or below its own. *)
Lemma binary64_on_grid (w : Q) (e : Z) :
  JS.pow2 e <= JS.binary64 w ->
  exists j : Z, JS.binary64 w == inject_Z j * JS.pow2 (e - 52).
Proof.
  intros H. destruct (Qlt_le_dec w (JS.pow2 e)) as [Hlt | Hge].
  - exists (2 ^ 52)%Z.
    assert (JS.binary64 w <= JS.pow2 e).
    { rewrite <- (binary64_pow2 e). apply binary64_mono. lra. }
    assert (E : JS.binary64 w == JS.pow2 e) by lra.
    rewrite E. rewrite pow2_Z by lia. rewrite <- pow2_add.
    replace (52 + (e - 52))%Z with e by ring. reflexivity.
  - apply binary64_multiple. exact Hge.
Qed.

Lemma normalized_on_grid (longitude : Q) (e : Z) :
  JS.pow2 e <= normalized longitude ->
  exists j : Z, normalized longitude == inject_Z j * JS.pow2 (e - 52).
Proof.
  intros He. unfold normalized in *.
  pose proof (pow2_pos e) as Hpos.
  destruct (Qlt_le_dec (JS.add longitude 360) 0) as [Hneg | Hnn].
  { destruct (rem360_negative _ Hneg) as [_ H]. exfalso. lra. }
  destruct (rem360_nonneg (JS.add longitude 360) Hnn)
    as (k & Hk & Hr & Hn0 & Hn1).
  destruct (Z.eq_dec k 0%Z) as [-> | Hk0].
  - assert (E : JS.rem (JS.add longitude 360) 360 == JS.add longitude 360).
    { rewrite Hr. change (inject_Z 0) with 0. ring. }
    destruct (binary64_on_grid (longitude + 360) e) as [j Hj].
    { fold (JS.add longitude 360). rewrite <- E. exact He. }
    exists j. rewrite E. exact Hj.
  - assert (1 <= inject_Z k).
    { change 1 with (inject_Z 1). rewrite <- Zle_Qle. lia. }
    assert (He8 : (e <= 8)%Z).
    { assert (e < 9)%Z; [| lia]. apply pow2_lt_inv.
      assert (JS.pow2 9 == 512) by reflexivity. lra. }
    destruct (binary64_on_grid (longitude + 360) 8) as [j Hj].
    { fold (JS.add longitude 360).
      assert (JS.pow2 8 == 256) by reflexivity. lra. }
    fold (JS.add longitude 360) in Hj.
    exists ((j - 360 * k * 2 ^ 44) * 2 ^ (8 - e))%Z.
    assert (Ei : inject_Z ((j - 360 * k * 2 ^ 44) * 2 ^ (8 - e))
                 == (inject_Z j - 360 * inject_Z k * inject_Z (2 ^ 44))
                    * inject_Z (2 ^ (8 - e))).
    { unfold Zminus.
      rewrite inject_Z_mult, inject_Z_plus, inject_Z_opp, !inject_Z_mult.
      change (inject_Z 360) with 360. ring. }
    rewrite Ei, Hr, Hj. rewrite (pow2_Z (8 - e)) by lia.
    assert (Eu : JS.pow2 (8 - 52) == JS.pow2 (8 - e) * JS.pow2 (e - 52)).
    { rewrite <- pow2_add.
      replace (8 - e + (e - 52))%Z with (8 - 52)%Z by ring. reflexivity. }
    assert (E44 : inject_Z (2 ^ 44) * JS.pow2 (8 - 52) == 1) by reflexivity.
    rewrite Eu in E44 |- *. clear - E44.
    revert E44. generalize (JS.pow2 (e - 52)). intros u.
    generalize (JS.pow2 (8 - e)). intros v.
    generalize (inject_Z (2 ^ 44)). intros t E44.
    transitivity (inject_Z j * (v * u) - 360 * inject_Z k * (t * (v * u)));
      [rewrite E44; ring | ring].
Qed.

(** A number on the grid below [c] is at most the grid point before
    [c]. *)
Lemma below_on_grid (n c : Q) (e m : Z) :
  (forall e' : Z, JS.pow2 e' <= n ->
     exists j : Z, n == inject_Z j * JS.pow2 (e' - 52)) ->
  c == inject_Z m * JS.pow2 (e - 52) -> JS.pow2 e < c -> n < c ->
  n <= c - JS.pow2 (e - 52).
Proof.
  intros Hgrid Hc He Hn.
  pose proof (pow2_pos (e - 52)) as Hu.
  assert (E : JS.pow2 e == inject_Z (2 ^ 52) * JS.pow2 (e - 52)).
  { rewrite pow2_Z by lia. rewrite <- pow2_add.
    replace (52 + (e - 52))%Z with e by ring. reflexivity. }
  assert (Hstep : forall j : Z,
            inject_Z j * JS.pow2 (e - 52) < c ->
            inject_Z j * JS.pow2 (e - 52) <= c - JS.pow2 (e - 52)).
  { intros j Hj. rewrite Hc in Hj |- *.
    apply Qmult_lt_r in Hj; [| exact Hu]. rewrite <- Zlt_Qlt in Hj.
    assert (Hle : inject_Z j <= inject_Z (m - 1))
      by (rewrite <- Zle_Qle; lia).
    unfold Zminus in Hle. rewrite inject_Z_plus in Hle.
    change (inject_Z (Z.opp 1)) with (-1) in Hle.
    apply (Qmult_le_compat_r _ _ (JS.pow2 (e - 52))) in Hle;
      [| apply Qlt_le_weak; exact Hu].
    lra. }
  destruct (Qlt_le_dec n (JS.pow2 e)) as [Hlt | Hge].
  - rewrite E in He, Hlt. specialize (Hstep _ He). lra.
  - destruct (Hgrid e Hge) as [j Hj]. rewrite Hj in Hn |- *.
    apply Hstep. exact Hn.
Qed.

(** The rounding of the quotient [normalized / 30] never reaches the
    next whole number: [Math.floor] gives the sign index of the exact
    quotient. *)
Lemma quotient_floor (longitude : Q) :
  0 <= normalized longitude ->
  JS.Math_floor (JS.div (normalized longitude) 30)
  = JS.Math_floor (normalized longitude / 30).
Proof.
  intros Hn0. unfold JS.Math_floor, JS.div.
  pose proof (normalized_on_grid longitude) as Hgrid.
  assert (normalized longitude < 360) as Hn1
    by (unfold normalized; apply rem360_range).
  set (n := normalized longitude) in *.
  pose proof (Qfloor_le (n / 30)) as Hf. pose proof (Qlt_floor (n / 30)) as Hg.
  assert (Hq0 : 0 <= n / 30) by (apply Qle_shift_div_l; lra).
  assert (Hq1 : n / 30 < 12) by (apply Qlt_shift_div_r; lra).
  assert (Hf0 : (0 <= Qfloor (n / 30))%Z)
    by (apply (Qfloor_resp_le 0 (n / 30)); exact Hq0).
  assert (Hf1 : (Qfloor (n / 30) < 12)%Z).
  { assert (inject_Z (Qfloor (n / 30)) < inject_Z 12) as Hlt
      by (eapply Qle_lt_trans; [exact Hf | exact Hq1]).
    rewrite <- Zlt_Qlt in Hlt. exact Hlt. }
  assert (Hdiv : n == 30 * (n / 30)) by field.
  remember (Qfloor (n / 30)) as f eqn:Ef. clear Ef.
  apply Qfloor_unique.
  - destruct (Z.eq_dec f 0%Z) as [-> | Hne].
    + apply binary64_nonneg. exact Hq0.
    + rewrite <- (binary64_integer f) by lia. apply binary64_mono. exact Hf.
  - assert (Hup : forall (e m : Z),
              30 * inject_Z (f + 1) == inject_Z m * JS.pow2 (e - 52) ->
              JS.pow2 e < 30 * inject_Z (f + 1) ->
              JS.binary64
                ((30 * inject_Z (f + 1) - JS.pow2 (e - 52)) / 30)
              < inject_Z (f + 1) ->
              JS.binary64 (n / 30) < inject_Z (f + 1)).
    { intros e m Hc He Hv.
      assert (n <= 30 * inject_Z (f + 1) - JS.pow2 (e - 52)) as Hle.
      { apply (below_on_grid n _ e m Hgrid Hc He). lra. }
      eapply Qle_lt_trans; [| exact Hv]. apply binary64_mono.
      apply Qmult_le_compat_r; [exact Hle | discriminate]. }
    assert (f = 0 \/ f = 1 \/ f = 2 \/ f = 3 \/ f = 4 \/ f = 5 \/ f = 6 \/
            f = 7 \/ f = 8 \/ f = 9 \/ f = 10 \/ f = 11)%Z as Hcases by lia.
    clear - Hup Hcases.
    repeat (destruct Hcases as [Hc | Hcases]; [subst f | ]); [.. | subst f].
    + apply (Hup 4%Z (30 * 2 ^ 48)%Z); vm_compute; reflexivity.
    + apply (Hup 5%Z (60 * 2 ^ 47)%Z); vm_compute; reflexivity.
    + apply (Hup 6%Z (90 * 2 ^ 46)%Z); vm_compute; reflexivity.
    + apply (Hup 6%Z (120 * 2 ^ 46)%Z); vm_compute; reflexivity.
    + apply (Hup 7%Z (150 * 2 ^ 45)%Z); vm_compute; reflexivity.
    + apply (Hup 7%Z (180 * 2 ^ 45)%Z); vm_compute; reflexivity.
    + apply (Hup 7%Z (210 * 2 ^ 45)%Z); vm_compute; reflexivity.
    + apply (Hup 7%Z (240 * 2 ^ 45)%Z); vm_compute; reflexivity.
    + apply (Hup 8%Z (270 * 2 ^ 44)%Z); vm_compute; reflexivity.
    + apply (Hup 8%Z (300 * 2 ^ 44)%Z); vm_compute; reflexivity.
    + apply (Hup 8%Z (330 * 2 ^ 44)%Z); vm_compute; reflexivity.
    + apply (Hup 8%Z (360 * 2 ^ 44)%Z); vm_compute; reflexivity.
Qed.

Lemma signIndex_nonneg (n : Q) :
  (0 <= JS.Math_floor (JS.div n 30))%Z -> 0 <= n.
Proof.
  intros H. apply Qnot_lt_le. intros Hneg.
  assert (JS.div n 30 < 0) as Hq.
  { apply binary64_negative. apply Qlt_shift_div_r; lra. }
  pose proof (Qfloor_le (JS.div n 30)) as Hf.
  assert (inject_Z (JS.Math_floor (JS.div n 30)) < inject_Z 0) as Hlt
    by (unfold JS.Math_floor; change (inject_Z 0) with 0; lra).
  rewrite <- Zlt_Qlt in Hlt. lia.
Qed.

(** Whenever [getZodiacInfo] finds a sign, the normalised longitude is in
    [0, 360), the degree within the sign is in [0, 30), and the sign's
    start plus that degree gives the normalised longitude back. *)
Lemma getZodiacInfo_found (longitude : Q) (z : ZodiacSign.t) :
  ZodiacInfo.sign (getZodiacInfo longitude) = Some z ->
  let info := getZodiacInfo longitude in
  (0 <= normalized longitude /\ normalized longitude < 360) /\
  (0 <= ZodiacInfo.relativeDegree info /\
   ZodiacInfo.relativeDegree info < 30) /\
  ZodiacSign.startDegree z + ZodiacInfo.relativeDegree info
    == normalized longitude.
Proof.
  unfold getZodiacInfo. cbn [ZodiacInfo.sign ZodiacInfo.relativeDegree].
  unfold JS.index.
  destruct (JS.Math_floor (JS.div (normalized longitude) 30) <? 0)%Z
    eqn:Hneg; [discriminate|].
  apply Z.ltb_ge in Hneg.
  rewrite (quotient_floor longitude (signIndex_nonneg _ Hneg)) in Hneg |- *.
  unfold JS.Math_floor in *. set (n := normalized longitude) in *.
  intros Hz.
  pose proof (lookup_lt_Some _ _ _ Hz) as Hlt.
  change (length ZODIAC_SIGNS) with 12%nat in Hlt.
  rewrite (ZODIAC_SIGNS_startDegree _ _ Hz).
  rewrite Z2Nat.id by exact Hneg.
  assert (0 <= n) as Hn.
  { assert (0 <= n / 30) as Hq by (apply Qfloor_nonneg_inv; exact Hneg).
    assert (n == 30 * (n / 30)) as -> by field. lra. }
  destruct (rem_nonneg n 30 Hn) as (Heq & Hlo & Hhi); [reflexivity|].
  assert (Qfloor (n / 30) < 12)%Z as Hi by lia.
  pose proof (Qfloor_le (n / 30)) as Hf.
  pose proof (Qlt_floor (n / 30)) as Hg.
  assert (inject_Z (Qfloor (n / 30) + 1) <= 12) as H12.
  { change 12 with (inject_Z 12). rewrite <- Zle_Qle. lia. }
  assert (n == 30 * (n / 30)) as Hdiv by field.
  rewrite inject_Z_mult. change (inject_Z 30) with 30.
  cbn zeta. split; [split; [exact Hn | lra]|].
  split; [split; assumption|]. rewrite Heq. ring.
Qed.

(** From -360 on, the lookup of the sign is in range. *)
Lemma getZodiacInfo_total (longitude : Q) :
  -360 <= longitude ->
  exists z, ZodiacInfo.sign (getZodiacInfo longitude) = Some z.
Proof.
  intros Hlo. unfold getZodiacInfo. cbn [ZodiacInfo.sign].
  unfold JS.index.
  destruct (rem360_nonneg (JS.add longitude 360))
    as (_ & _ & _ & Hn0 & Hn1); [apply add_360_nonneg; exact Hlo |].
  fold (normalized longitude) in Hn0, Hn1.
  rewrite (quotient_floor longitude Hn0). unfold JS.Math_floor.
  set (n := normalized longitude) in *.
  assert (0 <= n / 30) as Hq0 by (apply Qle_shift_div_l; lra).
  assert (n / 30 < 12) as Hq1 by (apply Qlt_shift_div_r; lra).
  assert (0 <= Qfloor (n / 30))%Z as Hf0
    by (apply (Qfloor_resp_le 0 (n / 30)); exact Hq0).
  assert (Qfloor (n / 30) < 12)%Z as Hf1.
  { pose proof (Qfloor_le (n / 30)) as Hf.
    assert (inject_Z (Qfloor (n / 30)) < inject_Z 12) as Hlt
      by (eapply Qle_lt_trans; [exact Hf | exact Hq1]).
    rewrite <- Zlt_Qlt in Hlt. exact Hlt. }
  destruct (_ <? 0)%Z eqn:Hneg; [apply Z.ltb_lt in Hneg; lia|].
  apply lookup_lt_is_Some_2.
  change (length ZODIAC_SIGNS) with 12%nat. lia.
Qed.

(** X1: for every longitude not below -360, [getZodiacInfo] finds one of
    the twelve signs, the degree within the sign is in [0, 30), and the
    start of the sign plus that degree is the normalised longitude, the
    rounded sum [longitude + 360] modulo 360. *)
Theorem getZodiacInfo_round_trip (longitude : Q) :
  -360 <= longitude ->
  exists (i : nat) (z : ZodiacSign.t),
    ZODIAC_SIGNS !! i = Some z /\
    ZodiacInfo.sign (getZodiacInfo longitude) = Some z /\
    0 <= ZodiacInfo.relativeDegree (getZodiacInfo longitude) /\
    ZodiacInfo.relativeDegree (getZodiacInfo longitude) < 30 /\
    ZodiacSign.startDegree z
      + ZodiacInfo.relativeDegree (getZodiacInfo longitude)
      == normalized longitude.
Proof.
  intros Hlo.
  destruct (getZodiacInfo_total longitude Hlo) as [z Hz].
  destruct (getZodiacInfo_sign _ _ Hz) as [i Hi].
  destruct (getZodiacInfo_found _ _ Hz) as (_ & (Hr0 & Hr1) & Hsum).
  exists i, z. repeat split; assumption.
Qed.

Lemma getZodiacInfo_round_trip_witness :
  exists (i : nat) (z : ZodiacSign.t),
    ZODIAC_SIGNS !! i = Some z /\
    ZodiacInfo.sign (getZodiacInfo 95) = Some z /\
    0 <= ZodiacInfo.relativeDegree (getZodiacInfo 95) /\
    ZodiacInfo.relativeDegree (getZodiacInfo 95) < 30 /\
    ZodiacSign.startDegree z + ZodiacInfo.relativeDegree (getZodiacInfo 95)
      == normalized 95.
Proof. apply (getZodiacInfo_round_trip 95). discriminate. Defined.



(* ================================================================== *)
(** ** More on the chart *)
(* ================================================================== *)

Lemma ZODIAC_SIGNS_name_inj (i j : nat) (z1 z2 : ZodiacSign.t) :
  ZODIAC_SIGNS !! i = Some z1 -> ZODIAC_SIGNS !! j = Some z2 ->
  ZodiacSign.name z1 = ZodiacSign.name z2 -> i = j.
Proof.
  intros H1 H2 Hn.
  apply signIndexOf_position in H1, H2. rewrite Hn in H1. lia.
Qed.

(** What [calculateChart] went through when it returned. *)
Lemma calculateChart_inv {M : MathLib} {E : AstronomyEngine}
    (date : Date) (lat lon : Q) (c : CalculatedChart.t) :
  calculateChart date lat lon = JS.Return c ->
  exists (ascDegree : Q) (ascSign : ZodiacSign.t) (i : nat),
    calculateAscendant date lat lon = JS.Return ascDegree /\
    ZodiacInfo.sign (getZodiacInfo ascDegree) = Some ascSign /\
    ZODIAC_SIGNS !! i = Some ascSign /\
    Forall2 (fun b p => planetOf date (Z.of_nat i) b = JS.Return p)
      BODIES (CalculatedChart.planets c) /\
    CalculatedChart.rising c =
      Rising.mk (ZodiacSign.name ascSign) (ZodiacSign.symbol ascSign)
        ascDegree /\
    CalculatedChart.bigThree c =
      BigThree.mk
        (signText (findPlanet "Sun" (CalculatedChart.planets c)))
        (signText (findPlanet "Moon" (CalculatedChart.planets c)))
        (ZodiacSign.name ascSign).
Proof.
  unfold calculateChart. intros H.
  destruct (calculateAscendant date lat lon) as [ascDegree|]; [|discriminate H].
  cbn [JS.bind] in H.
  destruct (ZodiacInfo.sign (getZodiacInfo ascDegree)) as [ascSign|] eqn:Hasc;
    [|discriminate H].
  cbn [JS.deref JS.bind] in H.
  destruct (JS.mapM _ BODIES) as [planets|] eqn:Hmap; [|discriminate H].
  cbn [JS.bind] in H. injection H as <-.
  apply mapM_Forall2 in Hmap.
  destruct (getZodiacInfo_sign _ _ Hasc) as [i Hi].
  rewrite (signIndexOf_position i ascSign Hi) in Hmap.
  exists ascDegree, ascSign, i. repeat split; assumption.
Qed.

(** X3: in every chart [calculateChart] returns, a planet is in house 1
    exactly when it is in the rising sign. *)
Theorem rising_sign_is_first_house {M : MathLib} {E : AstronomyEngine}
    (date : Date) (lat lon : Q) (c : CalculatedChart.t) :
  calculateChart date lat lon = JS.Return c ->
  Forall (fun p => PlanetPosition.house p = 1%Z <->
                   PlanetPosition.sign p
                     = Rising.sign (CalculatedChart.rising c))
    (CalculatedChart.planets c).
Proof.
  intros H.
  apply calculateChart_inv in H
    as (ascDegree & ascSign & i & _ & _ & Hi & Hplanets & -> & _).
  cbn [Rising.sign].
  pose proof (lookup_lt_Some _ _ _ Hi) as Hlt.
  change (length ZODIAC_SIGNS) with 12%nat in Hlt.
  induction Hplanets as [|b p bs ps Hp _ IH]; constructor; [|exact IH].
  apply planetOf_inv in Hp as (longitude & elonNext & sign & Hsign & ->).
  cbn [PlanetPosition.house PlanetPosition.sign].
  destruct (getZodiacInfo_sign _ _ Hsign) as [j Hj].
  rewrite (signIndexOf_position j sign Hj).
  pose proof (lookup_lt_Some _ _ _ Hj) as Hjlt.
  change (length ZODIAC_SIGNS) with 12%nat in Hjlt.
  rewrite house_cases by lia. split.
  - intros Hh. assert (j = i) as ->.
    { destruct (Z.of_nat i <=? Z.of_nat j)%Z eqn:Hle;
        [apply Z.leb_le in Hle | apply Z.leb_gt in Hle]; lia. }
    congruence.
  - intros Hn. rewrite (ZODIAC_SIGNS_name_inj j i sign ascSign Hj Hi Hn).
    rewrite Z.leb_refl. lia.
Qed.

Lemma rising_sign_is_first_house_witness :
  exists c,
    calculateChart (M := sampleMath) (E := sampleEngine) 0%Z 45 10
      = JS.Return c /\
    Forall (fun p => PlanetPosition.house p = 1%Z <->
                     PlanetPosition.sign p
                       = Rising.sign (CalculatedChart.rising c))
      (CalculatedChart.planets c).
Proof.
  eexists. split; [vm_compute; reflexivity|].
  eapply (rising_sign_is_first_house
            (M := sampleMath) (E := sampleEngine) 0%Z 45 10).
  vm_compute. reflexivity.
Defined.

(** X4: every planet of a returned chart carries the name and symbol of
    one of the twelve signs, a degree within the sign in [0, 30), and the
    start of that sign plus the degree within it is the planet's
    longitude normalised (the rounded sum [degree + 360] modulo 360),
    which lies in [0, 360). *)
Theorem chart_planet_sign_and_degree {M : MathLib} {E : AstronomyEngine}
    (date : Date) (lat lon : Q) (c : CalculatedChart.t) :
  calculateChart date lat lon = JS.Return c ->
  Forall (fun p =>
    exists (i : nat) (z : ZodiacSign.t),
      ZODIAC_SIGNS !! i = Some z /\
      PlanetPosition.sign p = ZodiacSign.name z /\
      PlanetPosition.signSymbol p = ZodiacSign.symbol z /\
      0 <= PlanetPosition.relativeDegree p /\
      PlanetPosition.relativeDegree p < 30 /\
      ZodiacSign.startDegree z + PlanetPosition.relativeDegree p
        == normalized (PlanetPosition.degree p) /\
      0 <= normalized (PlanetPosition.degree p) /\
      normalized (PlanetPosition.degree p) < 360)
    (CalculatedChart.planets c).
Proof.
  intros H.
  apply calculateChart_inv in H
    as (ascDegree & ascSign & i & _ & _ & _ & Hplanets & _ & _).
  induction Hplanets as [|b p bs ps Hp _ IH]; constructor; [|exact IH].
  apply planetOf_inv in Hp as (longitude & elonNext & sign & Hsign & ->).
  cbn [PlanetPosition.sign PlanetPosition.signSymbol
       PlanetPosition.relativeDegree PlanetPosition.degree].
  destruct (getZodiacInfo_sign _ _ Hsign) as [j Hj].
  destruct (getZodiacInfo_found _ _ Hsign) as ((Hn0 & Hn1) & (Hr0 & Hr1) & Hs).
  exists j, sign. repeat split; assumption.
Qed.

Lemma chart_planet_sign_and_degree_witness :
  exists c,
    calculateChart (M := sampleMath) (E := sampleEngine) 0%Z 45 10
      = JS.Return c /\
    Forall (fun p =>
      exists (i : nat) (z : ZodiacSign.t),
        ZODIAC_SIGNS !! i = Some z /\
        PlanetPosition.sign p = ZodiacSign.name z /\
        PlanetPosition.signSymbol p = ZodiacSign.symbol z /\
        0 <= PlanetPosition.relativeDegree p /\
        PlanetPosition.relativeDegree p < 30 /\
        ZodiacSign.startDegree z + PlanetPosition.relativeDegree p
          == normalized (PlanetPosition.degree p) /\
        0 <= normalized (PlanetPosition.degree p) /\
        normalized (PlanetPosition.degree p) < 360)
      (CalculatedChart.planets c).
Proof.
  eexists. split; [vm_compute; reflexivity|].
  eapply (chart_planet_sign_and_degree
            (M := sampleMath) (E := sampleEngine) 0%Z 45 10).
  vm_compute. reflexivity.
Defined.

(** X5: the big three of a returned chart are the sign of the first
    planet, the Sun, the sign of the second, the Moon, and the rising
    sign: the two look-ups by name always find their planet. *)
Theorem chart_big_three {M : MathLib} {E : AstronomyEngine}
    (date : Date) (lat lon : Q) (c : CalculatedChart.t) :
  calculateChart date lat lon = JS.Return c ->
  exists (pSun pMoon : PlanetPosition.t),
    CalculatedChart.planets c !! 0%nat = Some pSun /\
    CalculatedChart.planets c !! 1%nat = Some pMoon /\
    PlanetPosition.name pSun = "Sun" /\
    PlanetPosition.name pMoon = "Moon" /\
    BigThree.sun (CalculatedChart.bigThree c) = PlanetPosition.sign pSun /\
    BigThree.moon (CalculatedChart.bigThree c) = PlanetPosition.sign pMoon /\
    BigThree.rising (CalculatedChart.bigThree c)
      = Rising.sign (CalculatedChart.rising c).
Proof.
  intros H.
  apply calculateChart_inv in H
    as (ascDegree & ascSign & i & _ & _ & _ & Hplanets & -> & ->).
  unfold BODIES in Hplanets.
  inversion Hplanets as [|b1 pSun bs1 ps1 Hsun Hrest1]; subst.
  inversion Hrest1 as [|b2 pMoon bs2 ps2 Hmoon Hrest2]; subst.
  apply planetOf_sign in Hsun as [Hsun _].
  apply planetOf_sign in Hmoon as [Hmoon _].
  exists pSun, pMoon.
  cbn [BigThree.sun BigThree.moon BigThree.rising Rising.sign].
  unfold findPlanet. cbn [List.find]. rewrite Hsun, Hmoon. cbn.
  repeat split; reflexivity.
Qed.

Lemma chart_big_three_witness :
  exists c,
    calculateChart (M := sampleMath) (E := sampleEngine) 0%Z 45 10
      = JS.Return c /\
    exists (pSun pMoon : PlanetPosition.t),
      CalculatedChart.planets c !! 0%nat = Some pSun /\
      CalculatedChart.planets c !! 1%nat = Some pMoon /\
      PlanetPosition.name pSun = "Sun" /\
      PlanetPosition.name pMoon = "Moon" /\
      BigThree.sun (CalculatedChart.bigThree c) = PlanetPosition.sign pSun /\
      BigThree.moon (CalculatedChart.bigThree c)
        = PlanetPosition.sign pMoon /\
      BigThree.rising (CalculatedChart.bigThree c)
        = Rising.sign (CalculatedChart.rising c).
Proof.
  eexists. split; [vm_compute; reflexivity|].
  eapply (chart_big_three (M := sampleMath) (E := sampleEngine) 0%Z 45 10).
  vm_compute. reflexivity.
Defined.

Lemma mapM_returns {A B : Type} (f : A -> JS.Result B) (xs : list A) :
  (forall x, In x xs -> exists y, f x = JS.Return y) ->
  exists ys, JS.mapM f xs = JS.Return ys.
Proof.
  induction xs as [|x xs IH]; intros H; cbn [JS.mapM].
  - eexists. reflexivity.
  - destruct (H x) as [y Hy]; [left; reflexivity|].
    destruct IH as [ys Hys]; [intros x' Hx'; apply H; right; exact Hx'|].
    rewrite Hy, Hys. eexists. reflexivity.
Qed.

Lemma planetOf_returns {E : AstronomyEngine} (date : Date) (ascSignIndex : Z)
    (bodyName : string) (L0 L1 : Q) :
  bodyObserved date bodyName L0 L1 -> -360 <= L0 ->
  exists p, planetOf date ascSignIndex bodyName = JS.Return p.
Proof.
  intros (time & timeNext & vec & vecNext & H1 & H2 & H3 & H4 & H5 & H6) Hlo.
  unfold planetOf.
  rewrite H1. cbn [JS.bind]. rewrite H2. cbn [JS.bind].
  rewrite H3. cbn [JS.bind]. rewrite H4. cbn [JS.bind].
  rewrite H5. cbn [JS.bind]. rewrite H6. cbn [JS.bind].
  destruct (getZodiacInfo_total L0 Hlo) as [z ->].
  cbn [JS.deref JS.bind]. eexists. reflexivity.
Qed.

(** X6: [calculateChart] has no failure of its own on the engine's normal
    answers: when the observer is built, the sidereal time is given and
    each of the ten bodies is observed at a longitude not below -360, it
    returns a chart.  In particular the rising sign is always found,
    whatever [Math.atan2] returns. *)
Theorem calculateChart_returns {M : MathLib} {E : AstronomyEngine}
    (date : Date) (lat lon gmst : Q) :
  Astronomy_Observer lat lon 0 = JS.Return tt ->
  Astronomy_SiderealTime date = JS.Return gmst ->
  (forall bodyName, In bodyName BODIES ->
     exists L0 L1, bodyObserved date bodyName L0 L1 /\ -360 <= L0) ->
  exists c, calculateChart date lat lon = JS.Return c.
Proof.
  intros Hobs Hgmst Hbodies. unfold calculateChart, calculateAscendant.
  rewrite Hobs, Hgmst. cbn [JS.bind].
  match goal with
  | |- context [getZodiacInfo (JS.rem ?a 360)] =>
      destruct (rem360_range a) as [Hlo _];
      destruct (getZodiacInfo_total (JS.rem a 360)) as [z Hz]; [lra|]
  end.
  rewrite Hz. cbn [JS.deref JS.bind].
  destruct (mapM_returns
              (planetOf date (signIndexOf (ZodiacSign.name z))) BODIES)
    as [planets Hplanets].
  { intros bodyName Hin.
    destruct (Hbodies bodyName Hin) as (L0 & L1 & Hobserved & HL0).
    eapply planetOf_returns; eassumption. }
  rewrite Hplanets. cbn [JS.bind]. eexists. reflexivity.
Qed.

Lemma calculateChart_returns_witness :
  exists c,
    calculateChart (M := sampleMath) (E := sampleEngine) 0%Z 45 10
      = JS.Return c.
Proof.
  eapply (calculateChart_returns (M := sampleMath) (E := sampleEngine)
            0%Z 45 10); [reflexivity | reflexivity |].
  intros bodyName Hin. do 2 eexists. split.
  - exists 0%Z, 3600000%Z, (bodyName, 0%Z), (bodyName, 3600000%Z).
    repeat split; reflexivity.
  - cbn. unfold sampleRate.
    repeat (destruct (String.eqb bodyName _)); discriminate.
Defined.

(* ================================================================== *)
(** ** More on the aspects *)
(* ================================================================== *)

Lemma separation_sym (a b : Q) : separation a b = separation b a.
Proof.
  unfold separation. rewrite (abs_sub_sym a b). reflexivity.
Qed.

(** The five tests of the chain, one at a time. *)
Lemma abs_le_iff (x c r : Q) :
  JS.le (JS.Math_abs (x - c)) r = true <-> c - r <= x /\ x <= c + r.
Proof.
  unfold JS.le, JS.Math_abs. rewrite Qle_bool_iff, Qabs_Qle_condition.
  split; intros [H1 H2]; split; lra.
Qed.

Lemma abs_le_false (x c r : Q) :
  JS.le (JS.Math_abs (x - c)) r = false -> x < c - r \/ c + r < x.
Proof.
  intros H.
  destruct (Qlt_le_dec x (c - r)) as [H1|H1]; [left; exact H1|].
  destruct (Qlt_le_dec (c + r) x) as [H2|H2]; [right; exact H2|].
  assert (JS.le (JS.Math_abs (x - c)) r = true) as Ht
    by (apply abs_le_iff; split; assumption).
  congruence.
Qed.

(** X7: the bands do not overlap, so the order of the tests plays no
    part: an angle gets a name exactly when it is within that aspect's
    own orb, and the empty name exactly when it is within none. *)
Theorem aspect_type_by_own_band (angle : Q) :
  (aspectTypeOf angle = "Conjunction" <-> -6 <= angle /\ angle <= 6) /\
  (aspectTypeOf angle = "Sextile" <->
     60 - (42 # 10) <= angle /\ angle <= 60 + (42 # 10)) /\
  (aspectTypeOf angle = "Square" <-> 84 <= angle /\ angle <= 96) /\
  (aspectTypeOf angle = "Trine" <-> 114 <= angle /\ angle <= 126) /\
  (aspectTypeOf angle = "Opposition" <-> 174 <= angle /\ angle <= 186) /\
  (aspectTypeOf angle = "" <->
     (angle < -6 \/ 6 < angle) /\
     (angle < 60 - (42 # 10) \/ 60 + (42 # 10) < angle) /\
     (angle < 84 \/ 96 < angle) /\ (angle < 114 \/ 126 < angle) /\
     (angle < 174 \/ 186 < angle)).
Proof.
  unfold aspectTypeOf, ORB. change (6 * (7 # 10)) with (42 # 10).
  destruct (JS.le (JS.Math_abs (angle - 0)) 6) eqn:H0;
    [apply abs_le_iff in H0 | apply abs_le_false in H0];
  (destruct (JS.le (JS.Math_abs (angle - 60)) (42 # 10)) eqn:H60;
    [apply abs_le_iff in H60 | apply abs_le_false in H60]);
  (destruct (JS.le (JS.Math_abs (angle - 90)) 6) eqn:H90;
    [apply abs_le_iff in H90 | apply abs_le_false in H90]);
  (destruct (JS.le (JS.Math_abs (angle - 120)) 6) eqn:H120;
    [apply abs_le_iff in H120 | apply abs_le_false in H120]);
  (destruct (JS.le (JS.Math_abs (angle - 180)) 6) eqn:H180;
    [apply abs_le_iff in H180 | apply abs_le_false in H180]);
  repeat split; try discriminate; intros; try lra; try reflexivity;
  try (exfalso; lra).
Qed.

(** X8: classification is symmetric in the two bodies: swapping them
    gives a record exactly when the original pair does, with the same
    aspect type, an equal orb and the two names exchanged. *)
Theorem aspectsOfPair_symmetric (planetA planetB : PlanetPosition.t) :
  Forall2
    (fun x y =>
       SynastryAspect.aspectType x = SynastryAspect.aspectType y /\
       SynastryAspect.orb x = SynastryAspect.orb y /\
       SynastryAspect.planetA x = SynastryAspect.planetB y /\
       SynastryAspect.planetB x = SynastryAspect.planetA y)
    (aspectsOfPair planetA planetB) (aspectsOfPair planetB planetA).
Proof.
  unfold aspectsOfPair.
  rewrite (separation_sym (PlanetPosition.degree planetA)
             (PlanetPosition.degree planetB)).
  destruct (String.eqb (aspectTypeOf _) ""); constructor; [|constructor].
  cbn [SynastryAspect.aspectType SynastryAspect.orb SynastryAspect.planetA
       SynastryAspect.planetB].
  repeat split.
Qed.

Lemma aspectsOfPair_record (planetA planetB : PlanetPosition.t)
    (r : SynastryAspect.t) :
  In r (aspectsOfPair planetA planetB) ->
  SynastryAspect.planetA r = PlanetPosition.name planetA /\
  SynastryAspect.planetB r = PlanetPosition.name planetB /\
  SynastryAspect.description r = "" /\
  In (SynastryAspect.aspectType r)
    ["Conjunction"; "Sextile"; "Square"; "Trine"; "Opposition"]%string /\
  0 <= SynastryAspect.orb r /\ SynastryAspect.orb r <= 6 /\
  (SynastryAspect.aspectType r = "Sextile" ->
   SynastryAspect.orb r <= 42 # 10).
Proof.
  unfold aspectsOfPair.
  set (angle := separation _ _). unfold aspectTypeOf, ORB.
  change (6 * (7 # 10)) with (42 # 10).
  destruct (JS.le (JS.Math_abs (angle - 0)) 6) eqn:H0;
    [|destruct (JS.le (JS.Math_abs (angle - 60)) (42 # 10)) eqn:H60;
      [|destruct (JS.le (JS.Math_abs (angle - 90)) 6) eqn:H90;
        [|destruct (JS.le (JS.Math_abs (angle - 120)) 6) eqn:H120;
          [|destruct (JS.le (JS.Math_abs (angle - 180)) 6) eqn:H180]]]];
    cbn [String.eqb Ascii.eqb Bool.eqb exactAngleOf]; intros Hin;
    try (destruct Hin as [<-|[]]);
    try (destruct Hin);
    cbn [SynastryAspect.planetA SynastryAspect.planetB
         SynastryAspect.description SynastryAspect.aspectType
         SynastryAspect.orb];
    (split; [reflexivity|]); (split; [reflexivity|]);
    (split; [reflexivity|]); (split; [cbn; tauto|]);
    (split; [apply Qabs_nonneg|]);
    match goal with
    | H : JS.le ?x _ = true |- _ =>
        apply le_iff in H; split; [lra | intros Hs; try discriminate Hs; lra]
    end.
Qed.

Lemma calculateAspects_elem (p1 p2 : CalculatedChart.t)
    (r : SynastryAspect.t) :
  In r (calculateAspects p1 p2) ->
  (exists planetA planetB,
     In planetA (CalculatedChart.planets p1) /\
     In planetB (CalculatedChart.planets p2) /\
     SynastryAspect.planetA r = PlanetPosition.name planetA /\
     SynastryAspect.planetB r = PlanetPosition.name planetB) /\
  SynastryAspect.description r = "" /\
  In (SynastryAspect.aspectType r)
    ["Conjunction"; "Sextile"; "Square"; "Trine"; "Opposition"]%string /\
  0 <= SynastryAspect.orb r /\ SynastryAspect.orb r <= 6 /\
  (SynastryAspect.aspectType r = "Sextile" ->
   SynastryAspect.orb r <= 42 # 10).
Proof.
  intros Hr. unfold calculateAspects, JS.slice0 in Hr.
  assert (In r (pushedAspects p1 p2)) as Hpushed.
  { apply (Permutation_in r (sort_Permutation SynastryAspect.orb _)).
    rewrite <- (firstn_skipn 8 (JS.sort _ _)). apply in_or_app. left.
    exact Hr. }
  unfold pushedAspects in Hpushed.
  apply in_flat_map in Hpushed as (planetA & HA & Hin).
  apply in_flat_map in Hin as (planetB & HB & Hin).
  apply aspectsOfPair_record in Hin as (Ha & Hb & Hd & Ht & Ho0 & Ho6 & Hs).
  split; [exists planetA, planetB; repeat split; assumption|].
  repeat split; assumption.
Qed.

(** X9: every record [calculateAspects] returns names a planet of the
    first chart and a planet of the second, has an empty description,
    one of the five aspect types, and an orb between 0 and 6, at most 4.2
    for a Sextile. *)
Theorem calculateAspects_records (p1 p2 : CalculatedChart.t) :
  Forall
    (fun r =>
       (exists planetA planetB,
          In planetA (CalculatedChart.planets p1) /\
          In planetB (CalculatedChart.planets p2) /\
          SynastryAspect.planetA r = PlanetPosition.name planetA /\
          SynastryAspect.planetB r = PlanetPosition.name planetB) /\
       SynastryAspect.description r = "" /\
       In (SynastryAspect.aspectType r)
         ["Conjunction"; "Sextile"; "Square"; "Trine"; "Opposition"]%string /\
       0 <= SynastryAspect.orb r /\ SynastryAspect.orb r <= 6 /\
       (SynastryAspect.aspectType r = "Sextile" ->
        SynastryAspect.orb r <= 42 # 10))
    (calculateAspects p1 p2).
Proof.
  apply List.Forall_forall. intros r Hr.
  apply (calculateAspects_elem p1 p2 r Hr).
Qed.

(* ================================================================== *)
(** ** More on the layout resolver *)
(* ================================================================== *)

(** *** What the look-back collects *)

Lemma lookBack_elem (withTracks : list Tracked.t) (planet : PlanetPosition.t)
    (i : nat) (minDeg : Q) (usedTracks : gset nat) (j t : nat) :
  t ∈ lookBack withTracks planet i minDeg usedTracks j <->
  t ∈ usedTracks \/
  ((j <= i)%nat /\
   exists prevProcessed,
     withTracks !! (i - j)%nat = Some prevProcessed /\
     getDist (PlanetPosition.degree planet) (Tracked.degree prevProcessed)
       < minDeg /\
     Tracked.track prevProcessed = t).
Proof.
  unfold lookBack.
  destruct (0 <=? Z.of_nat i - Z.of_nat j)%Z eqn:Hge;
    [apply Z.leb_le in Hge | apply Z.leb_gt in Hge].
  - destruct (withTracks !! (i - j)%nat) as [prevProcessed|] eqn:Hprev.
    + destruct (JS.lt _ _) eqn:Hlt.
      * apply lt_iff in Hlt. rewrite elem_of_union, elem_of_singleton.
        split.
        -- intros [-> | H]; [right | left; exact H].
           split; [lia|]. exists prevProcessed. repeat split; assumption.
        -- intros [H | (_ & prev & Hp & _ & <-)]; [right; exact H|].
           left. congruence.
      * split; [intros H; left; exact H|].
        intros [H | (_ & prev & Hp & Hd & _)]; [exact H|].
        exfalso. injection Hp as <-. apply lt_iff in Hd. congruence.
    + split; [intros H; left; exact H|].
      intros [H | (_ & prev & Hp & _)]; [exact H | discriminate Hp].
  - split; [intros H; left; exact H|].
    intros [H | (Hle & _)]; [exact H | lia].
Qed.

Lemma usedTracksOf_elem (withTracks : list Tracked.t)
    (planet : PlanetPosition.t) (i : nat) (minDeg : Q) (t : nat) :
  t ∈ usedTracksOf withTracks planet i minDeg <->
  exists j prevProcessed,
    (1 <= j <= 4)%nat /\ (j <= i)%nat /\
    withTracks !! (i - j)%nat = Some prevProcessed /\
    getDist (PlanetPosition.degree planet) (Tracked.degree prevProcessed)
      < minDeg /\
    Tracked.track prevProcessed = t.
Proof.
  unfold usedTracksOf. cbn [fold_left]. rewrite !lookBack_elem. split.
  - intros [[[[H | H] | H] | H] | H].
    + exfalso. revert H. apply not_elem_of_empty.
    + destruct H as (Hle & prev & H). exists 1%nat, prev. split; [lia|].
      split; [exact Hle | exact H].
    + destruct H as (Hle & prev & H). exists 2%nat, prev. split; [lia|].
      split; [exact Hle | exact H].
    + destruct H as (Hle & prev & H). exists 3%nat, prev. split; [lia|].
      split; [exact Hle | exact H].
    + destruct H as (Hle & prev & H). exists 4%nat, prev. split; [lia|].
      split; [exact Hle | exact H].
  - intros (j & prev & Hj & Hle & H).
    assert (j = 1 \/ j = 2 \/ j = 3 \/ j = 4)%nat
      as [-> | [-> | [-> | ->]]] by lia.
    + left. left. left. right. split; [exact Hle|]. exists prev. exact H.
    + left. left. right. split; [exact Hle|]. exists prev. exact H.
    + left. right. split; [exact Hle|]. exists prev. exact H.
    + right. split; [exact Hle|]. exists prev. exact H.
Qed.

(** The look-back reads only the entries before position [i]. *)
Lemma usedTracksOf_app (withTracks later : list Tracked.t)
    (planet : PlanetPosition.t) (minDeg : Q) :
  usedTracksOf (withTracks ++ later) planet (length withTracks) minDeg =
  usedTracksOf withTracks planet (length withTracks) minDeg.
Proof.
  apply set_eq. intros t. rewrite !usedTracksOf_elem.
  split; intros (j & prev & Hj & Hle & Hprev & H);
    exists j, prev; (split; [exact Hj|]); (split; [exact Hle|]);
    (split; [|exact H]).
  - rewrite lookup_app_l in Hprev by lia. exact Hprev.
  - rewrite lookup_app_l by lia. exact Hprev.
Qed.

(** *** The array after the loop, entry by entry *)

Lemma placeAll_from_entries (sorted : list PlanetPosition.t) (minDeg : Q)
    (todo : list PlanetPosition.t) (withTracks : list Tracked.t) :
  let r := fold_left (placePlanet sorted minDeg)
             (combine (seq (length withTracks) (length todo)) todo)
             withTracks in
  length r = (length withTracks + length todo)%nat /\
  (forall k t, (k < length withTracks)%nat ->
     (r !! k = Some t <-> withTracks !! k = Some t)) /\
  (forall k t, (length withTracks <= k)%nat -> r !! k = Some t ->
     todo !! (k - length withTracks)%nat = Some (Tracked.planet t) /\
     Tracked.isIsolated t = isolationOf sorted (Tracked.planet t) k /\
     Tracked.track t =
       firstFree (usedTracksOf r (Tracked.planet t) k minDeg)).
Proof.
  revert withTracks. induction todo as [|planet todo IH]; intros withTracks;
    cbn zeta.
  - cbn [length seq combine fold_left]. split; [lia|]. split; [tauto|].
    intros k t Hk Ht. apply lookup_lt_Some in Ht. lia.
  - cbn [length seq combine fold_left]. unfold placePlanet at 2.
    set (t0 := Tracked.mk planet _ _).
    specialize (IH (withTracks ++ [t0])). cbn zeta in IH.
    rewrite length_app in IH. cbn [length] in IH.
    replace (length withTracks + 1)%nat with (S (length withTracks)) in IH
      by lia.
    set (r := fold_left _ _ _) in *.
    destruct IH as (Hlen & Hold & Hnew).
    split; [lia|]. split.
    + intros k t Hk. rewrite (Hold k t) by lia.
      rewrite lookup_app_l by exact Hk. reflexivity.
    + intros k t Hk Ht.
      destruct (decide (k = length withTracks)) as [->|Hne].
      * apply (Hold (length withTracks) t) in Ht; [|lia].
        rewrite lookup_app_r in Ht by lia.
        rewrite Nat.sub_diag in Ht |- *. cbn in Ht. injection Ht as <-.
        cbn [Tracked.planet Tracked.isIsolated Tracked.track t0].
        split; [reflexivity|]. split; [reflexivity|].
        f_equal.
        assert (exists later, r = withTracks ++ later) as [later ->].
        { exists (skipn (length withTracks) r).
          rewrite <- (firstn_skipn (length withTracks) r) at 1. f_equal.
          apply list_eq. intros k.
          destruct (decide (k < length withTracks)%nat) as [Hk'|Hk'].
          - rewrite lookup_take_lt by exact Hk'.
            destruct (r !! k) as [u|] eqn:Hu.
            + apply Hold in Hu; [|lia].
              rewrite lookup_app_l in Hu by exact Hk'. congruence.
            + apply lookup_ge_None in Hu. lia.
          - rewrite lookup_take_ge by lia. symmetry.
            apply lookup_ge_None. lia. }
        symmetry. apply usedTracksOf_app.
      * destruct (Hnew k t) as (Htodo & Hiso & Htrack); [lia | exact Ht|].
        replace (k - length withTracks)%nat
          with (S (k - S (length withTracks))) by lia.
        cbn [lookup list_lookup]. repeat split; assumption.
Qed.

Lemma placeAll_entries (sorted : list PlanetPosition.t) (minDeg : Q) :
  length (placeAll sorted minDeg) = length sorted /\
  (forall k t, placeAll sorted minDeg !! k = Some t ->
     sorted !! k = Some (Tracked.planet t) /\
     Tracked.isIsolated t = isolationOf sorted (Tracked.planet t) k /\
     Tracked.track t =
       firstFree (usedTracksOf (placeAll sorted minDeg)
                    (Tracked.planet t) k minDeg)).
Proof.
  unfold placeAll.
  destruct (placeAll_from_entries sorted minDeg sorted []) as (Hlen & _ & Hnew).
  cbn zeta in *. cbn [length] in *. split; [exact Hlen|].
  intros k t Ht. destruct (Hnew k t) as (H1 & H2 & H3); [lia | exact Ht|].
  rewrite Nat.sub_0_r in H1. repeat split; assumption.
Qed.

(** X10: [resolveCollisions] returns the planets it was given, each once,
    in ascending order of longitude. *)
Theorem resolveCollisions_sorted_permutation
    (planets : list PlanetPosition.t) (minDeg : Q) :
  let r := resolveCollisions planets minDeg in
  length r = length planets /\
  Permutation (map Tracked.planet r) planets /\
  StronglySorted (keyOrder PlanetPosition.degree) (map Tracked.planet r).
Proof.
  cbn zeta.
  destruct (resolveCollisions_bounds planets minDeg) as (Hmap & _ & _).
  cbn zeta in Hmap.
  pose proof (sort_Permutation PlanetPosition.degree planets) as Hperm.
  split; [|split].
  - rewrite <- (length_map Tracked.planet), Hmap.
    apply Permutation_length. exact Hperm.
  - rewrite Hmap. exact Hperm.
  - rewrite Hmap. apply (sort_StronglySorted PlanetPosition.degree).
Qed.

(** X11: in the array the loop builds, two entries at most four places
    apart and closer than the minimum separation never share a track, and
    each entry sits on the lowest track that no such earlier entry has:
    every lower track is taken by one of them.  Closer is by [getDist],
    the distance the code computes on the rounded difference of the two
    longitudes. *)
Theorem loop_tracks_least_free (planets : list PlanetPosition.t) (minDeg : Q) :
  let withTracks := placeAll (JS.sort byDegree planets) minDeg in
  (forall i j ti tj,
     (1 <= j <= 4)%nat ->
     withTracks !! (i + j)%nat = Some ti -> withTracks !! i = Some tj ->
     getDist (Tracked.degree ti) (Tracked.degree tj) < minDeg ->
     Tracked.track ti <> Tracked.track tj) /\
  (forall k t u,
     withTracks !! k = Some t -> (u < Tracked.track t)%nat ->
     exists j prevProcessed,
       (1 <= j <= 4)%nat /\ (j <= k)%nat /\
       withTracks !! (k - j)%nat = Some prevProcessed /\
       getDist (Tracked.degree t) (Tracked.degree prevProcessed) < minDeg /\
       Tracked.track prevProcessed = u).
Proof.
  cbn zeta. set (sorted := JS.sort byDegree planets).
  destruct (placeAll_entries sorted minDeg) as (_ & Hentry).
  split.
  - intros i j ti tj Hj Hti Htj Hdist Heq.
    destruct (Hentry _ _ Hti) as (_ & _ & Htrack).
    destruct (firstFree_least
                (usedTracksOf (placeAll sorted minDeg) (Tracked.planet ti)
                   (i + j) minDeg)) as [Hfree _].
    apply Hfree. rewrite <- Htrack. apply usedTracksOf_elem.
    exists j, tj. split; [exact Hj|]. split; [lia|].
    replace (i + j - j)%nat with i by lia.
    split; [exact Htj|]. split; [exact Hdist | symmetry; exact Heq].
  - intros k t u Ht Hu.
    destruct (Hentry _ _ Ht) as (_ & _ & Htrack).
    destruct (firstFree_least
                (usedTracksOf (placeAll sorted minDeg) (Tracked.planet t)
                   k minDeg)) as [_ Hbelow].
    rewrite <- Htrack in Hbelow. specialize (Hbelow u Hu).
    apply usedTracksOf_elem in Hbelow. exact Hbelow.
Qed.

(** The entries of the result against those of the loop: only the track of
    the first can differ. *)
Lemma resolveCollisions_entries (planets : list PlanetPosition.t) (minDeg : Q)
    (k : nat) (t : Tracked.t) :
  resolveCollisions planets minDeg !! k = Some t ->
  exists t', placeAll (JS.sort byDegree planets) minDeg !! k = Some t' /\
             Tracked.planet t = Tracked.planet t' /\
             Tracked.isIsolated t = Tracked.isIsolated t' /\
             (k <> 0%nat -> t = t').
Proof.
  unfold resolveCollisions.
  destruct (wrapAround_cases
              (placeAll (JS.sort byDegree planets) minDeg) minDeg)
    as [-> | (first & rest & -> & ->)].
  - intros H. exists t. split; [exact H|]. repeat split; reflexivity.
  - destruct k as [|k]; cbn [lookup list_lookup].
    + intros H. injection H as <-. exists first.
      split; [reflexivity|]. split; [reflexivity|]. split; [reflexivity|].
      intros Hk. contradiction.
    + intros H. exists t. split; [exact H|]. repeat split; reflexivity.
Qed.

(** X12: in the result, the first and the last entry of two or more never
    share a track when they are closer than the minimum separation, and
    the same holds for two entries at most four places apart when neither
    is the first.  Closer is by [getDist], the distance the code computes
    on the rounded difference of the two longitudes. *)
Theorem result_tracks_apart (planets : list PlanetPosition.t) (minDeg : Q) :
  let r := resolveCollisions planets minDeg in
  (forall first last,
     (1 < length r)%nat ->
     r !! 0%nat = Some first -> r !! (length r - 1)%nat = Some last ->
     getDist (Tracked.degree first) (Tracked.degree last) < minDeg ->
     Tracked.track first <> Tracked.track last) /\
  (forall i j ti tj,
     (1 <= i)%nat -> (1 <= j <= 4)%nat ->
     r !! (i + j)%nat = Some ti -> r !! i = Some tj ->
     getDist (Tracked.degree ti) (Tracked.degree tj) < minDeg ->
     Tracked.track ti <> Tracked.track tj).
Proof.
  cbn zeta. split.
  - unfold resolveCollisions.
    set (w := placeAll (JS.sort byDegree planets) minDeg).
    unfold wrapAround.
    destruct (1 <? length w)%nat eqn:Hlen;
      [|apply Nat.ltb_ge in Hlen; intros first last Hn; lia].
    apply Nat.ltb_lt in Hlen.
    destruct (w !! 0%nat) as [f|] eqn:Hf;
      [|apply lookup_ge_None in Hf; lia].
    destruct (w !! (length w - 1)%nat) as [l|] eqn:Hl;
      [|apply lookup_ge_None in Hl; lia].
    destruct (JS.lt (getDist (Tracked.degree f) (Tracked.degree l)) minDeg)
      eqn:Hd; cbn [andb].
    + destruct (Tracked.track f =? Tracked.track l)%nat eqn:Ht.
      * apply Nat.eqb_eq in Ht. rewrite length_insert.
        intros first last _ Hfirst Hlast _.
        rewrite list_lookup_insert_eq in Hfirst by lia.
        rewrite list_lookup_insert_ne in Hlast by lia.
        injection Hfirst as <-. rewrite Hl in Hlast. injection Hlast as <-.
        cbn [Tracked.setTrack Tracked.track]. lia.
      * apply Nat.eqb_neq in Ht.
        intros first last _ Hfirst Hlast _. congruence.
    + intros first last _ Hfirst Hlast Hdist.
      rewrite Hf in Hfirst. rewrite Hl in Hlast.
      injection Hfirst as <-. injection Hlast as <-.
      apply lt_iff in Hdist. congruence.
  - intros i j ti tj Hi Hj Hti Htj Hdist.
    apply resolveCollisions_entries in Hti as (ti' & Hti & _ & _ & Heqi).
    apply resolveCollisions_entries in Htj as (tj' & Htj & _ & _ & Heqj).
    rewrite (Heqi ltac:(lia)), (Heqj ltac:(lia)) in *.
    set (sorted := JS.sort byDegree planets) in *.
    destruct (placeAll_entries sorted minDeg) as (_ & Hentry).
    destruct (Hentry _ _ Hti) as (_ & _ & Htrack).
    destruct (firstFree_least
                (usedTracksOf (placeAll sorted minDeg) (Tracked.planet ti')
                   (i + j) minDeg)) as [Hfree _].
    intros Heq. apply Hfree. rewrite <- Htrack. apply usedTracksOf_elem.
    exists j, tj'. split; [exact Hj|]. split; [lia|].
    replace (i + j - j)%nat with i by lia.
    split; [exact Htj|]. split; [exact Hdist | symmetry; exact Heq].
Qed.

(** X13: with nothing to place the result is empty, and a single planet
    is placed on track 0 and flagged isolated, whatever the minimum
    separation. *)
Theorem resolveCollisions_small (p : PlanetPosition.t) (minDeg : Q) :
  resolveCollisions [] minDeg = [] /\
  resolveCollisions [p] minDeg = [Tracked.mk p 0 true].
Proof. split; reflexivity. Qed.

(** *** What the isolation flag means *)

Lemma getDist_sym (d1 d2 : Q) : getDist d1 d2 = getDist d2 d1.
Proof.
  unfold getDist. rewrite (abs_sub_sym d1 d2). reflexivity.
Qed.

Lemma Qabs_nonneg_eq (x : Q) : 0 <= x -> Qabs x = x.
Proof.
  destruct x as [n d]. unfold Qle, Qabs. cbn [Qnum Qden]. intros H.
  rewrite Z.abs_eq by lia. reflexivity.
Qed.

(** For two longitudes in order the distance is taken on the rounded
    difference [hi - lo]. *)
Lemma getDist_ordered (hi lo : Q) :
  lo <= hi ->
  getDist hi lo =
    if JS.gt (JS.sub hi lo) 180 then JS.sub 360 (JS.sub hi lo)
    else JS.sub hi lo.
Proof.
  intros H. unfold getDist, JS.Math_abs.
  rewrite (Qabs_nonneg_eq _ (sub_nonneg _ _ H)). reflexivity.
Qed.

(** A rounded difference of at least 15 comes from a difference above the
    binary64 number just below 15, and a difference of at most
    345 + 2^-49 rounds to at most 345. *)
Lemma gap_exceeds (hi lo : Q) :
  15 <= JS.sub hi lo -> (8444249301319679 # 562949953421312) < hi - lo.
Proof.
  intros H. apply Qnot_le_lt. intros Hle.
  apply binary64_mono in Hle. fold (JS.sub hi lo) in Hle.
  assert (E : JS.binary64 (8444249301319679 # 562949953421312)
              = 8444249301319679 # 562949953421312)
    by (vm_compute; reflexivity).
  rewrite E in Hle.
  assert ((8444249301319679 # 562949953421312) < 15) by reflexivity.
  lra.
Qed.

Lemma gap_at_most (hi lo : Q) :
  hi - lo <= (194217733930352641 # 562949953421312) ->
  JS.sub hi lo <= 345.
Proof.
  intros H. apply binary64_mono in H. fold (JS.sub hi lo) in H.
  assert (E : JS.binary64 (194217733930352641 # 562949953421312) = 345)
    by (vm_compute; reflexivity).
  rewrite E in H. exact H.
Qed.

Lemma getDist_far_gap (hi lo : Q) :
  lo <= hi -> 15 <= getDist hi lo -> 15 <= JS.sub hi lo.
Proof.
  intros H. rewrite (getDist_ordered _ _ H).
  destruct (JS.gt (JS.sub hi lo) 180) eqn:Hgt; [| tauto].
  apply gt_iff in Hgt. intros _. lra.
Qed.

Lemma getDist_far_of_gap (hi lo : Q) :
  lo <= hi -> 15 <= JS.sub hi lo -> JS.sub hi lo <= 345 ->
  15 <= getDist hi lo.
Proof.
  intros H H15 H345. rewrite (getDist_ordered _ _ H).
  destruct (JS.gt (JS.sub hi lo) 180) eqn:Hgt; [| exact H15].
  unfold JS.sub at 1.
  assert (JS.binary64 15 <= JS.binary64 (360 - JS.sub hi lo))
    by (apply binary64_mono; lra).
  pose proof binary64_15. lra.
Qed.

(** Between an entry and a far one further out, every entry at least 15
    away by its rounded difference is far as well. *)
Lemma getDist_far_inner (hi lo hi' lo' : Q) :
  lo <= hi -> lo' <= hi' ->
  15 <= JS.sub hi lo -> JS.sub hi lo <= JS.sub hi' lo' ->
  15 <= getDist hi' lo' -> 15 <= getDist hi lo.
Proof.
  intros H H' H15 Hle.
  rewrite (getDist_ordered _ _ H), (getDist_ordered _ _ H').
  destruct (JS.gt (JS.sub hi lo) 180) eqn:Hgt; [| intros _; exact H15].
  apply gt_iff in Hgt.
  assert (JS.gt (JS.sub hi' lo') 180 = true) as -> by (apply gt_iff; lra).
  intros Hfar. eapply Qle_trans; [exact Hfar |].
  apply sub_mono_r. exact Hle.
Qed.

Lemma sorted_lookup_le {A : Type} (key : A -> Q) (l : list A) (a b : nat)
    (x y : A) :
  StronglySorted (keyOrder key) l -> (a <= b)%nat ->
  l !! a = Some x -> l !! b = Some y -> key x <= key y.
Proof.
  intros Hs. revert a b. induction Hs as [|z l Hs IH Hz]; intros a b Hab Ha Hb.
  - discriminate Ha.
  - destruct a as [|a]; destruct b as [|b]; cbn [lookup list_lookup] in Ha, Hb.
    + injection Ha as <-. injection Hb as <-. apply Qle_refl.
    + injection Ha as <-. rewrite List.Forall_forall in Hz. apply Hz.
      apply list_elem_of_In. eapply list_elem_of_lookup_2. exact Hb.
    + lia.
    + apply (IH a b); [lia | assumption | assumption].
Qed.

(** The two neighbours [forEach] reads, as positions of the sorted
    array. *)
Lemma neighbour_indices (sorted : list PlanetPosition.t) (i : nat) :
  (i < length sorted)%nat ->
  let n := Z.of_nat (length sorted) in
  JS.index sorted (Z.rem (Z.of_nat i - 1 + n) n) =
    sorted !! (if (i =? 0)%nat then length sorted - 1 else i - 1)%nat /\
  JS.index sorted (Z.rem (Z.of_nat i + 1) n) =
    sorted !! (if (i =? length sorted - 1)%nat then 0 else i + 1)%nat.
Proof.
  intros Hi. cbn zeta. unfold JS.index. split.
  - rewrite Z.rem_mod_nonneg by lia.
    destruct (i =? 0)%nat eqn:H0;
      [apply Nat.eqb_eq in H0 | apply Nat.eqb_neq in H0].
    + subst i. rewrite Z.mod_small by lia.
      destruct (_ <? 0)%Z eqn:Hneg; [apply Z.ltb_lt in Hneg; lia|].
      f_equal. lia.
    + replace (Z.of_nat i - 1 + Z.of_nat (length sorted))%Z
        with (Z.of_nat i - 1 + 1 * Z.of_nat (length sorted))%Z by lia.
      rewrite Z_mod_plus_full, Z.mod_small by lia.
      destruct (_ <? 0)%Z eqn:Hneg; [apply Z.ltb_lt in Hneg; lia|].
      f_equal. lia.
  - rewrite Z.rem_mod_nonneg by lia.
    destruct (i =? length sorted - 1)%nat eqn:H0;
      [apply Nat.eqb_eq in H0 | apply Nat.eqb_neq in H0].
    + replace (Z.of_nat i + 1)%Z with (Z.of_nat (length sorted)) by lia.
      rewrite Z_mod_same_full. reflexivity.
    + rewrite Z.mod_small by lia.
      destruct (_ <? 0)%Z eqn:Hneg; [apply Z.ltb_lt in Hneg; lia|].
      f_equal. lia.
Qed.

Lemma isolationOf_meaning (sorted : list PlanetPosition.t) (i : nat)
    (p : PlanetPosition.t) :
  StronglySorted (keyOrder PlanetPosition.degree) sorted ->
  Forall inCircle sorted ->
  sorted !! i = Some p ->
  (isolationOf sorted p i = true <->
   forall k q, k <> i -> sorted !! k = Some q ->
     15 <= getDist (PlanetPosition.degree p) (PlanetPosition.degree q)).
Proof.
  intros Hsorted Hrange Hp.
  pose proof (lookup_lt_Some _ _ _ Hp) as Hi.
  assert (forall k q, sorted !! k = Some q -> inCircle q) as Hin.
  { intros k q Hq. rewrite List.Forall_forall in Hrange. apply Hrange.
    apply list_elem_of_In. eapply list_elem_of_lookup_2. exact Hq. }
  assert (forall a b x y, (a <= b)%nat -> sorted !! a = Some x ->
            sorted !! b = Some y ->
            PlanetPosition.degree x <= PlanetPosition.degree y) as Hord.
  { intros a b x y. apply sorted_lookup_le. exact Hsorted. }
  destruct (neighbour_indices sorted i Hi) as [Hprev Hnext].
  cbn zeta in Hprev, Hnext. unfold isolationOf. rewrite Hprev, Hnext.
  destruct (1 <? Z.of_nat (length sorted))%Z eqn:Hmany;
    [apply Z.ltb_lt in Hmany | apply Z.ltb_ge in Hmany].
  2:{ split; [|reflexivity]. intros _ k q Hk Hq.
      apply lookup_lt_Some in Hq. lia. }
  set (pi := (if (i =? 0)%nat then length sorted - 1 else i - 1)%nat) in *.
  set (ni := (if (i =? length sorted - 1)%nat then 0 else i + 1)%nat) in *.
  assert (pi < length sorted)%nat as Hpi
    by (subst pi; destruct (i =? 0)%nat; lia).
  assert (ni < length sorted)%nat as Hni
    by (subst ni; destruct (i =? length sorted - 1)%nat eqn:E;
        [apply Nat.eqb_eq in E | apply Nat.eqb_neq in E]; lia).
  destruct (lookup_lt_is_Some_2 sorted pi Hpi) as [prev Hprevq].
  destruct (lookup_lt_is_Some_2 sorted ni Hni) as [next Hnextq].
  rewrite Hprevq, Hnextq.
  pose proof (Hin _ _ Hp) as [Hp0 Hp1].
  pose proof (Hin _ _ Hprevq) as [Hv0 Hv1].
  pose proof (Hin _ _ Hnextq) as [Hx0 Hx1].
  split.
  - intros Hiso k q Hk Hq.
    destruct (JS.lt (getDist (PlanetPosition.degree p)
                       (PlanetPosition.degree prev)) 15) eqn:HdP;
      [discriminate Hiso|].
    destruct (JS.lt (getDist (PlanetPosition.degree p)
                       (PlanetPosition.degree next)) 15) eqn:HdN;
      [discriminate Hiso|].
    assert (15 <= getDist (PlanetPosition.degree p)
                    (PlanetPosition.degree prev)) as HP.
    { apply Qnot_lt_le. intros H. apply lt_iff in H. congruence. }
    assert (15 <= getDist (PlanetPosition.degree p)
                    (PlanetPosition.degree next)) as HN.
    { apply Qnot_lt_le. intros H. apply lt_iff in H. congruence. }
    clear HdP HdN Hiso.
    pose proof (Hin _ _ Hq) as [Hq0 Hq1].
    pose proof (lookup_lt_Some _ _ _ Hq) as Hklt.
    destruct (Nat.lt_ge_cases k i) as [Hlt | Hge].
    + (* an earlier entry *)
      pose proof (Hord _ _ _ _ (Nat.lt_le_incl _ _ Hlt) Hq Hp) as Hqp.
      assert ((i =? 0)%nat = false) as Hi0 by (apply Nat.eqb_neq; lia).
      subst pi. rewrite Hi0 in Hprevq.
      pose proof (Hord k (i - 1)%nat _ _ ltac:(lia) Hq Hprevq) as Hqv.
      pose proof (Hord (i - 1)%nat i _ _ ltac:(lia) Hprevq Hp) as Hvp.
      pose proof (getDist_far_gap _ _ Hvp HP) as G.
      assert (15 <= JS.sub (PlanetPosition.degree p) (PlanetPosition.degree q))
        as Gq.
      { eapply Qle_trans; [exact G | apply sub_mono_r; exact Hqv]. }
      subst ni. destruct (i =? length sorted - 1)%nat eqn:Hlast;
        [apply Nat.eqb_eq in Hlast | apply Nat.eqb_neq in Hlast].
      * pose proof (Hord 0%nat k _ _ ltac:(lia) Hnextq Hq) as Hnq.
        pose proof (Hord 0%nat i _ _ ltac:(lia) Hnextq Hp) as Hnp.
        apply (getDist_far_inner _ _ (PlanetPosition.degree p)
                 (PlanetPosition.degree next));
          [exact Hqp | exact Hnp | exact Gq | apply sub_mono_r; exact Hnq
          | exact HN].
      * pose proof (Hord i (i + 1)%nat _ _ ltac:(lia) Hp Hnextq) as Hpn.
        rewrite getDist_sym in HN.
        pose proof (gap_exceeds _ _ (getDist_far_gap _ _ Hpn HN)) as Gn.
        apply getDist_far_of_gap; [exact Hqp | exact Gq |].
        apply gap_at_most.
        assert ((194217733930352641 # 562949953421312)
                == 360 - (8444249301319679 # 562949953421312)) as ->
          by reflexivity.
        lra.
    + (* a later entry *)
      assert (i < k)%nat as Hlt by lia.
      pose proof (Hord _ _ _ _ Hge Hp Hq) as Hpq.
      rewrite getDist_sym.
      assert ((i =? length sorted - 1)%nat = false) as Hil
        by (apply Nat.eqb_neq; lia).
      subst ni. rewrite Hil in Hnextq.
      pose proof (Hord (i + 1)%nat k _ _ ltac:(lia) Hnextq Hq) as Hnq.
      pose proof (Hord i (i + 1)%nat _ _ ltac:(lia) Hp Hnextq) as Hpn.
      rewrite getDist_sym in HN.
      pose proof (getDist_far_gap _ _ Hpn HN) as G.
      assert (15 <= JS.sub (PlanetPosition.degree q) (PlanetPosition.degree p))
        as Gq.
      { eapply Qle_trans; [exact G | apply sub_mono_l; exact Hnq]. }
      subst pi. destruct (i =? 0)%nat eqn:Hfirst;
        [apply Nat.eqb_eq in Hfirst | apply Nat.eqb_neq in Hfirst].
      * pose proof (Hord k (length sorted - 1)%nat _ _ ltac:(lia) Hq Hprevq)
          as Hqv.
        pose proof (Hord i (length sorted - 1)%nat _ _ ltac:(lia) Hp Hprevq)
          as Hpv.
        rewrite getDist_sym in HP.
        apply (getDist_far_inner _ _ (PlanetPosition.degree prev)
                 (PlanetPosition.degree p));
          [exact Hpq | exact Hpv | exact Gq | apply sub_mono_l; exact Hqv
          | exact HP].
      * pose proof (Hord (i - 1)%nat i _ _ ltac:(lia) Hprevq Hp) as Hvp.
        pose proof (gap_exceeds _ _ (getDist_far_gap _ _ Hvp HP)) as Gv.
        apply getDist_far_of_gap; [exact Hpq | exact Gq |].
        apply gap_at_most.
        assert ((194217733930352641 # 562949953421312)
                == 360 - (8444249301319679 # 562949953421312)) as ->
          by reflexivity.
        lra.
  - intros Hall.
    assert (pi <> i) as Hpne
      by (subst pi; destruct (i =? 0)%nat eqn:E;
          [apply Nat.eqb_eq in E | apply Nat.eqb_neq in E]; lia).
    assert (ni <> i) as Hnne
      by (subst ni; destruct (i =? length sorted - 1)%nat eqn:E;
          [apply Nat.eqb_eq in E | apply Nat.eqb_neq in E]; lia).
    pose proof (Hall pi prev Hpne Hprevq) as HP.
    pose proof (Hall ni next Hnne Hnextq) as HN.
    destruct (JS.lt (getDist (PlanetPosition.degree p)
                       (PlanetPosition.degree prev)) 15) eqn:HdP;
      [apply lt_iff in HdP; lra|].
    destruct (JS.lt (getDist (PlanetPosition.degree p)
                       (PlanetPosition.degree next)) 15) eqn:HdN;
      [apply lt_iff in HdN; lra|].
    reflexivity.
Qed.

(** X14: for planets with longitudes in [0, 360), an entry of the result
    is flagged isolated exactly when every other entry is at least 15 away
    from it on the circle: looking at the two neighbours in sorted order
    is enough.  Away is by [getDist], the distance the code computes on
    the rounded difference of the two longitudes. *)
Theorem isolated_iff_all_far (planets : list PlanetPosition.t) (minDeg : Q) :
  Forall inCircle planets ->
  let r := resolveCollisions planets minDeg in
  forall i t, r !! i = Some t ->
    (Tracked.isIsolated t = true <->
     forall k u, k <> i -> r !! k = Some u ->
       15 <= getDist (Tracked.degree t) (Tracked.degree u)).
Proof.
  intros Hrange. cbn zeta. intros i t Ht.
  set (sorted := JS.sort byDegree planets).
  assert (StronglySorted (keyOrder PlanetPosition.degree) sorted) as Hsorted
    by apply (sort_StronglySorted PlanetPosition.degree).
  assert (Forall inCircle sorted) as Hrange'.
  { eapply Permutation_Forall; [|exact Hrange].
    symmetry. apply (sort_Permutation PlanetPosition.degree). }
  destruct (placeAll_entries sorted minDeg) as (Hlen & Hentry).
  assert (forall k u, resolveCollisions planets minDeg !! k = Some u ->
            sorted !! k = Some (Tracked.planet u)) as Hplanet.
  { intros k u Hu.
    apply resolveCollisions_entries in Hu as (u' & Hu' & -> & _).
    apply (Hentry _ _ Hu'). }
  assert (length (resolveCollisions planets minDeg) = length sorted) as Hlen'.
  { rewrite <- (length_map Tracked.planet).
    destruct (resolveCollisions_bounds planets minDeg) as (-> & _).
    reflexivity. }
  pose proof (Hplanet _ _ Ht) as Hp.
  assert (Tracked.isIsolated t = isolationOf sorted (Tracked.planet t) i)
    as ->.
  { apply resolveCollisions_entries in Ht as (t' & Ht' & -> & -> & _).
    apply (Hentry _ _ Ht'). }
  rewrite (isolationOf_meaning sorted i _ Hsorted Hrange' Hp).
  unfold Tracked.degree. split.
  - intros H k u Hk Hu. apply (H k _ Hk). apply Hplanet. exact Hu.
  - intros H k q Hk Hq.
    destruct (lookup_lt_is_Some_2 (resolveCollisions planets minDeg) k)
      as [u Hu].
    { rewrite Hlen'. eapply lookup_lt_Some. exact Hq. }
    pose proof (Hplanet _ _ Hu) as Hq'.
    assert (q = Tracked.planet u) as -> by congruence.
    apply (H k u Hk Hu).
Qed.

Lemma isolated_iff_all_far_witness :
  exists t,
    resolveCollisions fiveEntities 6 !! 4%nat = Some t /\
    (Tracked.isIsolated t = true <->
     forall k u, k <> 4%nat ->
       resolveCollisions fiveEntities 6 !! k = Some u ->
       15 <= getDist (Tracked.degree t) (Tracked.degree u)).
Proof.
  eexists. split; [vm_compute; reflexivity|].
  apply (isolated_iff_all_far fiveEntities 6).
  - repeat constructor; discriminate.
  - vm_compute. reflexivity.
Defined.

(* ================================================================== *)
(** ** The interpretations merged into the chart *)
(* ================================================================== *)

Lemma interpretationFor_cases (validatedPlanets : list PlanetInterpretation.t)
    (p : PlanetPosition.t) :
  interpretationFor validatedPlanets p <> "" /\
  (interpretationFor validatedPlanets p = "A mysterious placement." \/
   exists ip,
     In ip validatedPlanets /\
     PlanetInterpretation.name ip = PlanetPosition.name p /\
     PlanetInterpretation.interpretation ip
       = interpretationFor validatedPlanets p).
Proof.
  unfold interpretationFor.
  destruct (List.find _ validatedPlanets) as [ip|] eqn:Hfind.
  - apply find_some in Hfind as [Hin Hname]. apply String.eqb_eq in Hname.
    destruct (String.eqb (PlanetInterpretation.interpretation ip) "") eqn:He.
    + split; [discriminate | left; reflexivity].
    + apply String.eqb_neq in He. split; [exact He|].
      right. exists ip. repeat split; assumption.
  - split; [discriminate | left; reflexivity].
Qed.

(** X15: when the answer validates, [enrichChart] returns the chart with
    its planets in the same order and every computed field as it was; each
    interpretation is non-empty, and is either the default text or the
    text of an entry of the answer with that planet's name. *)
Theorem enrichChart_keeps_chart (chart : CalculatedChart.t) (name : string)
    (validated : Interpretation.t) :
  exists d,
    enrichChart chart name (JS.Return validated) = JS.Return d /\
    map ChartPlanet.position (ChartData.planets d)
      = CalculatedChart.planets chart /\
    ChartData.rising d = CalculatedChart.rising chart /\
    ChartData.elements d = CalculatedChart.elements chart /\
    ChartData.bigThree d = CalculatedChart.bigThree chart /\
    ChartData.name d = name /\
    ChartData.summary d = Interpretation.summary validated /\
    Forall
      (fun cp =>
         ChartPlanet.interpretation cp <> "" /\
         (ChartPlanet.interpretation cp = "A mysterious placement." \/
          exists ip,
            In ip (Interpretation.planets validated) /\
            PlanetInterpretation.name ip
              = PlanetPosition.name (ChartPlanet.position cp) /\
            PlanetInterpretation.interpretation ip
              = ChartPlanet.interpretation cp))
      (ChartData.planets d).
Proof.
  eexists. split; [reflexivity|].
  cbn [ChartData.planets ChartData.rising ChartData.elements
       ChartData.bigThree ChartData.name ChartData.summary].
  split.
  { rewrite map_map. cbn [ChartPlanet.position]. apply map_id. }
  repeat (split; [reflexivity|]).
  apply List.Forall_forall. intros cp Hcp.
  apply in_map_iff in Hcp as (p & <- & _).
  cbn [ChartPlanet.interpretation ChartPlanet.position].
  apply interpretationFor_cases.
Qed.

Lemma keyAspectOf_orb (aspects : list SynastryAspect.t) (ka : KeyAspect.t) :
  SynastryAspect.orb (keyAspectOf aspects ka) = 0 \/
  exists a,
    In a aspects /\
    SynastryAspect.planetA a = KeyAspect.planetA ka /\
    SynastryAspect.planetB a = KeyAspect.planetB ka /\
    SynastryAspect.aspectType a = KeyAspect.aspectType ka /\
    SynastryAspect.orb a = SynastryAspect.orb (keyAspectOf aspects ka).
Proof.
  unfold keyAspectOf. cbn [SynastryAspect.orb].
  destruct (List.find _ aspects) as [a|] eqn:Hfind; [|left; reflexivity].
  apply find_some in Hfind as [Hin Heq].
  apply andb_true_iff in Heq as [Heq Ht].
  apply andb_true_iff in Heq as [Ha Hb].
  apply String.eqb_eq in Ha, Hb, Ht.
  right. exists a. repeat split; assumption.
Qed.

(** X16: the key aspects of a synastry keep the planets, type and
    description the analysis gave, one for one; the orb of each is the orb
    of a calculated aspect with the same planets and type, or 0, and so
    lies between 0 and 6. *)
Theorem keyAspects_orbs (c1 c2 : CalculatedChart.t)
    (analysisKeyAspects : list KeyAspect.t) :
  Forall2
    (fun ka k =>
       SynastryAspect.planetA k = KeyAspect.planetA ka /\
       SynastryAspect.planetB k = KeyAspect.planetB ka /\
       SynastryAspect.aspectType k = KeyAspect.aspectType ka /\
       SynastryAspect.description k = KeyAspect.description ka /\
       0 <= SynastryAspect.orb k /\ SynastryAspect.orb k <= 6 /\
       (SynastryAspect.orb k = 0 \/
        exists a,
          In a (calculateAspects c1 c2) /\
          SynastryAspect.planetA a = KeyAspect.planetA ka /\
          SynastryAspect.planetB a = KeyAspect.planetB ka /\
          SynastryAspect.aspectType a = KeyAspect.aspectType ka /\
          SynastryAspect.orb a = SynastryAspect.orb k))
    analysisKeyAspects
    (keyAspects (calculateAspects c1 c2) analysisKeyAspects).
Proof.
  unfold keyAspects.
  induction analysisKeyAspects as [|ka kas IH]; cbn [map]; constructor;
    [|exact IH].
  repeat (split; [reflexivity|]).
  destruct (keyAspectOf_orb (calculateAspects c1 c2) ka)
    as [H0 | (a & Hin & Ha & Hb & Ht & Horb)].
  - rewrite H0. split; [discriminate|]. split; [discriminate|].
    left. reflexivity.
  - destruct (calculateAspects_elem c1 c2 a Hin)
      as (_ & _ & _ & Ho0 & Ho6 & _).
    rewrite <- Horb. split; [exact Ho0|]. split; [exact Ho6|].
    right. exists a. repeat split; assumption.
Qed.

(* ================================================================== *)
(** ** The panel's percentages *)
(* ================================================================== *)

(** X17: for every chart the service returns and [enrichChart] passes on,
    the panel's [getNormalizedElements] leaves the four percentages as
    the service computed them: they sum to 100, above the threshold of
    20 under which the panel would rescale them. *)
Theorem panel_keeps_service_percentages {M : MathLib} {E : AstronomyEngine}
    (date : Date) (lat lon : Q) (c : CalculatedChart.t) (name : string)
    (validated : Interpretation.t) (d : ChartData.t) :
  calculateChart date lat lon = JS.Return c ->
  enrichChart c name (JS.Return validated) = JS.Return d ->
  getNormalizedElements (ChartData.elements d) = CalculatedChart.elements c.
Proof.
  intros Hc Hd. cbn in Hd. injection Hd as <-. cbn [ChartData.elements].
  apply calculateChart_planets in Hc as (Hnames & _ & _ & ->).
  assert (length (CalculatedChart.planets c) = 10%nat) as Hlen.
  { rewrite <- (length_map PlanetPosition.name), Hnames. reflexivity. }
  rewrite (elementsOf_ten _ Hlen). unfold getNormalizedElements.
  cbn [ElementalBalance.fire ElementalBalance.earth ElementalBalance.air
       ElementalBalance.water].
  match goal with
  | |- context [(?t =? 0)%Z] =>
      replace t with 100%Z by lia
  end.
  reflexivity.
Qed.

Lemma panel_keeps_service_percentages_witness :
  exists c d,
    calculateChart (M := sampleMath) (E := sampleEngine) 0%Z 45 10
      = JS.Return c /\
    enrichChart c "Ada" (JS.Return (Interpretation.mk [] ""))
      = JS.Return d /\
    getNormalizedElements (ChartData.elements d)
      = CalculatedChart.elements c.
Proof.
  eexists. eexists. split; [vm_compute; reflexivity|].
  split; [reflexivity|].
  eapply (panel_keeps_service_percentages
            (M := sampleMath) (E := sampleEngine) 0%Z 45 10).
  - vm_compute. reflexivity.
  - reflexivity.
Defined.

(* ================================================================== *)
(** ** The wheel: radii, track circles and aspect lines *)
(* ================================================================== *)

Lemma resolveCollisions_tracks_at_most_4 (planets : list PlanetPosition.t)
    (minDeg : Q) :
  Forall (trackAtMost 4) (resolveCollisions planets minDeg).
Proof.
  destruct (resolveCollisions_bounds planets minDeg) as (_ & Hfirst & Htail).
  cbn zeta in *.
  destruct (resolveCollisions planets minDeg) as [|t r]; [constructor|].
  cbn [firstn tail] in *. constructor; [|exact Htail].
  inversion Hfirst; subst. unfold trackAtMost in *. lia.
Qed.

Lemma track_offset_bounds (n : nat) :
  (n <= 4)%nat ->
  0 <= inject_Z (Z.of_nat n) * trackSpacing /\
  inject_Z (Z.of_nat n) * trackSpacing <= 72.
Proof.
  intros Hn. unfold trackSpacing.
  assert (0 <= inject_Z (Z.of_nat n)) as H0.
  { change 0 with (inject_Z 0). rewrite <- Zle_Qle. lia. }
  assert (inject_Z (Z.of_nat n) <= 4) as H4.
  { change 4 with (inject_Z 4). rewrite <- Zle_Qle. lia. }
  generalize dependent (inject_Z (Z.of_nat n)). intros q H0 H4.
  split; lra.
Qed.

(** X18: every planet is drawn between the dashed inner circle (0.40 of
    the radius) and the inner rim of the zodiac ring (0.88 of the
    radius): the first chart's planets at radii above 173 and below 247,
    the second chart's above 134 and below 208. *)
Theorem plotted_radii {M : MathLib} (planets planetsB : list PlanetPosition.t)
    (rotationOffset : Q) :
  Forall (fun p => 173 < Plotted.r p /\ Plotted.r p < 247 /\
                   radius * (40 # 100) < Plotted.r p /\
                   Plotted.r p < radius * (88 # 100))
    (plottedPlanetsA planets rotationOffset) /\
  Forall (fun p => 134 < Plotted.r p /\ Plotted.r p < 208 /\
                   radius * (40 # 100) < Plotted.r p /\
                   Plotted.r p < radius * (88 # 100))
    (plottedPlanetsB (Some planetsB) rotationOffset).
Proof.
  unfold plottedPlanetsA, plottedPlanetsB, resolveCollisions_default, radius.
  split; apply List.Forall_forall; intros p Hp;
    apply in_map_iff in Hp as (t & <- & Ht); cbn [Plotted.r].
  - pose proof (resolveCollisions_tracks_at_most_4 planets 6) as Hall.
    rewrite List.Forall_forall in Hall. specialize (Hall t Ht).
    destruct (track_offset_bounds _ Hall) as [H0 H72].
    generalize dependent (inject_Z (Z.of_nat (Tracked.track t)) * trackSpacing).
    intros q H0 H72. repeat split; lra.
  - pose proof (resolveCollisions_tracks_at_most_4 planetsB 6) as Hall.
    rewrite List.Forall_forall in Hall. specialize (Hall t Ht).
    destruct (track_offset_bounds _ Hall) as [H0 H72].
    generalize dependent (inject_Z (Z.of_nat (Tracked.track t)) * trackSpacing).
    intros q H0 H72. repeat split; lra.
Qed.

Lemma maxTrack_ge (plotted : list Plotted.t) (p : Plotted.t) :
  In p plotted -> (Plotted.track p <= maxTrack plotted)%nat.
Proof.
  unfold maxTrack. induction plotted as [|q plotted IH]; intros Hin.
  - destruct Hin.
  - cbn [map fold_right]. destruct Hin as [-> | Hin]; [lia|].
    specialize (IH Hin). lia.
Qed.

Lemma maxTrack_le (plotted : list Plotted.t) (n : nat) :
  Forall (fun p => (Plotted.track p <= n)%nat) plotted ->
  (maxTrack plotted <= n)%nat.
Proof.
  unfold maxTrack. induction 1 as [|q plotted Hq _ IH]; cbn [map fold_right];
    lia.
Qed.

(** X19: each planet of either chart sits on one of the concentric track
    circles that are drawn, and at most five circles are drawn for each
    chart. *)
Theorem planets_on_track_circles {M : MathLib}
    (planets : list PlanetPosition.t)
    (secondaryPlanets : option (list PlanetPosition.t))
    (rotationOffset : Q) :
  let plottedA := plottedPlanetsA planets rotationOffset in
  let plottedB := plottedPlanetsB secondaryPlanets rotationOffset in
  Forall (fun p => In (Plotted.r p) (trackCircles plottedA plottedB))
    (plottedA ++ plottedB) /\
  (2 <= length (trackCircles plottedA plottedB) <= 10)%nat.
Proof.
  cbn zeta. split.
  - apply Forall_app. split; apply List.Forall_forall; intros p Hp;
      unfold trackCircles; apply in_or_app.
    + left. pose proof (maxTrack_ge _ _ Hp) as Hle.
      unfold plottedPlanetsA in Hp.
      apply in_map_iff in Hp as (t & <- & Ht).
      unfold Plotted.track in Hle. cbn [Plotted.r Plotted.tracked] in *.
      apply in_map_iff. exists (Tracked.track t). split; [reflexivity|].
      apply in_seq. lia.
    + right. pose proof (maxTrack_ge _ _ Hp) as Hle.
      destruct secondaryPlanets as [planetsB|]; [|destruct Hp].
      unfold plottedPlanetsB in Hp.
      apply in_map_iff in Hp as (t & <- & Ht).
      unfold Plotted.track in Hle. cbn [Plotted.r Plotted.tracked] in *.
      apply in_map_iff. exists (Tracked.track t). split; [reflexivity|].
      apply in_seq. lia.
  - unfold trackCircles. rewrite length_app, !length_map, !length_seq.
    assert (maxTrack (plottedPlanetsA planets rotationOffset) <= 4)%nat.
    { apply maxTrack_le. apply List.Forall_forall. intros p Hp.
      unfold plottedPlanetsA in Hp.
      apply in_map_iff in Hp as (t & <- & Ht). cbn.
      pose proof (resolveCollisions_tracks_at_most_4 planets 6) as Hall.
      rewrite List.Forall_forall in Hall. apply (Hall t Ht). }
    assert (maxTrack (plottedPlanetsB secondaryPlanets rotationOffset)
            <= 4)%nat.
    { apply maxTrack_le. apply List.Forall_forall. intros p Hp.
      destruct secondaryPlanets as [planetsB|]; [|destruct Hp].
      unfold plottedPlanetsB in Hp.
      apply in_map_iff in Hp as (t & <- & Ht). cbn.
      pose proof (resolveCollisions_tracks_at_most_4 planetsB 6) as Hall.
      rewrite List.Forall_forall in Hall. apply (Hall t Ht). }
    lia.
Qed.

Lemma abs_lt_iff (x c r : Q) :
  JS.lt (JS.Math_abs (x - c)) r = true <-> c - r < x /\ x < c + r.
Proof.
  unfold JS.Math_abs. rewrite lt_iff. split.
  - intros H. apply Qabs_Qlt_condition in H. destruct H. split; lra.
  - intros [H1 H2]. apply Qabs_Qlt_condition. split; lra.
Qed.

Lemma abs_lt_false (x c r : Q) :
  JS.lt (JS.Math_abs (x - c)) r = false -> x <= c - r \/ c + r <= x.
Proof.
  intros H.
  destruct (Qlt_le_dec (c - r) x) as [H1|H1]; [|left; exact H1].
  destruct (Qlt_le_dec x (c + r)) as [H2|H2]; [|right; exact H2].
  assert (JS.lt (JS.Math_abs (x - c)) r = true) as Ht
    by (apply abs_lt_iff; split; assumption).
  congruence.
Qed.

(** The five tests of [aspectLines], one at a time: the bands do not
    overlap here either. *)
Lemma lineTypeOf_bands (normDiff : Q) (secondaryData : bool) :
  (lineTypeOf normDiff secondaryData = "opposition" <->
     174 < normDiff /\ normDiff < 186) /\
  (lineTypeOf normDiff secondaryData = "trine" <->
     114 < normDiff /\ normDiff < 126) /\
  (lineTypeOf normDiff secondaryData = "square" <->
     84 < normDiff /\ normDiff < 96) /\
  (lineTypeOf normDiff secondaryData = "sextile" <->
     56 < normDiff /\ normDiff < 64) /\
  (lineTypeOf normDiff secondaryData = "conjunction" <->
     (-6 < normDiff /\ normDiff < 6) /\ secondaryData = true).
Proof.
  unfold lineTypeOf.
  destruct (JS.lt (JS.Math_abs (normDiff - 180)) 6) eqn:L180;
    [apply abs_lt_iff in L180 | apply abs_lt_false in L180];
  (destruct (JS.lt (JS.Math_abs (normDiff - 120)) 6) eqn:L120;
    [apply abs_lt_iff in L120 | apply abs_lt_false in L120]);
  (destruct (JS.lt (JS.Math_abs (normDiff - 90)) 6) eqn:L90;
    [apply abs_lt_iff in L90 | apply abs_lt_false in L90]);
  (destruct (JS.lt (JS.Math_abs (normDiff - 60)) 4) eqn:L60;
    [apply abs_lt_iff in L60 | apply abs_lt_false in L60]);
  (destruct (JS.lt (JS.Math_abs (normDiff - 0)) 6) eqn:L0;
    [apply abs_lt_iff in L0 | apply abs_lt_false in L0]);
  try (exfalso; lra);
  destruct secondaryData; cbn [andb];
  repeat split; intros; try discriminate; try reflexivity; try lra;
  try (exfalso; lra);
  repeat match goal with H : _ /\ _ |- _ => destruct H end;
  try discriminate; try (exfalso; lra).
Qed.

(** Split the five tests of [aspectTypeOf] into their bands. *)
Ltac aspect_bands angle :=
  unfold aspectTypeOf, ORB; change (6 * (7 # 10)) with (42 # 10);
  destruct (JS.le (JS.Math_abs (angle - 0)) 6) eqn:?H0;
    [apply abs_le_iff in H0 | apply abs_le_false in H0];
  (destruct (JS.le (JS.Math_abs (angle - 60)) (42 # 10)) eqn:?H60;
    [apply abs_le_iff in H60 | apply abs_le_false in H60]);
  (destruct (JS.le (JS.Math_abs (angle - 90)) 6) eqn:?H90;
    [apply abs_le_iff in H90 | apply abs_le_false in H90]);
  (destruct (JS.le (JS.Math_abs (angle - 120)) 6) eqn:?H120;
    [apply abs_le_iff in H120 | apply abs_le_false in H120]);
  (destruct (JS.le (JS.Math_abs (angle - 180)) 6) eqn:?H180;
    [apply abs_le_iff in H180 | apply abs_le_false in H180]);
  try reflexivity; exfalso; lra.

Lemma indexed_from_elem {A : Type} (l : list A) (start i : nat) (x : A) :
  In (i, x) (combine (seq start (length l)) l) ->
  (start <= i)%nat /\ l !! (i - start)%nat = Some x.
Proof.
  revert start. induction l as [|y l IH]; intros start Hin;
    cbn [length seq combine] in Hin.
  - destruct Hin.
  - destruct Hin as [Heq | Hin].
    + injection Heq as <- <-. split; [lia|].
      rewrite Nat.sub_diag. reflexivity.
    + apply IH in Hin as [Hle Hx]. split; [lia|].
      replace (i - start)%nat with (S (i - S start)) by lia. exact Hx.
Qed.

Lemma indexed_elem {A : Type} (l : list A) (i : nat) (x : A) :
  In (i, x) (indexed l) -> l !! i = Some x.
Proof.
  intros Hin. apply indexed_from_elem in Hin as [_ Hx].
  rewrite Nat.sub_0_r in Hx. exact Hx.
Qed.

Lemma lineTypeOf_values (normDiff : Q) (secondaryData : bool) :
  In (lineTypeOf normDiff secondaryData)
    ["opposition"; "trine"; "square"; "sextile"; "conjunction"; ""]%string /\
  (secondaryData = false -> lineTypeOf normDiff secondaryData <> "conjunction").
Proof.
  unfold lineTypeOf.
  destruct (JS.lt _ 6); [split; [cbn; tauto | discriminate]|].
  destruct (JS.lt _ 6); [split; [cbn; tauto | discriminate]|].
  destruct (JS.lt _ 6); [split; [cbn; tauto | discriminate]|].
  destruct (JS.lt _ 4); [split; [cbn; tauto | discriminate]|].
  destruct (JS.lt _ 6); destruct secondaryData; cbn [andb];
    (split; [cbn; tauto | try discriminate; intros _; discriminate]).
Qed.

(** The chain of the wheel against the chain of the service, on one
    separation. *)
Lemma lineTypeOf_follows_service (normDiff : Q) (secondaryData : bool) :
  (lineTypeOf normDiff secondaryData = "opposition" /\
   aspectTypeOf normDiff = "Opposition") \/
  (lineTypeOf normDiff secondaryData = "trine" /\
   aspectTypeOf normDiff = "Trine") \/
  (lineTypeOf normDiff secondaryData = "square" /\
   aspectTypeOf normDiff = "Square") \/
  (lineTypeOf normDiff secondaryData = "sextile" /\
   aspectTypeOf normDiff = "Sextile") \/
  (lineTypeOf normDiff secondaryData = "conjunction" /\
   aspectTypeOf normDiff = "Conjunction") \/
  lineTypeOf normDiff secondaryData = "".
Proof.
  destruct (lineTypeOf_bands normDiff secondaryData)
    as (B180 & B120 & B90 & B60 & B0).
  destruct (lineTypeOf_values normDiff secondaryData) as [Hvals _].
  cbn [In] in Hvals.
  destruct Hvals as [H|[H|[H|[H|[H|[H|[]]]]]]]; symmetry in H.
  - left. split; [exact H |]. apply B180 in H. aspect_bands normDiff.
  - right. left. split; [exact H |]. apply B120 in H. aspect_bands normDiff.
  - do 2 right. left. split; [exact H |]. apply B90 in H.
    aspect_bands normDiff.
  - do 3 right. left. split; [exact H |]. apply B60 in H.
    aspect_bands normDiff.
  - do 4 right. left. split; [exact H |]. apply B0 in H as [H _].
    aspect_bands normDiff.
  - do 5 right. exact H.
Qed.

Lemma linePairOf_elem (secondaryData : bool) (active : option Active.t)
    (i j : nat) (p1 p2 : Plotted.t) (lp : LinePair.t) :
  In lp (linePairOf secondaryData active (i, p1) (j, p2)) ->
  LinePair.i lp = i /\ LinePair.j lp = j /\
  LinePair.p1 lp = p1 /\ LinePair.p2 lp = p2 /\
  In (LinePair.type lp)
    ["opposition"; "trine"; "square"; "sextile"; "conjunction"]%string /\
  (secondaryData = false ->
   (i < j)%nat /\ LinePair.type lp <> "conjunction") /\
  (active <> None ->
   isActivePlanet active p1 || isActivePlanet active p2 = true).
Proof.
  unfold linePairOf.
  destruct (negb secondaryData && (j <=? i)%nat) eqn:Hskip; [intros []|].
  destruct (match active with Some _ => _ | None => false end) eqn:Hact;
    [intros []|].
  set (normDiff := if JS.gt _ 180 then _ else _).
  destruct (lineTypeOf_values normDiff secondaryData) as [Hvals Hnoconj].
  destruct (String.eqb (lineTypeOf normDiff secondaryData) "") eqn:Hempty;
    [intros []|].
  apply String.eqb_neq in Hempty.
  intros [<- | []]. cbn [LinePair.i LinePair.j LinePair.p1 LinePair.p2
                         LinePair.type].
  repeat (split; [reflexivity|]). split; [|split].
  - cbn [In] in Hvals |- *.
    destruct Hvals as [H|[H|[H|[H|[H|[H|[]]]]]]]; try tauto.
    exfalso. apply Hempty. symmetry. exact H.
  - intros ->. cbn [negb andb] in Hskip. apply Nat.leb_gt in Hskip.
    split; [exact Hskip | apply Hnoconj; reflexivity].
  - intros Hsome. destruct active as [a|]; [|contradiction].
    destruct (isActivePlanet (Some a) p1); [reflexivity|].
    destruct (isActivePlanet (Some a) p2); [reflexivity|].
    discriminate Hact.
Qed.

Lemma linePairs_elem (plottedA plottedB : list Plotted.t)
    (secondaryData : bool) (active : option Active.t) (lp : LinePair.t) :
  In lp (linePairs plottedA plottedB secondaryData active) ->
  plottedA !! LinePair.i lp = Some (LinePair.p1 lp) /\
  (if secondaryData then plottedB else plottedA) !! LinePair.j lp
    = Some (LinePair.p2 lp) /\
  In (LinePair.type lp)
    ["opposition"; "trine"; "square"; "sextile"; "conjunction"]%string /\
  (secondaryData = false ->
   (LinePair.i lp < LinePair.j lp)%nat /\
   LinePair.type lp <> "conjunction") /\
  (active <> None ->
   isActivePlanet active (LinePair.p1 lp)
   || isActivePlanet active (LinePair.p2 lp) = true).
Proof.
  unfold linePairs. intros Hin.
  apply in_flat_map in Hin as ([i p1] & H1 & Hin).
  apply in_flat_map in Hin as ([j p2] & H2 & Hin).
  apply indexed_elem in H1, H2.
  apply linePairOf_elem in Hin as (-> & -> & -> & -> & Ht & Hn & Ha).
  repeat split; try assumption; apply Hn; assumption.
Qed.

Lemma indexed_from_lookup {A : Type} (l : list A) (start i : nat) (x : A) :
  l !! i = Some x -> In ((start + i)%nat, x) (combine (seq start (length l)) l).
Proof.
  revert start i. induction l as [|y l IH]; intros start i Hx.
  - discriminate Hx.
  - cbn [length seq combine]. destruct i as [|i].
    + injection Hx as <-. left. rewrite Nat.add_0_r. reflexivity.
    + right. replace (start + S i)%nat with (S start + i)%nat by lia.
      apply IH. exact Hx.
Qed.

Lemma indexed_lookup {A : Type} (l : list A) (i : nat) (x : A) :
  l !! i = Some x -> In (i, x) (indexed l).
Proof. intros H. apply (indexed_from_lookup l 0 i x H). Qed.

(** The type given to a pair for which a line is pushed is the one the
    chain of the wheel finds for the separation of the two longitudes. *)
Lemma linePairOf_type (secondaryData : bool) (active : option Active.t)
    (i j : nat) (p1 p2 : Plotted.t) (lp : LinePair.t) :
  In lp (linePairOf secondaryData active (i, p1) (j, p2)) ->
  lp = LinePair.mk i j p1 p2
         (lineTypeOf (separation (Plotted.degree p1) (Plotted.degree p2))
            secondaryData) /\
  LinePair.type lp <> "".
Proof.
  unfold linePairOf.
  destruct (negb secondaryData && (j <=? i)%nat); [intros [] |].
  destruct (match active with Some _ => _ | None => false end);
    [intros [] |].
  fold (separation (Plotted.degree p1) (Plotted.degree p2)).
  destruct (String.eqb _ "") eqn:Hempty; [intros [] |].
  apply String.eqb_neq in Hempty.
  intros [<- | []]. split; [reflexivity | exact Hempty].
Qed.

(** With no planet hovered or selected, a pair whose separation gets a
    type from the chain is pushed. *)
Lemma linePairOf_pushed (secondaryData : bool) (i j : nat)
    (p1 p2 : Plotted.t) :
  (secondaryData = false -> (i < j)%nat) ->
  lineTypeOf (separation (Plotted.degree p1) (Plotted.degree p2))
    secondaryData <> "" ->
  linePairOf secondaryData None (i, p1) (j, p2) =
    [ LinePair.mk i j p1 p2
        (lineTypeOf (separation (Plotted.degree p1) (Plotted.degree p2))
           secondaryData) ].
Proof.
  intros Hij Htype. unfold linePairOf.
  assert (negb secondaryData && (j <=? i)%nat = false) as ->.
  { destruct secondaryData; [reflexivity |]. cbn [negb andb].
    apply Nat.leb_gt. apply Hij. reflexivity. }
  fold (separation (Plotted.degree p1) (Plotted.degree p2)).
  apply String.eqb_neq in Htype. rewrite Htype. reflexivity.
Qed.

Lemma linePairs_pushed (plottedA plottedB : list Plotted.t)
    (secondaryData : bool) (i j : nat) (p1 p2 : Plotted.t) (type : string) :
  plottedA !! i = Some p1 ->
  (if secondaryData then plottedB else plottedA) !! j = Some p2 ->
  (secondaryData = false -> (i < j)%nat) ->
  lineTypeOf (separation (Plotted.degree p1) (Plotted.degree p2))
    secondaryData = type ->
  type <> "" ->
  In (LinePair.mk i j p1 p2 type)
    (linePairs plottedA plottedB secondaryData None).
Proof.
  intros H1 H2 Hij Htype Hne. unfold linePairs.
  apply in_flat_map. exists (i, p1).
  split; [apply indexed_lookup; exact H1 |].
  apply in_flat_map. exists (j, p2).
  split; [apply indexed_lookup; exact H2 |].
  rewrite linePairOf_pushed; [| exact Hij | rewrite Htype; exact Hne].
  rewrite Htype. left. reflexivity.
Qed.

(** X20: the wheel and the service agree on the aspects, up to the edge
    of the orbs.  Every line drawn, in either mode and whatever is
    hovered or selected, joins two planets to whose separation the
    service gives the aspect of the line's type.  And with no planet
    hovered or selected, the line is drawn for every pair whose
    separation is strictly within 6 of the exact angle, 4 for a sextile:
    in synastry for every planet of the first chart with every planet of
    the second, in a single chart for every pair taken once, the
    conjunctions left out.  The separation is the one both compute, on
    the rounded difference of the two longitudes. *)
Theorem wheel_lines_follow_service (plottedA plottedB : list Plotted.t) :
  (forall (secondaryData : bool) (active : option Active.t),
     Forall
       (fun lp =>
          let angle := separation (Plotted.degree (LinePair.p1 lp))
                                  (Plotted.degree (LinePair.p2 lp)) in
          (LinePair.type lp = "opposition" /\
           aspectTypeOf angle = "Opposition") \/
          (LinePair.type lp = "trine" /\ aspectTypeOf angle = "Trine") \/
          (LinePair.type lp = "square" /\ aspectTypeOf angle = "Square") \/
          (LinePair.type lp = "sextile" /\ aspectTypeOf angle = "Sextile") \/
          (LinePair.type lp = "conjunction" /\
           aspectTypeOf angle = "Conjunction"))
       (linePairs plottedA plottedB secondaryData active)) /\
  (forall (secondaryData : bool) (i j : nat) (p1 p2 : Plotted.t),
     plottedA !! i = Some p1 ->
     (if secondaryData then plottedB else plottedA) !! j = Some p2 ->
     (secondaryData = false -> (i < j)%nat) ->
     let angle := separation (Plotted.degree p1) (Plotted.degree p2) in
     let drawn type :=
       In (LinePair.mk i j p1 p2 type)
          (linePairs plottedA plottedB secondaryData None) in
     (174 < angle /\ angle < 186 -> drawn "opposition") /\
     (114 < angle /\ angle < 126 -> drawn "trine") /\
     (84 < angle /\ angle < 96 -> drawn "square") /\
     (56 < angle /\ angle < 64 -> drawn "sextile") /\
     (-6 < angle /\ angle < 6 -> secondaryData = true ->
      drawn "conjunction")).
Proof.
  split.
  - intros secondaryData active. apply List.Forall_forall. intros lp Hin.
    unfold linePairs in Hin.
    apply in_flat_map in Hin as ([i p1] & _ & Hin).
    apply in_flat_map in Hin as ([j p2] & _ & Hin).
    apply linePairOf_type in Hin as [-> Hne].
    cbn [LinePair.p1 LinePair.p2 LinePair.type] in *. cbn zeta.
    destruct (lineTypeOf_follows_service
                (separation (Plotted.degree p1) (Plotted.degree p2))
                secondaryData) as [H|[H|[H|[H|[H|H]]]]];
      [tauto | tauto | tauto | tauto | tauto | contradiction].
  - intros secondaryData i j p1 p2 H1 H2 Hij. cbn zeta.
    destruct (lineTypeOf_bands
                (separation (Plotted.degree p1) (Plotted.degree p2))
                secondaryData) as (B180 & B120 & B90 & B60 & B0).
    split; [| split; [| split; [| split]]].
    + intros H. apply B180 in H.
      apply (linePairs_pushed _ _ _ _ _ _ _ _ H1 H2 Hij H). discriminate.
    + intros H. apply B120 in H.
      apply (linePairs_pushed _ _ _ _ _ _ _ _ H1 H2 Hij H). discriminate.
    + intros H. apply B90 in H.
      apply (linePairs_pushed _ _ _ _ _ _ _ _ H1 H2 Hij H). discriminate.
    + intros H. apply B60 in H.
      apply (linePairs_pushed _ _ _ _ _ _ _ _ H1 H2 Hij H). discriminate.
    + intros H Hs. assert (Hb := conj H Hs). apply B0 in Hb.
      apply (linePairs_pushed _ _ _ _ _ _ _ _ H1 H2 Hij Hb). discriminate.
Qed.

(** X21: every aspect line joins a planet of the first set to a planet of
    the set it is compared with; for a single chart each pair is taken
    once, the earlier planet first, and no conjunction is drawn; and
    while a planet is hovered or selected, every line drawn touches it. *)
Theorem aspect_line_pairs (plottedA plottedB : list Plotted.t)
    (secondaryData : bool) (active : option Active.t) :
  Forall
    (fun lp =>
       plottedA !! LinePair.i lp = Some (LinePair.p1 lp) /\
       (if secondaryData then plottedB else plottedA) !! LinePair.j lp
         = Some (LinePair.p2 lp) /\
       In (LinePair.type lp)
         ["opposition"; "trine"; "square"; "sextile"; "conjunction"]%string /\
       (secondaryData = false ->
        (LinePair.i lp < LinePair.j lp)%nat /\
        LinePair.type lp <> "conjunction") /\
       (active <> None ->
        isActivePlanet active (LinePair.p1 lp)
        || isActivePlanet active (LinePair.p2 lp) = true))
    (linePairs plottedA plottedB secondaryData active).
Proof.
  apply List.Forall_forall. intros lp Hlp.
  apply (linePairs_elem _ _ _ _ _ Hlp).
Qed.

(** X22: the lines are drawn in one of two styles only: all highlighted
    while a planet is hovered or selected, all faint otherwise; the
    opacity 0 of the style expression is never used. *)
Theorem aspect_line_styles (plottedA plottedB : list Plotted.t)
    (secondaryData : bool) (active : option Active.t) :
  Forall
    (fun line =>
       match active with
       | Some _ =>
           Line.stroke line = "#D4C5A5" /\ Line.strokeWidth line = 1 /\
           Line.opacity line = 1
       | None =>
           Line.stroke line = "#333" /\ Line.strokeWidth line = 1 # 2 /\
           Line.opacity line = 3 # 10
       end /\
       ~ Line.opacity line == 0)
    (aspectLines plottedA plottedB secondaryData active).
Proof.
  apply List.Forall_forall. intros line Hline. unfold aspectLines in Hline.
  apply in_map_iff in Hline as (lp & <- & Hlp).
  apply linePairs_elem in Hlp as (_ & _ & _ & _ & Hact).
  unfold lineOf. cbn [Line.stroke Line.strokeWidth Line.opacity].
  destruct active as [a|].
  - rewrite Hact by discriminate.
    split; [repeat split; reflexivity | discriminate].
  - split; [repeat split; reflexivity | discriminate].
Qed.

(** X23: the tracks never go beyond 4, and the first entry of the sorted
    order is on track 0 or 1. *)
Theorem tracks_at_most_four (planets : list PlanetPosition.t) (minDeg : Q) :
  let r := resolveCollisions planets minDeg in
  Forall (trackAtMost 4) r /\ Forall (trackAtMost 1) (firstn 1 r).
Proof.
  cbn zeta. split; [apply resolveCollisions_tracks_at_most_4|].
  apply (resolveCollisions_bounds planets minDeg).
Qed.

(** X24: given the counts of ten bodies instead of percentages, the
    panel's [getNormalizedElements] turns each count into ten times its
    value, so the result sums to 100; and with nothing counted it gives
    four zeros. *)
Theorem getNormalizedElements_of_counts (f e a w : Z) :
  (0 <= f)%Z -> (0 <= e)%Z -> (0 <= a)%Z -> (0 <= w)%Z ->
  (f + e + a + w = 10)%Z ->
  getNormalizedElements (ElementalBalance.mk f e a w)
    = ElementalBalance.mk (10 * f) (10 * e) (10 * a) (10 * w) /\
  getNormalizedElements (ElementalBalance.mk 0 0 0 0)
    = ElementalBalance.mk 0 0 0 0.
Proof.
  intros _ _ _ _ Hsum. split; [|reflexivity].
  unfold getNormalizedElements.
  cbn [ElementalBalance.fire ElementalBalance.earth ElementalBalance.air
       ElementalBalance.water].
  rewrite Hsum. cbn [Z.eqb Z.ltb Z.compare Pos.compare Pos.compare_cont].
  rewrite !percentage_of_ten. reflexivity.
Qed.

Lemma getNormalizedElements_of_counts_witness :
  getNormalizedElements (ElementalBalance.mk 4 3 2 1)
    = ElementalBalance.mk (10 * 4) (10 * 3) (10 * 2) (10 * 1) /\
  getNormalizedElements (ElementalBalance.mk 0 0 0 0)
    = ElementalBalance.mk 0 0 0 0.
Proof.
  apply (getNormalizedElements_of_counts 4 3 2 1); lia.
Defined.

(** X25: for a chart from the service, enriched, the natal view always has
    a planet to show: with nothing selected it is the Sun, the first
    planet of the chart. *)
Theorem natal_view_shows_sun {M : MathLib} {E : AstronomyEngine}
    (date : Date) (lat lon : Q) (c : CalculatedChart.t) (name : string)
    (validated : Interpretation.t) (d : ChartData.t) :
  calculateChart date lat lon = JS.Return c ->
  enrichChart c name (JS.Return validated) = JS.Return d ->
  exists sun,
    displayPlanet None d = Some sun /\
    ChartData.planets d !! 0%nat = Some sun /\
    PlanetPosition.name (ChartPlanet.position sun) = "Sun".
Proof.
  intros Hc Hd. cbn in Hd. injection Hd as <-.
  apply calculateChart_planets in Hc as (Hnames & _).
  unfold displayPlanet. cbn [ChartData.planets].
  destruct (CalculatedChart.planets c) as [|pSun ps]; [discriminate Hnames|].
  cbn [map] in Hnames. injection Hnames as Hsun _.
  cbn [map List.find ChartPlanet.position]. rewrite Hsun. cbn.
  eexists. repeat split. exact Hsun.
Qed.

Lemma natal_view_shows_sun_witness :
  exists c d sun,
    calculateChart (M := sampleMath) (E := sampleEngine) 0%Z 45 10
      = JS.Return c /\
    enrichChart c "Ada" (JS.Return (Interpretation.mk [] ""))
      = JS.Return d /\
    displayPlanet None d = Some sun /\
    ChartData.planets d !! 0%nat = Some sun /\
    PlanetPosition.name (ChartPlanet.position sun) = "Sun".
Proof.
  eexists. eexists.
  assert (calculateChart (M := sampleMath) (E := sampleEngine) 0%Z 45 10
          = JS.Return ?[c]) as Hc by (vm_compute; reflexivity).
  destruct (natal_view_shows_sun (M := sampleMath) (E := sampleEngine)
              0%Z 45 10 _ "Ada" (Interpretation.mk [] "") _ Hc eq_refl)
    as (sun & H).
  exists sun. split; [exact Hc|]. split; [reflexivity | exact H].
Defined.
